(** * qParser: a shallow embedding of the lexer, the multiplication expander,
    the Binary normaliser and the precedence folder

    Python strings are Rocq strings, a character is an [ascii], Python
    integers are [Z] where they can be negative and [nat] where they are
    loop indices, Python lists are lists.  Exceptions and [exit()] are
    results of type [res]; loops that Python writes as [while] take a fuel
    argument and answer [None] when the fuel is used up. *)

From Stdlib Require Import ZArith QArith String Ascii Lia.
From stdpp Require Import base option list strings.

Open Scope Z_scope.

(** ** Outcomes of a Python call *)

Inductive exn : Set :=
  | IndexError      (* subscript out of range *)
  | TypeError       (* unpacking None, unexpected keyword argument *)
  | AttributeError  (* attribute read on an object that lacks it *)
  | AssertionError  (* a failed assert *)
  | ArityError      (* a Macroleaf built with the wrong number of arguments *)
  | SystemExit.     (* exit() *)

Inductive res (A : Type) : Type :=
  | Ok (a : A)
  | Raise (e : exn).
Arguments Ok {A} a.
Arguments Raise {A} e.

(** Sequencing: an exception ends the computation. *)
Global Instance res_bind : MBind res := fun A B k r =>
  match r with
  | Ok a => k a
  | Raise e => Raise e
  end.

(** ** String primitives: s[0:n], s[n:], s[n] *)

Fixpoint str_take (n : nat) (s : string) : string :=
  match n, s with
  | S n', String c s' => String c (str_take n' s')
  | _, _ => ""
  end.

Fixpoint str_drop (n : nat) (s : string) : string :=
  match n, s with
  | S n', String _ s' => str_drop n' s'
  | _, _ => s
  end.

Definition str_len (s : string) : nat := String.length s.

(** [ord(char)] *)
Definition ord (c : ascii) : nat := nat_of_ascii c.

(** ** Utilities of qParser.py *)

(** [pop(inputStr)] *)
Definition pop (inputStr : string) : string * string :=
  match inputStr with
  | "" => ("", "")
  | String c "" => (inputStr, "")
  | String c tl => (String c "", tl)
  end.

(** [split(inputStr, n)] *)
Definition split (inputStr : string) (n : Z) : string * string :=
  if bool_decide (inputStr = "") then ("", "")
  else if Z.of_nat (str_len inputStr) <? n then (inputStr, "")
  else if n <=? 0 then ("", inputStr)
  else (str_take (Z.to_nat n) inputStr, str_drop (Z.to_nat n) inputStr).

(** The test that [isAlpha] and [isDigit] make on the first character. *)
Definition alphaChar (c : ascii) : bool :=
  ((ord "A" <=? ord c)%nat && (ord c <=? ord "Z")%nat)
  || ((ord "a" <=? ord c)%nat && (ord c <=? ord "z")%nat).

Definition digitChar (c : ascii) : bool :=
  (ord "0" <=? ord c)%nat && (ord c <=? ord "9")%nat.

(** [isAlpha(inputStr)]: [inputStr[0]] raises on the empty string. *)
Definition isAlpha (inputStr : string) : res bool :=
  match inputStr with
  | "" => Raise IndexError
  | String char _ => Ok (alphaChar char)
  end.

(** [isDigit(inputStr)] *)
Definition isDigit (inputStr : string) : res bool :=
  match inputStr with
  | "" => Raise IndexError
  | String char _ => Ok (digitChar char)
  end.

(** [isNumber(inputStr)]: the loop carries [gotDigit], which in fact records
    that a dot was seen. *)
Fixpoint isNumber_loop (chars : string) (gotDigit : bool) : bool :=
  match chars with
  | "" => true
  | String char tl =>
      if Ascii.eqb char "."
      then (if gotDigit then false else isNumber_loop tl true)
      else if negb (digitChar char) then false
      else isNumber_loop tl gotDigit
  end.

Definition isNumber (inputStr : string) : bool :=
  if bool_decide (inputStr ∈ [""; "."]) then false
  else isNumber_loop inputStr false.


(** ** Python loops

    [for n in range: ...] whose body may leave the function: the body answers
    [Some r] to leave with [r] and [None] to go on with the next [n]. *)
Fixpoint for_first {A : Type} (body : nat -> option A) (range : list nat) : option A :=
  match range with
  | [] => None
  | n :: range' =>
      match body n with
      | Some r => Some r
      | None => for_first body range'
      end
  end.

(** One turn of a [while] loop either goes on or leaves it. *)
Inductive loop (St : Type) : Type :=
  | Continue (s : St)
  | Break (s : St).
Arguments Continue {St} s.
Arguments Break {St} s.

(** [s[0:-1]] *)
Fixpoint str_init (s : string) : string :=
  match s with
  | "" => ""
  | String c "" => ""
  | String c tl => String c (str_init tl)
  end.

(** [str.isdigit()] on one character whose code point is below 256: the ten
    digits and the superscripts one, two and three. *)
Definition py_isdigit (c : ascii) : bool :=
  digitChar c || bool_decide (ord c ∈ [178; 179; 185]%nat).

(** ** The Token class *)

Definition CONSTANTS : list (string * Q) :=
  [ ("pi", 314159265358979 # 100000000000000);
    ("i", 0%Q);
    ("eps", 0%Q);
    ("inf", 0%Q) ].

Definition FUNCTIONS : list (string * nat) :=
  [ ("id", 1); ("sin", 1); ("cos", 1); ("tan", 1); ("exp", 1); ("ln", 1);
    ("log10", 1); ("logN", 2); ("abs", 1); ("sqrt", 1); ("floor", 1);
    ("ceil", 1); ("round", 1); ("Q", 2); ("sinc", 1) ]%nat.

Definition INFIX_OPS : list (string * Z) :=
  [ ("+", 1); ("-", 1); ("*", 2); ("/", 2); ("//", 2); ("^", 3) ].

Definition constantsList : list string := CONSTANTS.*1.
Definition functionsList : list string := FUNCTIONS.*1.
Definition infixOpsList : list string := INFIX_OPS.*1.
Definition reservedNames : list string := constantsList ++ functionsList.

(** [checkVariableSyntax(inputStr)] *)
Definition checkVariableSyntax (inputStr : string) : res bool :=
  if bool_decide (inputStr ∈ reservedNames) then Ok false
  else
    match inputStr with
    | "" => Raise IndexError
    | String c0 _ =>
        if negb (alphaChar c0 || Ascii.eqb c0 "_") then Ok false
        else
          Ok (forallb
                (fun char => alphaChar char || digitChar char || Ascii.eqb char "_")
                (list_ascii_of_string inputStr))
    end.

(** [isBlank(inputStr)] prints TODO and returns None. *)
Definition isBlank (inputStr : string) : option bool := None.

(** A token.  [type] and [name] are the attributes that the Token class of
    qParser.py sets.

    Modelled from the spec: binary.py reads two further attributes,
    [priority] and [value], of the tokens of symbols.py, which is not among
    the sources.  The spec says that an infix token carries the priority of
    the operator registry and that leaves are literal numbers or constants of
    the constant table; [Token_init] fills the two fields from the tables
    [INFIX_OPS] and [CONSTANTS] (0 where the tables say nothing). *)
Record Token : Type := mkToken {
  type : string;
  name : string;
  priority : Z;
  value : Q
}.

Fixpoint table_get {V : Type} (d : V) (key : string) (table : list (string * V)) : V :=
  match table with
  | [] => d
  | (k, v) :: table' => if bool_decide (k = key) then v else table_get d key table'
  end.

(** [Token(name)].  The last branch of the constructor prints an error and
    leaves the object without [type] and [name]; no [Token] stands for such
    an object, whose first use fails, and the construction answers
    [Raise AttributeError] in its place. *)
Definition Token_init (name : string) : res Token :=
  if bool_decide (name ∈ constantsList) then
    Ok (mkToken "CONSTANT" name 0 (table_get 0%Q name CONSTANTS))
  else if bool_decide (name ∈ functionsList) then
    Ok (mkToken "FUNCTION" name 0 0%Q)
  else if bool_decide (name ∈ infixOpsList) then
    Ok (mkToken "INFIX" name (table_get 0 name INFIX_OPS) 0%Q)
  else
    isVar ← checkVariableSyntax name;
    if (isVar : bool) then Ok (mkToken "VAR" name 0 0%Q)
    else if bool_decide (name = "(") then Ok (mkToken "BRKT_OPEN" name 0 0%Q)
    else if bool_decide (name = ")") then Ok (mkToken "BRKT_CLOSE" name 0 0%Q)
    else if bool_decide (name = ",") then Ok (mkToken "COMMA" name 0 0%Q)
    else if isNumber name then Ok (mkToken "NUMBER" name 0 0%Q)
    else if default false (isBlank name) then Ok (mkToken "SPACE" name 0 0%Q)
    else Raise AttributeError.

(** ** The QParser class *)

Record QParser : Type := mkQParser {
  input : string;
  variables : list string
}.

(** The opening lines of every method: the argument when it is not empty,
    the attribute [input] otherwise. *)
Definition inputStr_of (self : QParser) (input_arg : string) : string :=
  if (0 <? str_len input_arg)%nat then input_arg else input self.

(** [consumeSpace(input)]: [None] is Python's None, returned when the loop
    ends without having met a character other than a space. *)
Definition consumeSpace (self : QParser) (input_arg : string)
  : option (string * string) :=
  let inputStr := inputStr_of self input_arg in
  for_first
    (fun n =>
       match String.get n inputStr with
       | Some char =>
           if negb (Ascii.eqb char " ") then Some (split inputStr (Z.of_nat n))
           else None
       | None => None
       end)
    (seq 0 (str_len inputStr)).

(** [consumeConst(input)] *)
Definition consumeConst (self : QParser) (input_arg : string)
  : res (string * string) :=
  let inputStr := inputStr_of self input_arg in
  let constList := CONSTANTS.*1 in
  default (Ok ("", inputStr))
    (for_first
       (fun n =>
          let '(head, tail) := split inputStr (Z.of_nat n) in
          if bool_decide (head ∈ constList) then
            if (n =? str_len inputStr)%nat then Some (Ok (head, ""))
            else
              match tail with
              | "" => Some (Raise IndexError)
              | String nextChar _ =>
                  if Ascii.eqb nextChar "_" then Some (Ok ("", inputStr))
                  else if alphaChar nextChar then None
                  else Some (Ok (head, tail))
              end
          else None)
       (seq 1 (str_len inputStr))).

(** The loop of [consumeNumber]: [nMax] follows [n] until [isNumber] fails. *)
Fixpoint consumeNumber_loop (inputStr : string) (range : list nat) (nMax : nat) : nat :=
  match range with
  | [] => nMax
  | n :: range' =>
      if isNumber (split inputStr (Z.of_nat n)).1
      then consumeNumber_loop inputStr range' n
      else nMax
  end.

(** [consumeNumber(input)] *)
Definition consumeNumber (self : QParser) (input_arg : string)
  : res (string * string) :=
  let inputStr := inputStr_of self input_arg in
  match inputStr with
  | "" => Raise IndexError
  | String c0 _ =>
      if negb (py_isdigit c0 || Ascii.eqb c0 ".") then Ok ("", inputStr)
      else
        let nMax := consumeNumber_loop inputStr (seq 1 (str_len inputStr)) 0 in
        Ok (split inputStr (Z.of_nat nMax))
  end.

(** [consumeFunc(input)] *)
Definition consumeFunc (self : QParser) (input_arg : string) : string * string :=
  let inputStr := inputStr_of self input_arg in
  let functionsExt := (fun f => f.1 +:+ "(") <$> FUNCTIONS in
  let nMax :=
    foldl
      (fun nMax n =>
         if bool_decide ((split inputStr (Z.of_nat n)).1 ∈ functionsExt)
         then n else nMax)
      0%nat (seq 1 (str_len inputStr)) in
  let '(tmpHead, tmpTail) := split inputStr (Z.of_nat nMax) in
  (str_init tmpHead, tmpTail).

(** [consumeVar(input)].  The first component of the result is a string, or
    the integer -1 that [output] holds before the loop assigns it. *)
Definition consumeVar (self : QParser) (input_arg : string)
  : res ((Z + string) * string) :=
  let inputStr := inputStr_of self input_arg in
  let OUTPUT_FAILURE : (Z + string) * string := (inr "", inputStr) in
  match inputStr with
  | "" => Raise IndexError
  | String c0 _ =>
      if negb (alphaChar c0 || Ascii.eqb c0 "_") then Ok (inr "", inputStr)
      else
        let assigned :=
          for_first
            (fun n =>
               let '(head, tail) := split inputStr (Z.of_nat n) in
               if (n =? str_len inputStr)%nat then Some (Ok (head, ""))
               else
                 match tail with
                 | "" => Some (Raise IndexError)
                 | String nextChar _ =>
                     if alphaChar nextChar || Ascii.eqb nextChar "_" then None
                     else if digitChar nextChar then
                       match consumeNumber self tail with
                       | Raise e => Some (Raise e)
                       | Ok (nbr, _) =>
                           if bool_decide ("."%char ∈ list_ascii_of_string nbr)
                           then Some (Ok (head, tail))
                           else None
                       end
                     else Some (Ok (head, tail))
                 end)
            (seq 1 (str_len inputStr)) in
        match assigned with
        | None => Ok (inl (-1), "")
        | Some (Raise e) => Raise e
        | Some (Ok (var, tail)) =>
            if negb (bool_decide (var ∈ reservedNames)) then Ok (inr var, tail)
            else Ok OUTPUT_FAILURE
        end
  end.

(** [consumeInfix(input)] *)
Definition consumeInfix (self : QParser) (input_arg : string) : string * string :=
  let inputStr := inputStr_of self input_arg in
  let nMax :=
    foldl
      (fun nMax n =>
         if bool_decide ((split inputStr (Z.of_nat n)).1 ∈ infixOpsList)
         then n else nMax)
      0%nat (seq 1 (str_len inputStr)) in
  split inputStr (Z.of_nat nMax).

(** One turn of the [while] loop of [tokenize], on the state
    [(inputStr, tokenList)]. *)
Definition tokenize_body (self : QParser) (st : string * list Token)
  : res (loop (string * list Token)) :=
  let '(inputStr, tokenList) := st in
  match consumeSpace self inputStr with
  | None => Raise TypeError   (* unpacking None into a pair *)
  | Some (_, inputStr) =>
      if (str_len inputStr =? 0)%nat then Ok (Break (inputStr, tokenList))
      else
        '(number, tailNumber) ← consumeNumber self inputStr;
        '(constant, tailConstant) ← consumeConst self inputStr;
        let '(function, tailFunction) := consumeFunc self inputStr in
        '(variable, tailVariable) ← consumeVar self inputStr;
        let '(infix, tailInfix) := consumeInfix self inputStr in
        if negb (bool_decide (number = "")) then
          t ← Token_init number;
          Ok (Continue (tailNumber, tokenList ++ [t]))
        else if negb (bool_decide (constant = "")) then
          t ← Token_init constant;
          Ok (Continue (tailConstant, tokenList ++ [t]))
        else if negb (bool_decide (function = "")) then
          t ← Token_init function;
          b ← Token_init "(";
          Ok (Continue (tailFunction, (tokenList ++ [t]) ++ [b]))
        else if negb (bool_decide (variable = inr "")) then
          match variable with
          | inl _ => Raise AssertionError   (* Token(-1) *)
          | inr variable =>
              t ← Token_init variable;
              Ok (Continue (tailVariable, tokenList ++ [t]))
          end
        else if negb (bool_decide (infix = "")) then
          t ← Token_init infix;
          Ok (Continue (tailInfix, tokenList ++ [t]))
        else
          let '(head, tail) := pop inputStr in
          if bool_decide (head = "(") then
            t ← Token_init head; Ok (Continue (tail, tokenList ++ [t]))
          else if bool_decide (head = ")") then
            t ← Token_init head; Ok (Continue (tail, tokenList ++ [t]))
          else if bool_decide (head = ",") then
            t ← Token_init head; Ok (Continue (tail, tokenList ++ [t]))
          else Ok (Continue (inputStr, tokenList))
  end.

(** The [while (len(inputStr) > 0)] loop; [None] when the fuel runs out. *)
Fixpoint tokenize_loop (self : QParser) (fuel : nat) (st : string * list Token)
  : option (res (list Token)) :=
  if (0 <? str_len st.1)%nat then
    match fuel with
    | O => None
    | S fuel' =>
        match tokenize_body self st with
        | Raise e => Some (Raise e)
        | Ok (Break st') => Some (Ok st'.2)
        | Ok (Continue st') => tokenize_loop self fuel' st'
        end
    end
  else Some (Ok st.2).

(** [tokenize(input)] *)
Definition tokenize (self : QParser) (fuel : nat) (input_arg : string)
  : option (res (list Token)) :=
  tokenize_loop self fuel (inputStr_of self input_arg, []).

(** The pairs of types that the [match] of [expandMult] lists, as written. *)
Definition multCases : list (string * string) :=
  [ ("CONSTANT", "BRKT_OPEN");
    ("VAR", "BRKT_OPEN");
    ("VAR", "NUMBER");
    ("BRKT_CLOSE", "CONST");
    ("BRKT_CLOSE", "FUNCTION");
    ("BRKT_CLOSE", "VAR");
    ("BRKT_CLOSE", "BRKT_OPEN");
    ("BRKT_CLOSE", "NUMBER");
    ("NUMBER", "CONST");
    ("NUMBER", "FUNCTION");
    ("NUMBER", "VAR");
    ("NUMBER", "BRKT_OPEN") ].

(** One turn of the [for] loop of [expandMult]. *)
Definition expandMult_body (input_arg : list Token) (output : list Token) (n : nat)
  : res (list Token) :=
  match input_arg !! n, input_arg !! S n with
  | Some tokA, Some tokB =>
      let output := output ++ [tokA] in
      if bool_decide ((type tokA, type tokB) ∈ multCases) then
        star ← Token_init "*"; Ok (output ++ [star])
      else Ok output
  | _, _ => Raise IndexError
  end.

Fixpoint for_each {St : Type} (body : St -> nat -> res St) (st : St) (range : list nat)
  : res St :=
  match range with
  | [] => Ok st
  | n :: range' => st' ← body st n; for_each body st' range'
  end.

(** [expandMult(input)].  After the loop [n] is [nTokens-2] and [tokB] is the
    last token. *)
Definition expandMult (self : QParser) (input_arg : list Token) : res (list Token) :=
  let nTokens := length input_arg in
  if (nTokens <=? 1)%nat then Ok input_arg
  else
    output ← for_each (expandMult_body input_arg) [] (seq 0 (nTokens - 1));
    let n := (nTokens - 2)%nat in
    if (n =? nTokens - 2)%nat then
      match input_arg !! (nTokens - 1)%nat with
      | Some tokB => Ok (output ++ [tokB])
      | None => Raise IndexError
      end
    else Ok output.

(** ** Computations that may also run out of fuel *)

Definition fbind {A B : Type} (m : option (res A)) (k : A -> option (res B))
  : option (res B) :=
  match m with
  | None => None
  | Some (Raise e) => Some (Raise e)
  | Some (Ok a) => k a
  end.

Notation "x ⟵ m ; k" := (fbind m (fun x => k))
  (at level 20, m at level 100, k at level 200, right associativity, only parsing).
Notation "' p ⟵ m ; k" := (fbind m (fun x => match x with p => k end))
  (at level 20, p pattern, m at level 100, k at level 200,
   right associativity, only parsing).

(** [for x in l: ...] over a list, the body updating a state. *)
Fixpoint ffor {St A : Type} (body : St -> A -> option (res St)) (st : St) (l : list A)
  : option (res St) :=
  match l with
  | [] => Some (Ok st)
  | x :: l' => st' ⟵ body st x; ffor body st' l'
  end.

(** [for (n, x) in enumerate(l): ...] *)
Fixpoint for_enumerate {St A : Type} (body : St -> nat -> A -> res St)
    (st : St) (n : nat) (l : list A) : res St :=
  match l with
  | [] => Ok st
  | x :: l' => st' ← body st n x; for_enumerate body st' (S n) l'
  end.

(** [mapM f l]: [f] on every element, from left to right. *)
Definition mapM {A B : Type} (f : A -> res B) : list A -> res (list B) :=
  fix go (l : list A) : res (list B) :=
    match l with
    | [] => Ok []
    | x :: l' => y ← f x; ys ← go l'; Ok (y :: ys)
    end.

(** [l[i] = v] with Python's negative indices. *)
Definition py_setitem {A : Type} (l : list A) (i : Z) (v : A) : res (list A) :=
  let len := Z.of_nat (length l) in
  if (0 <=? i) && (i <? len) then Ok (<[Z.to_nat i := v]> l)
  else if (- len <=? i) && (i <? 0) then Ok (<[Z.to_nat (len + i) := v]> l)
  else Raise IndexError.

(** ** Nodes: the elements of a Binary's stack

    A stack holds tokens and Macroleaf objects.  A Binary is modelled by its
    stack; a Macroleaf by its function and the stacks of its arguments. *)
#[warnings="-register-all"]
Inductive node : Type :=
  | Leaf (t : Token)
  | Macro (function : string) (args : list (list node)).

(** [elt.type], [elt.name], [elt.priority] *)
Definition node_type (elt : node) : string :=
  match elt with
  | Leaf t => type t
  | Macro _ _ => "MACRO"
  end.

Definition node_name (elt : node) : string :=
  match elt with
  | Leaf t => name t
  | Macro function _ => function
  end.

Definition node_priority (elt : node) : Z :=
  match elt with
  | Leaf t => priority t
  | Macro _ _ => 0
  end.

Definition is_type (elt : node) (ty : string) : bool :=
  bool_decide (node_type elt = ty).

(** ** Building the stack *)

(** Modelled from the spec: the arity that the function registry declares.
    The registry of macroleaf.py is not among the sources; it is taken to be
    the table [FUNCTIONS] together with the unary negation [opp], which the
    spec lists among the functions. *)
Definition declaredArity (function : string) : option nat :=
  table_get None function ((fun f => (f.1, Some f.2)) <$> (FUNCTIONS ++ [("opp", 1%nat)])).

(** Modelled from the spec: whether the sub-build of one argument stopped at
    a comma.  A build that hands back a non-empty remainder stopped at the
    token just before that remainder, a comma or a closing bracket. *)
Definition stoppedAtComma (tokenList remainder : list node) : bool :=
  match remainder with
  | [] => false
  | _ :: _ =>
      match tokenList !! (length tokenList - length remainder - 1)%nat with
      | Some sep => is_type sep "COMMA"
      | None => false
      end
  end.

(** [Binary._buildStack(tokenList)] on a Binary whose stack is [stack]; the
    result is the stack and the remainder of the Binary when the call
    returns.  The remainder is [[]] when no branch assigns it.

    Modelled from the spec: [Macroleaf_init function tokenList] is the
    constructor of macroleaf.py, which is not among the sources, and
    [collectArgs] is its loop.  The arguments are produced by repeated
    sub-builds, separated by commas and ended by the closing bracket or the
    end of the tokens; the number of arguments must be the declared arity of
    the function, anything else is a construction error.  The result is the
    Macroleaf and its remainder. *)
Fixpoint buildStack (fuel : nat) (tokenList : list node) (stack : list node)
  {struct fuel} : option (res (list node * list node)) :=
  match fuel with
  | O => None
  | S fuel' =>
      match tokenList with
      | currToken :: ((_ :: _) as tail) =>
          if bool_decide (node_type currToken
                            ∈ ["CONSTANT"; "VAR"; "NUMBER"; "INFIX"; "MACRO"]) then
            buildStack fuel' tail (stack ++ [currToken])
          else if is_type currToken "FUNCTION" then
            let tailNoParenthesis := drop 1 tail in
            '(M, remainder) ⟵ Macroleaf_init fuel' (node_name currToken) tailNoParenthesis;
            buildStack fuel' remainder (stack ++ [M])
          else if is_type currToken "BRKT_OPEN" then
            '(M, remainder) ⟵ Macroleaf_init fuel' "id" tail;
            buildStack fuel' remainder (stack ++ [M])
          else if is_type currToken "COMMA" then Some (Ok (stack, tail))
          else if is_type currToken "BRKT_CLOSE" then Some (Ok (stack, tail))
          else Some (Ok (stack, []))
      | [currToken] =>
          if bool_decide (node_type currToken ∈ ["CONSTANT"; "VAR"; "NUMBER"; "MACRO"])
          then Some (Ok (stack ++ [currToken], []))
          else if is_type currToken "BRKT_CLOSE" then Some (Ok (stack, []))
          else Some (Ok (stack, []))
      | [] => Some (Ok (stack, []))
      end
  end
with Macroleaf_init (fuel : nat) (function : string) (tokenList : list node)
  {struct fuel} : option (res (node * list node)) :=
  match fuel with
  | O => None
  | S fuel' =>
      '(args, remainder) ⟵ collectArgs fuel' tokenList [];
      if bool_decide (declaredArity function = Some (length args))
      then Some (Ok (Macro function args, remainder))
      else Some (Raise ArityError)
  end
with collectArgs (fuel : nat) (tokenList : list node) (args : list (list node))
  {struct fuel} : option (res (list (list node) * list node)) :=
  match fuel with
  | O => None
  | S fuel' =>
      '(stack, remainder) ⟵ buildStack fuel' tokenList [];
      let args := args ++ [stack] in
      if stoppedAtComma tokenList remainder
      then collectArgs fuel' remainder args
      else Some (Ok (args, remainder))
  end.

(** ** Minus signs *)

(** STEP 1 of [_explicitZeros]: the zero token to put in front, if any. *)
Definition implicitZero (stack : list node) : res (list node) :=
  if (2 <=? length stack)%nat then
    match stack !! 0%nat with
    | Some first =>
        if is_type first "INFIX" then
          if bool_decide (node_name first = "-") then
            zero ← Token_init "0"; Ok [Leaf zero]
          else Ok []
        else Ok []
    | None => Raise IndexError
    end
  else Ok [].

(** [Binary._explicitZeros()] is [explicitZeros]; on one element of the
    stack, STEP 2 is [explicitZeros_elt].  The zero leaf that STEP 1 may add
    is not a macro and STEP 2 passes over it.

    Modelled from the spec: [_explicitZeros] of a Macroleaf, which is not
    among the sources, applies the pass to each of its arguments.  A token
    whose type is MACRO has no such method. *)
Fixpoint explicitZeros_elt (elt : node) : res node :=
  match elt with
  | Leaf t => if bool_decide (type t = "MACRO") then Raise AttributeError else Ok elt
  | Macro function args =>
      args' ← mapM (fun stack =>
                      zero ← implicitZero stack;
                      stack' ← mapM explicitZeros_elt stack;
                      Ok (zero ++ stack')) args;
      Ok (Macro function args')
  end.

Definition explicitZeros (stack : list node) : res (list node) :=
  zero ← implicitZero stack;
  stack' ← mapM explicitZeros_elt stack;
  Ok (zero ++ stack').

(** Modelled from the spec: a method of a Macroleaf, which is not among the
    sources, applies the method [pass] of Binary to each of its arguments, in
    place.  A token whose type is MACRO has no such method. *)
Definition in_macro_body (pass : list node -> option (res (list node)))
    (done : list (list node)) (stack : list node)
  : option (res (list (list node))) :=
  stack' ⟵ pass stack; Some (Ok (done ++ [stack'])).

Definition in_macro (pass : list node -> option (res (list node))) (elt : node)
  : option (res node) :=
  match elt with
  | Leaf t => Some (Raise AttributeError)
  | Macro function args =>
      args' ⟵ ffor (in_macro_body pass) [] args;
      Some (Ok (Macro function args'))
  end.

(** [for elt in self.stack: if (elt.type == "MACRO"): elt.pass()] *)
Definition for_macros_body (pass : list node -> option (res (list node)))
    (done : list node) (elt : node) : option (res (list node)) :=
  if is_type elt "MACRO" then
    elt' ⟵ in_macro pass elt; Some (Ok (done ++ [elt']))
  else Some (Ok (done ++ [elt])).

Definition for_macros (pass : list node -> option (res (list node)))
    (stack : list node) : option (res (list node)) :=
  ffor (for_macros_body pass) [] stack.

(** One turn of the [while] loop of [_minusAsOpp], on the state
    [(n, newStack)].  The second test repeats the first and its branch is
    never taken; it is kept as the source has it. *)
Definition minusAsOpp_body (fuel : nat) (stack : list node) (st : nat * list node)
  : option (res (loop (nat * list node))) :=
  let nElements := length stack in
  let '(n, newStack) := st in
  match stack !! n, stack !! S n with
  | Some eltA, Some eltB =>
      if is_type eltA "INFIX" && is_type eltB "INFIX" then
        if bool_decide (node_name eltA = "^") && bool_decide (node_name eltB = "-") then
          (* the guard prints an error and goes on *)
          match stack !! (n + 2)%nat with
          | None => Some (Raise IndexError)
          | Some operand =>
              '(M, _) ⟵ Macroleaf_init fuel "opp" [operand];
              Some (Ok (Continue ((n + 3)%nat, (newStack ++ [eltA]) ++ [M])))
          end
        else Some (Ok (Continue (n, newStack)))
      else if is_type eltA "INFIX" && is_type eltB "INFIX" then
        if bool_decide (node_type eltB = "-") then
          if (nElements - 1 <? n + 2)%nat then Some (Raise SystemExit)
          else
            match stack !! (n + 2)%nat with
            | None => Some (Raise IndexError)
            | Some operand =>
                '(M, _) ⟵ Macroleaf_init fuel "opp" [operand];
                Some (Ok (Continue ((n + 3)%nat, (newStack ++ [eltA]) ++ [M])))
            end
        else Some (Raise SystemExit)
      else if (n =? nElements - 2)%nat then
        Some (Ok (Continue ((n + 1)%nat, (newStack ++ [eltA]) ++ [eltB])))
      else Some (Ok (Continue ((n + 1)%nat, newStack ++ [eltA])))
  | _, _ => Some (Raise IndexError)
  end.

(** [while (n <= (nElements-2))] *)
Fixpoint minusAsOpp_loop (fuel : nat) (stack : list node) (st : nat * list node)
  : option (res (list node)) :=
  if (st.1 <=? length stack - 2)%nat then
    match fuel with
    | O => None
    | S fuel' =>
        r ⟵ minusAsOpp_body fuel' stack st;
        match r with
        | Continue st' => minusAsOpp_loop fuel' stack st'
        | Break st' => Some (Ok st'.2)
        end
    end
  else Some (Ok st.2).

(** [Binary._minusAsOpp()] *)
Fixpoint minusAsOpp (fuel : nat) (stack : list node) : option (res (list node)) :=
  match fuel with
  | O => None
  | S fuel' =>
      let nElements := length stack in
      if (4 <=? nElements)%nat then minusAsOpp_loop fuel' stack (0%nat, [])
      else for_macros (minusAsOpp fuel') stack
  end.

(** [Binary._balanceMinus()] *)
Definition balanceMinus (fuel : nat) (stack : list node) : option (res (list node)) :=
  stack ⟵ Some (explicitZeros stack);
  minusAsOpp fuel stack.

(** [Binary(tokenList)]: the stack and the remainder of the new object. *)
Definition Binary_init (fuel : nat) (tokenList : list node)
  : option (res (list node * list node)) :=
  if (1 <=? length tokenList)%nat then
    '(stack, remainder) ⟵ buildStack fuel tokenList [];
    stack ⟵ balanceMinus fuel stack;
    Some (Ok (stack, remainder))
  else Some (Ok ([], [])).

(** ** Folding by priority *)

(** One turn of the loop of CHECK 2 of [nest], on [nInfix]. *)
Definition nest_check_body (nInfix : nat) (n : nat) (element : node) : res nat :=
  if (n mod 2 =? 0)%nat then
    if negb (bool_decide (node_type element ∈ ["NUMBER"; "VAR"; "CONSTANT"; "MACRO"]))
    then Raise SystemExit
    else Ok nInfix
  else if negb (is_type element "INFIX") then Raise SystemExit
  else Ok (nInfix + 1)%nat.

(** CHECK 2 of [nest]: [exit()] unless leaves and infix operators alternate;
    the result is [nInfix]. *)
Definition nest_check (stack : list node) : res nat :=
  for_enumerate nest_check_body 0%nat 0%nat stack.

(** One turn of the loop of [_getPriorityRange]. *)
Definition getPriorityRange_body (range : Z * Z) (element : node) : Z * Z :=
  let '(minPriority, maxPriority) := range in
  if is_type element "INFIX" then
    let maxPriority :=
      if maxPriority <? node_priority element then node_priority element
      else maxPriority in
    let minPriority :=
      if node_priority element <? minPriority then node_priority element
      else minPriority in
    (minPriority, maxPriority)
  else (minPriority, maxPriority).

(** [Binary._getPriorityRange(elementList)] *)
Definition getPriorityRange (elementList : list node) : Z * Z :=
  foldl getPriorityRange_body (100, -1) elementList.

(** One turn of the loop of STEP 1 of [_splitOp]. *)
Definition splitOp_mark_body (priority : Z) (isTopElement : list bool) (n : nat)
    (element : node) : res (list bool) :=
  if is_type element "INFIX" then
    if priority <? node_priority element then Ok isTopElement
    else if node_priority element =? priority then
      isTopElement ← py_setitem isTopElement (Z.of_nat n - 1) true;
      isTopElement ← py_setitem isTopElement (Z.of_nat n) true;
      py_setitem isTopElement (Z.of_nat n + 1) true
    else Ok isTopElement
  else Ok isTopElement.

(** STEP 1 of [_splitOp]: the side array [isTopElement]. *)
Definition splitOp_mark (tokenList : list node) (priority : Z) : res (list bool) :=
  let nElements := length tokenList in
  for_enumerate (splitOp_mark_body priority)
    (replicate nElements false) 0%nat tokenList.

(** One turn of the loop of STEP 2 of [_splitOp], on the state
    [(tmp, chunksOut, chunkIsTop)]. *)
Definition splitOp_cut_body (nElements : nat) (isTopElement : list bool)
    (st : list node * list (list node) * list bool) (n : nat) (element : node)
  : res (list node * list (list node) * list bool) :=
  let '(tmp, chunksOut, chunkIsTop) := st in
  if (n =? 0)%nat then Ok ([element], chunksOut, chunkIsTop)
  else
    match isTopElement !! (n - 1)%nat, isTopElement !! n with
    | Some before, Some here =>
        if negb (bool_decide (before = here)) then
          if (n =? nElements - 1)%nat then
            Ok (tmp, (chunksOut ++ [tmp]) ++ [[element]],
                (chunkIsTop ++ [before]) ++ [here])
          else Ok ([element], chunksOut ++ [tmp], chunkIsTop ++ [before])
        else
          if (n =? nElements - 1)%nat then
            Ok (tmp ++ [element], chunksOut ++ [tmp ++ [element]],
                chunkIsTop ++ [here])
          else Ok (tmp ++ [element], chunksOut, chunkIsTop)
    | _, _ => Raise IndexError
    end.

(** STEP 2 of [_splitOp]. *)
Definition splitOp_cut (tokenList : list node) (isTopElement : list bool)
  : res (list node * list (list node) * list bool) :=
  for_enumerate (splitOp_cut_body (length tokenList) isTopElement)
    ([], [], []) 0%nat tokenList.

(** [Binary._splitOp(tokenList, priority)] *)
Definition splitOp (tokenList : list node) (priority : Z)
  : res (list (list node) * list bool) :=
  isTopElement ← splitOp_mark tokenList priority;
  '(_, chunksOut, chunkIsTop) ← splitOp_cut tokenList isTopElement;
  Ok (chunksOut, chunkIsTop).

(** One turn of the loop of STEP 3 of [nest]. *)
Definition nest_merge_body (fuel : nat) (chunks : list (list node))
    (chunkNeedsMacro : list bool) (newStack : list node) (i : nat)
  : option (res (list node)) :=
  match chunkNeedsMacro !! i, chunks !! i with
  | Some needsMacro, Some chunk =>
      if (needsMacro : bool) then
        '(M, _) ⟵ Macroleaf_init fuel "id" chunk;
        Some (Ok (newStack ++ [M]))
      else Some (Ok (newStack ++ chunk))
  | _, _ => Some (Raise IndexError)
  end.

(** STEP 3 of [nest]: the new stack, from the chunks. *)
Definition nest_merge (fuel : nat) (chunks : list (list node))
    (chunkNeedsMacro : list bool) : option (res (list node)) :=
  ffor (nest_merge_body fuel chunks chunkNeedsMacro) [] (seq 0 (length chunks)).

(** One turn of [while (maxPriority != minPriority)]: the new stack. *)
Definition nest_body (fuel : nat) (stack : list node) (maxPriority : Z)
  : option (res (list node)) :=
  '(chunks, chunkNeedsMacro) ⟵ Some (splitOp stack maxPriority);
  if (1 <? length chunks)%nat then nest_merge fuel chunks chunkNeedsMacro
  else Some (Ok stack).

Fixpoint nest_while (fuel : nat) (stack : list node) (range : Z * Z)
  : option (res (list node)) :=
  let '(minPriority, maxPriority) := range in
  if negb (maxPriority =? minPriority) then
    match fuel with
    | O => None
    | S fuel' =>
        stack ⟵ nest_body fuel' stack maxPriority;
        nest_while fuel' stack (getPriorityRange stack)
    end
  else Some (Ok stack).

(** [Binary.nest()] *)
Fixpoint nest (fuel : nat) (stack : list node) : option (res (list node)) :=
  match fuel with
  | O => None
  | S fuel' =>
      nInfix ⟵ Some (nest_check stack);
      stack ⟵ for_macros (nest fuel') stack;
      if (2 <=? nInfix)%nat then nest_while fuel' stack (getPriorityRange stack)
      else Some (Ok stack)
  end.

(** ** Evaluation *)

(** What a Python expression of the evaluator can be: a number or None. *)
Inductive pyvalue : Type :=
  | PyNone
  | PyNum (q : Q).

Section Evaluation.

(** Modelled from the spec: applying the function of a Macroleaf to the
    values of its arguments.  macroleaf.py is not among the sources and the
    spec leaves the semantics of each function to the function table. *)
Variable applyFunction : string -> list pyvalue -> res pyvalue.

(** [Binary.eval()] of a Binary whose leaves are evaluated by [evalLeaf].
    With more than one element the call of [_evalOp] passes three keyword
    arguments that [_evalOp(self, leaf)] does not have.  The value of the
    single leaf is bound to [output]; no return statement follows. *)
Definition eval_with (evalLeaf : node -> res pyvalue) (stack : list node)
  : res pyvalue :=
  let nElements := length stack in
  if (1 <? nElements)%nat then Raise TypeError
  else
    match stack with
    | [] => Raise IndexError
    | leaf :: _ => output ← evalLeaf leaf; Ok PyNone
    end.

(** [Binary._evalLeaf(leaf)].

    Modelled from the spec: [eval] of a Macroleaf evaluates each of its
    arguments and applies its function. *)
Fixpoint evalLeaf (leaf : node) : res pyvalue :=
  match leaf with
  | Leaf t =>
      if bool_decide (type t ∈ ["CONSTANT"; "NUMBER"]) then Ok (PyNum (value t))
      else if bool_decide (type t = "VARIABLE") then Ok PyNone
      else if bool_decide (type t = "MACRO") then Raise AttributeError
      else Ok PyNone
  | Macro function args =>
      values ← mapM (eval_with evalLeaf) args;
      applyFunction function values
  end.

Definition eval (stack : list node) : res pyvalue := eval_with evalLeaf stack.

End Evaluation.

(** ** Tokens and stacks used in the examples *)

Definition tok (ty nm : string) : Token := mkToken ty nm 0 0%Q.
Definition op (nm : string) (p : Z) : Token := mkToken "INFIX" nm p 0%Q.

Definition NUM (nm : string) : node := Leaf (tok "NUMBER" nm).
Definition VAR (nm : string) : node := Leaf (tok "VAR" nm).
Definition PLUS : node := Leaf (op "+" 1).
Definition MINUS : node := Leaf (op "-" 1).
Definition TIMES : node := Leaf (op "*" 2).
Definition POWER : node := Leaf (op "^" 3).

(** A parser object whose [input] attribute is empty. *)
Definition parser : QParser := mkQParser "" [].

(** ** Predicates used in the statements *)

(** The stack begins with an infix minus. *)
Definition beginsWithMinus (stack : list node) : Prop :=
  exists first rest,
    stack = first :: rest /\ node_type first = "INFIX" /\ node_name first = "-".

(** What [_explicitZeros] leaves of one node of the stack: a token is kept
    as it is; a macro keeps its function, and each of its arguments is the
    outcome of [_explicitZeros] on the argument it had. *)
Definition zerosInside (elt elt' : node) : Prop :=
  match elt with
  | Leaf _ => elt' = elt
  | Macro function args =>
      exists args',
        elt' = Macro function args'
        /\ Forall2 (fun arg arg' => explicitZeros arg = Ok arg') args args'
  end.

(** [result] is [stack] with nothing put in front: the nodes of [stack], one
    for one and in their order, each as [_explicitZeros] leaves it. *)
Definition stackKept (stack result : list node) : Prop :=
  Forall2 zerosInside stack result.

(** [result] is [stack] with a zero leaf put in front: the zero leaf, then
    the nodes of [stack], one for one and in their order, each as
    [_explicitZeros] leaves it. *)
Definition zeroPrepended (stack result : list node) : Prop :=
  exists rest, result = NUM "0" :: rest /\ stackKept stack rest.

(** The literal text of the tokens, one after the other. *)
Definition concatNames (tokens : list Token) : string :=
  foldr (fun t acc => name t +:+ acc) "" tokens.

(** [s] without its white spaces; the space is the only white space that the
    lexer knows (rule R9, [consumeSpace]). *)
Fixpoint removeSpaces (s : string) : string :=
  match s with
  | "" => ""
  | String c s' => if Ascii.eqb c " " then removeSpaces s' else String c (removeSpaces s')
  end.

(** The state that a turn of a loop hands on. *)
Definition loop_state {St : Type} (r : loop St) : St :=
  match r with
  | Continue s => s
  | Break s => s
  end.

(** What may follow an accepted constant: nothing, or a character that is
    neither a letter nor the underscore. *)
Definition endsConstant (tail : string) : Prop :=
  tail = ""
  \/ exists nextChar rest,
       tail = String nextChar rest
       /\ alphaChar nextChar = false /\ nextChar <> "_"%char.

(** All the characters of [s] are letters. *)
Definition letters (s : string) : bool :=
  forallb alphaChar (list_ascii_of_string s).

(** The first token of [tokens] exists and is not named [r]. *)
Definition headNot (r : string) (tokens : list Token) : Prop :=
  exists first rest, tokens = first :: rest /\ name first <> r.

(** ** Well-formed Binary objects *)

(** The two tests of CHECK 2 of [nest]. *)
Definition operand (elt : node) : bool :=
  bool_decide (node_type elt ∈ ["NUMBER"; "VAR"; "CONSTANT"; "MACRO"]).

Definition infix (elt : node) : bool := is_type elt "INFIX".

(** Odd length, (macro)leaves and infix operators in turn. *)
Fixpoint alternating (stack : list node) : bool :=
  match stack with
  | [] => false
  | [x] => operand x
  | x :: o :: rest => operand x && infix o && alternating rest
  end.

(** A node of a well-formed Binary: the priority of an infix token lies
    strictly between the two sentinels -1 and 100 of [_getPriorityRange], as
    the priorities of the registry do; no token has the type of a macro; the
    arguments of a macro are well-formed Binary objects. *)
Fixpoint wellFormedNode (elt : node) : bool :=
  match elt with
  | Leaf t =>
      negb (bool_decide (type t = "MACRO"))
      && (if bool_decide (type t = "INFIX")
          then (-1 <? priority t) && (priority t <? 100)
          else true)
  | Macro _ args =>
      forallb (fun stack => alternating stack && forallb wellFormedNode stack) args
  end.

Definition wellFormed (stack : list node) : bool :=
  alternating stack && forallb wellFormedNode stack.

(** All the infix operators of the stack have the same priority. *)
Definition uniformPriority (stack : list node) : Prop :=
  forall a b, a ∈ stack -> b ∈ stack -> infix a = true -> infix b = true ->
              node_priority a = node_priority b.

(** The priorities of the infix operators of the stack, and how many
    different ones there are. *)
Definition priorities (stack : list node) : list Z :=
  node_priority <$> filter (fun elt => infix elt = true) stack.

Definition priorityLevels (stack : list node) : nat :=
  length (remove_dups (priorities stack)).

(** ** One folding step, described on the structure of the stack *)

(** The operator has the priority that is being folded. *)
Definition top (p : Z) (o : node) : bool := node_priority o =? p.

(** The side array of [_splitOp] for [x :: o :: x' :: ...], [before] telling
    whether the operator in front of [x] has the priority [p]. *)
Fixpoint markAlt (p : Z) (before : bool) (stack : list node) : list bool :=
  match stack with
  | [] => []
  | [x] => [before]
  | x :: o :: rest => (before || top p o) :: top p o :: markAlt p (top p o) rest
  end.

(** The chunks of [_splitOp]: maximal runs of equal marks, [cur] being the
    run under construction and [flag] its mark. *)
Fixpoint group (cur : list node) (flag : bool) (l : list (node * bool))
  : list (list node * bool) :=
  match l with
  | [] => [(cur, flag)]
  | (x, b) :: l' =>
      if bool_decide (flag = b) then group (cur ++ [x]) flag l'
      else (cur, flag) :: group [x] b l'
  end.

(** What STEP 3 of [nest] puts in the new stack for one chunk. *)
Definition wrap (chunk : list node * bool) : list node :=
  if chunk.2 then [Macro "id" [chunk.1]] else chunk.1.

(** The new stack of one folding step, on [run] followed by the operators
    and operands of [rest]: [run] grows while the operators have the
    priority [p], and becomes a single node when one has not. *)
Definition wrapRun (run : list node) : list node :=
  match run with
  | [x] => [x]
  | _ => [Macro "id" [run]]
  end.

Fixpoint regroup (p : Z) (run : list node) (rest : list node) : list node :=
  match rest with
  | o :: x :: rest' =>
      if top p o then regroup p (run ++ [o; x]) rest'
      else wrapRun run ++ o :: regroup p [x] rest'
  | _ => wrapRun run
  end.

(** The operator that comes next, if any, has the priority [p]. *)
Definition nextTop (p : Z) (rest : list node) : bool :=
  match rest with
  | o :: _ => top p o
  | [] => false
  end.

(** The pair [(mn, mx)] is the range of the priorities [seen]: the two
    sentinels when there is none, the least and the greatest otherwise. *)
Definition rangeOf (seen : list Z) (range : Z * Z) : Prop :=
  (seen = [] /\ range = (100, -1))
  \/ (range.1 ∈ seen /\ range.2 ∈ seen
      /\ forall q, q ∈ seen -> range.1 <= q <= range.2).

(** The priorities lie strictly between the sentinels. *)
Definition bounded (seen : list Z) : Prop :=
  Forall (fun q => -1 < q < 100) seen.

(** Two nodes that the loops of [nest] cannot tell apart. *)
Definition sameShape (elt elt' : node) : Prop :=
  node_type elt = node_type elt' /\ node_priority elt = node_priority elt'.

(** With enough fuel [nest] returns a stack whose operators all have one
    priority. *)
Definition nestConverges (stack : list node) : Prop :=
  exists N, forall fuel, (N <= fuel)%nat ->
    exists result, nest fuel stack = Some (Ok result) /\ uniformPriority result.

(** The arguments of a macro are stacks on which [nest] converges; a token
    is not a macro. *)
Definition macroConverges (elt : node) : Prop :=
  match elt with
  | Leaf t => type t <> "MACRO"
  | Macro _ args => Forall nestConverges args
  end.

(** The stack of "a*b+c/d^e+f". *)
Definition DIVIDE : node := Leaf (op "/" 2).

Definition sampleStack : list node :=
  [VAR "a"; TIMES; VAR "b"; PLUS; VAR "c"; DIVIDE; VAR "d"; POWER; VAR "e";
   PLUS; VAR "f"].

(** The token list with a multiplication token between the two tokens of
    every pair that [expandMult] lists. *)
Fixpoint insertStars (tokens : list Token) : list Token :=
  match tokens with
  | tokA :: ((tokB :: _) as tl) =>
      tokA :: (if bool_decide ((type tokA, type tokB) ∈ multCases)
               then [op "*" 2] else [])
        ++ insertStars tl
  | _ => tokens
  end.

(** * The checks of the input string

    The three checks print a diagnosis when they fail; they answer the value
    that they return together with the lines that they print.  Characters
    are those of the Latin-1 range, as everywhere in this development. *)

(** [showInStr(inputStr, loc)]: the lines that it prints. *)
Definition showInStr (inputStr : string) (loc : Z) : list string :=
  if (0 <=? loc) && (loc <? Z.of_nat (str_len inputStr)) then
    let s := replicate (str_len inputStr) (" " : string) in
    let s := <[Z.to_nat loc := ("^" : string)]> s in
    [inputStr; String.concat "" s]
  else [inputStr].

(** The test that [sanityCheck] makes on one character. *)
Definition sanityCheck_test (infixOpsExt : list ascii) (char : ascii) : bool :=
  let alphaTest :=
    ((ord "a" <=? ord char)%nat && (ord char <=? ord "z")%nat)
    || ((ord "A" <=? ord char)%nat && (ord char <=? ord "Z")%nat) in
  let digitTest := (ord "0" <=? ord char)%nat && (ord char <=? ord "9")%nat in
  let infixTest := bool_decide (char ∈ infixOpsExt) in
  let othersTest := bool_decide (char ∈ [" "; "."; ","; "_"; "("; ")"]%char) in
  alphaTest || digitTest || infixTest || othersTest.

(** [for (loc, char) in enumerate(inputStr)] of [sanityCheck]. *)
Fixpoint sanityCheck_loop (inputStr : string) (infixOpsExt : list ascii) (loc : nat)
    (chars : string) : bool * list string :=
  match chars with
  | "" => (true, [])
  | String char chars' =>
      if negb (sanityCheck_test infixOpsExt char) then
        (false,
         showInStr inputStr (Z.of_nat loc)
           ++ ["[ERROR] this character is not supported by the parser."])
      else sanityCheck_loop inputStr infixOpsExt (S loc) chars'
  end.

(** [QParser.sanityCheck(input)] *)
Definition sanityCheck (self : QParser) (input_arg : string) : bool * list string :=
  let inputStr := inputStr_of self input_arg in
  let infixOpsExt :=
    foldl (fun ext t => ext ++ list_ascii_of_string t.1) [] INFIX_OPS in
  sanityCheck_loop inputStr infixOpsExt 0 inputStr.

(** [for (loc, char) in enumerate(inputStr)] of [bracketBalanceCheck]. *)
Fixpoint bracketBalanceCheck_loop (inputStr : string) (level : Z) (loc : nat)
    (chars : string) : bool * list string :=
  match chars with
  | "" => (true, [])
  | String char chars' =>
      let level :=
        if Ascii.eqb char "(" then level + 1
        else if Ascii.eqb char ")" then level - 1
        else level in
      if level <? 0 then
        (false,
         showInStr inputStr (Z.of_nat loc) ++ ["[ERROR] closing parenthesis in excess."])
      else bracketBalanceCheck_loop inputStr level (S loc) chars'
  end.

(** [QParser.bracketBalanceCheck(input)] *)
Definition bracketBalanceCheck (self : QParser) (input_arg : string)
  : bool * list string :=
  let inputStr := inputStr_of self input_arg in
  bracketBalanceCheck_loop inputStr 0 0 inputStr.

(** One turn of the loop of [firstOrderCheck]; [i] and [i+1] lie within the
    string. *)
Definition firstOrderCheck_body (inputStr : string) (i : nat)
  : option (bool * list string) :=
  match String.get i inputStr, String.get (i + 1) inputStr with
  | Some charA, Some charB =>
      if Ascii.eqb charA "." && Ascii.eqb charB "." then
        Some (false,
              showInStr inputStr (Z.of_nat i + 1)
                ++ ["[ERROR] cannot make sense of 2 consecutive dots. Is it a typo?"])
      else if Ascii.eqb charA "," && Ascii.eqb charB "," then
        Some (false,
              showInStr inputStr (Z.of_nat i + 1)
                ++ ["[ERROR] cannot make sense of 2 consecutive commas. Is it a typo?"])
      else if Ascii.eqb charA "," && Ascii.eqb charB ")" then
        Some (false,
              showInStr inputStr (Z.of_nat i + 1)
                ++ ["[ERROR] possible missing argument?"])
      else None
  | _, _ => None
  end.

(** [QParser.firstOrderCheck(input)] *)
Definition firstOrderCheck (self : QParser) (input_arg : string) : bool * list string :=
  let inputStr := inputStr_of self input_arg in
  default (true, [])
    (for_first (firstOrderCheck_body inputStr) (seq 0 (str_len inputStr - 1))).

(** [QParser.addVariable(input)]: the object after the call. *)
Definition addVariable (self : QParser) (input_arg : string) : QParser :=
  if (0 <? str_len input_arg)%nat then
    if negb (bool_decide (input_arg ∈ variables self)) then
      mkQParser (input self) (variables self ++ [input_arg])
    else self
  else self.

(** ** Predicates on strings used in the statements *)

(** Every character of [s] passes the test [P]. *)
Definition allChars (P : ascii -> bool) (s : string) : bool :=
  forallb P (list_ascii_of_string s).

(** How many times the character [c] occurs in [s]. *)
Fixpoint countChar (c : ascii) (s : string) : nat :=
  match s with
  | "" => 0
  | String c' s' => (if Ascii.eqb c' c then 1 else 0) + countChar c s'
  end.

(** [s] begins with the character [c]. *)
Definition startsWith (P : ascii -> bool) (s : string) : bool :=
  match s with
  | "" => false
  | String c _ => P c
  end.

(** The character is a digit or the dot. *)
Definition numberChar (c : ascii) : bool := digitChar c || Ascii.eqb c ".".

(** The character is a letter, a digit or the underscore. *)
Definition nameChar (c : ascii) : bool :=
  alphaChar c || digitChar c || Ascii.eqb c "_".

(** The character is the space. *)
Definition spaceChar (c : ascii) : bool := Ascii.eqb c " ".

(** The characters that [sanityCheck] lets through: the letters, the digits,
    the characters of the infix operators and six others. *)
Definition supportedChar (c : ascii) : bool :=
  alphaChar c || digitChar c
  || bool_decide (c ∈ ["+"; "-"; "*"; "/"; "^"; " "; "."; ","; "_"; "("; ")"]%char).

(** [n] spaces. *)
Fixpoint spaces (n : nat) : string :=
  match n with
  | O => ""
  | S n' => String " " (spaces n')
  end.

(** The two-character sequences that [firstOrderCheck] refuses. *)
Definition refusedPairs : list string := [".."; ",,"; ",)"].

(** The opening brackets of [s] less its closing brackets. *)
Definition depth (s : string) : Z :=
  Z.of_nat (countChar "(" s) - Z.of_nat (countChar ")" s).

(** The last character of [s], if any. *)
Fixpoint lastChar (s : string) : option ascii :=
  match s with
  | "" => None
  | String c "" => Some c
  | String _ s' => lastChar s'
  end.

(** Every token of type FUNCTION is followed at once by an opening bracket. *)
Fixpoint functionsCalled (tokens : list Token) : bool :=
  match tokens with
  | [] => true
  | t :: rest =>
      (if bool_decide (type t = "FUNCTION")
       then match rest with
            | b :: _ => bool_decide (type b = "BRKT_OPEN")
            | [] => false
            end
       else true)
      && functionsCalled rest
  end.

(** The types of the elements that [_buildStack] copies to the stack. *)
Definition plain (elt : node) : bool :=
  bool_decide (node_type elt ∈ ["CONSTANT"; "VAR"; "NUMBER"; "INFIX"; "MACRO"]).

(** No two infix operators stand side by side. *)
Fixpoint noAdjacentInfix (stack : list node) : bool :=
  match stack with
  | a :: ((b :: _) as tl) => negb (infix a && infix b) && noAdjacentInfix tl
  | _ => true
  end.

(** Neighbouring flags differ. *)
Fixpoint flagsAlternate (flags : list bool) : bool :=
  match flags with
  | a :: ((b :: _) as tl) => negb (Bool.eqb a b) && flagsAlternate tl
  | _ => true
  end.

(** The element is a token, not a Macroleaf. *)
Definition isLeaf (elt : node) : bool :=
  match elt with
  | Leaf _ => true
  | Macro _ _ => false
  end.
(** * Properties *)

(** ** Claim C10: split and pop are exact decompositions *)

Lemma str_take_drop (n : nat) (s : string) : str_take n s +:+ str_drop n s = s.
Proof.
  revert s; induction n as [|n IH]; intros [|c s]; try reflexivity.
  change (String c (str_take n s +:+ str_drop n s) = String c s).
  f_equal; apply IH.
Qed.

Lemma str_take_all (n : nat) (s : string) :
  (str_len s <= n)%nat -> str_take n s = s.
Proof.
  revert s; induction n as [|n IH]; intros [|c s]; simpl; intros Hn;
    try reflexivity; try lia.
  rewrite IH; [reflexivity | lia].
Qed.

Lemma str_app_empty_r (s : string) : s +:+ "" = s.
Proof.
  induction s as [|c s IH]; [reflexivity |].
  change (String c (s +:+ "") = String c s); f_equal; apply IH.
Qed.

Lemma split_concat (s : string) (n : Z) : (split s n).1 +:+ (split s n).2 = s.
Proof.
  unfold split. case_bool_decide as Hs; [by subst |].
  destruct (Z.ltb_spec (Z.of_nat (str_len s)) n); simpl.
  - apply str_app_empty_r.
  - destruct (Z.leb_spec n 0); simpl; [reflexivity | apply str_take_drop].
Qed.

Lemma split_nonpositive (s : string) (n : Z) : n <= 0 -> (split s n).1 = "".
Proof.
  intros Hn. unfold split. case_bool_decide; [reflexivity |].
  destruct (Z.ltb_spec (Z.of_nat (str_len s)) n); simpl.
  - destruct s; [done | simpl in *; lia].
  - destruct (Z.leb_spec n 0); simpl; [reflexivity | lia].
Qed.

Lemma split_beyond (s : string) (n : Z) :
  Z.of_nat (str_len s) <= n -> (split s n).1 = s.
Proof.
  intros Hn. unfold split. case_bool_decide as Hs; [by subst |].
  destruct (Z.ltb_spec (Z.of_nat (str_len s)) n); simpl; [reflexivity |].
  destruct (Z.leb_spec n 0); simpl.
  - destruct s; [done | simpl in *; lia].
  - apply str_take_all; lia.
Qed.

Lemma pop_first_rest (s : string) : pop s = (str_take 1 s, str_drop 1 s).
Proof. destruct s as [|c [|d s]]; reflexivity. Qed.

(** C10. For every string [s] and integer [n], [split s n] is a pair whose
    concatenation is [s], whose head is empty when [n <= 0] and is [s] when
    [n >= len(s)]; [pop s] is the first character of [s] and the rest of [s],
    their concatenation is [s], and both are empty for the empty string. *)
Theorem split_pop_exact (s : string) (n : Z) :
  ((split s n).1 +:+ (split s n).2 = s
   /\ (n <= 0 -> (split s n).1 = "")
   /\ (Z.of_nat (str_len s) <= n -> (split s n).1 = s))
  /\ (pop s = (str_take 1 s, str_drop 1 s)
      /\ (pop s).1 +:+ (pop s).2 = s
      /\ pop "" = ("", "")).
Proof.
  split; [split; [apply split_concat | split] | split; [| split]].
  - apply split_nonpositive.
  - apply split_beyond.
  - apply pop_first_rest.
  - rewrite pop_first_rest; apply (str_take_drop 1).
  - reflexivity.
Qed.

Lemma split_pop_exact_witness :
  split "pouet" 2 = ("po", "uet") /\ split "pouet" (-1) = ("", "pouet")
  /\ split "pouet" 100 = ("pouet", "") /\ pop "abcde" = ("a", "bcde")
  /\ ((split "pouet" (-1)).1 = "" /\ (split "pouet" 100).1 = "pouet").
Proof.
  do 4 (split; [reflexivity |]).
  split.
  - apply (split_pop_exact "pouet" (-1)); vm_compute; discriminate.
  - apply (split_pop_exact "pouet" 100); vm_compute; discriminate.
Defined.

(** ** Claim C1: the multiplication expander *)

Lemma Token_init_star : Token_init "*" = Ok (op "*" 2).
Proof. reflexivity. Qed.

(** The pairs (")", constant) and (number, constant) are not among the cases
    of the [match]: it spells the type of a constant "CONST". *)
Lemma expandMult_before_constant (self : QParser) (a b : Token) :
  type b = "CONSTANT" -> expandMult self [a; b] = Ok [a; b].
Proof.
  intros Hb. unfold expandMult, expandMult_body; simpl.
  rewrite Hb. case_bool_decide as Hin; [| reflexivity].
  exfalso. unfold multCases in Hin.
  repeat (apply elem_of_cons in Hin as [Hin | Hin]; [discriminate Hin |]).
  by apply elem_of_nil in Hin.
Qed.

Lemma app_cons_shift {A : Type} (l1 : list A) (x : A) (l2 : list A) :
  l1 ++ x :: l2 = (l1 ++ [x]) ++ l2.
Proof. by rewrite <- app_assoc. Qed.

Lemma for_each_cons {St : Type} (body : St -> nat -> res St) (st : St) (n : nat)
    (range : list nat) :
  for_each body st (n :: range) = (st' ← body st n; for_each body st' range).
Proof. reflexivity. Qed.

Lemma expandMult_body_eq (input_arg output : list Token) (n : nat) (tokA tokB : Token) :
  input_arg !! n = Some tokA -> input_arg !! S n = Some tokB ->
  expandMult_body input_arg output n
  = Ok ((output ++ [tokA])
          ++ (if bool_decide ((type tokA, type tokB) ∈ multCases)
              then [op "*" 2] else [])).
Proof.
  intros HA HB. unfold expandMult_body. rewrite HA, HB.
  case_bool_decide; [reflexivity | by rewrite app_nil_r].
Qed.

(** The loop of [expandMult] copies every token but the last, with a
    multiplication token after it where the pair is listed. *)
Lemma expandMult_loop (rest : list Token) :
  forall (tokA : Token) (prefix output : list Token),
    exists front tokB,
      for_each (expandMult_body (prefix ++ tokA :: rest)) output
        (seq (length prefix) (length rest))
      = Ok (output ++ front)
      /\ (prefix ++ tokA :: rest) !! (length prefix + length rest)%nat = Some tokB
      /\ front ++ [tokB] = insertStars (tokA :: rest).
Proof.
  induction rest as [|tokB rest IH]; intros tokA prefix output.
  - exists [], tokA. cbn [length seq for_each]. rewrite app_nil_r.
    split; [done |]. split; [| done].
    rewrite Nat.add_0_r. by rewrite list_lookup_middle.
  - cbn [length seq]. rewrite for_each_cons.
    rewrite (expandMult_body_eq _ _ _ tokA tokB).
    2:{ by rewrite list_lookup_middle. }
    2:{ rewrite (app_cons_shift prefix tokA).
        rewrite list_lookup_middle; [done |]. rewrite length_app. simpl. lia. }
    cbn [mbind res_bind].
    destruct (IH tokB (prefix ++ [tokA])
                ((output ++ [tokA])
                   ++ (if bool_decide ((type tokA, type tokB) ∈ multCases)
                       then [op "*" 2] else [])))
      as (front & last & Hloop & Hlast & Hfront).
    rewrite <- app_assoc in Hloop, Hlast. cbn [app] in Hloop, Hlast.
    rewrite length_app in Hloop, Hlast. cbn [length] in Hloop, Hlast.
    replace (length prefix + 1)%nat with (S (length prefix)) in Hloop, Hlast by lia.
    exists ([tokA] ++ (if bool_decide ((type tokA, type tokB) ∈ multCases)
                       then [op "*" 2] else []) ++ front), last.
    split; [| split].
    + rewrite Hloop. by rewrite <- !app_assoc.
    + rewrite <- Hlast. f_equal. lia.
    + change (insertStars (tokA :: tokB :: rest))
        with (tokA :: (if bool_decide ((type tokA, type tokB) ∈ multCases)
                       then [op "*" 2] else [])
                ++ insertStars (tokB :: rest)).
      rewrite <- Hfront. by rewrite <- !app_assoc.
Qed.

(** What [expandMult] returns, for every token list. *)
Lemma expandMult_inserts (self : QParser) (tokens : list Token) :
  expandMult self tokens = Ok (insertStars tokens).
Proof.
  unfold expandMult. destruct tokens as [|tokA [|tokB rest]]; [done.. |].
  destruct (Nat.leb_spec (length (tokA :: tokB :: rest)) 1) as [Hle | _];
    [simpl in Hle; lia |].
  destruct (expandMult_loop (tokB :: rest) tokA [] [])
    as (front & last & Hloop & Hlast & Hfront).
  cbn [length app] in Hloop, Hlast |- *.
  replace (S (S (length rest)) - 1)%nat with (S (length rest)) by lia.
  rewrite Hloop. cbn [mbind res_bind app].
  rewrite Nat.eqb_refl.
  replace (S (length rest)) with (0 + S (length rest))%nat at 1 by lia.
  rewrite Hlast. by rewrite Hfront.
Qed.

(** C1 (divergence). The tokens of "2pi" and of ")pi" come out of
    [expandMult] as they went in: no multiplication token is inserted between
    a number and a constant, nor between ")" and a constant. *)
Theorem expandMult_misses_constant :
  tokenize parser 10 "2pi" = Some (Ok [tok "NUMBER" "2"; mkToken "CONSTANT" "pi" 0 (314159265358979 # 100000000000000)])
  /\ expandMult parser [tok "NUMBER" "2"; mkToken "CONSTANT" "pi" 0 (314159265358979 # 100000000000000)]
     = Ok [tok "NUMBER" "2"; mkToken "CONSTANT" "pi" 0 (314159265358979 # 100000000000000)]
  /\ expandMult parser [tok "BRKT_CLOSE" ")"; mkToken "CONSTANT" "pi" 0 (314159265358979 # 100000000000000)]
     = Ok [tok "BRKT_CLOSE" ")"; mkToken "CONSTANT" "pi" 0 (314159265358979 # 100000000000000)]
  /\ expandMult parser [tok "NUMBER" "2"; tok "VAR" "x"]
     = Ok [tok "NUMBER" "2"; op "*" 2; tok "VAR" "x"].
Proof. repeat split; vm_compute; reflexivity. Qed.

(** ** Claim C9: the loop of tokenize *)

(** A state that a turn of the loop leaves as it is: the loop never ends. *)
Lemma tokenize_loop_stuck (self : QParser) (st : string * list Token) :
  (0 < str_len st.1)%nat ->
  tokenize_body self st = Ok (Continue st) ->
  forall fuel, tokenize_loop self fuel st = None.
Proof.
  intros Hlen Hbody fuel. induction fuel as [|fuel IH]; simpl.
  - destruct (Nat.ltb_spec 0 (str_len st.1)); [reflexivity | lia].
  - destruct (Nat.ltb_spec 0 (str_len st.1)); [| lia].
    by rewrite Hbody.
Qed.

(** C9 (divergence). On the input "." no rule matches and no branch of the
    loop consumes a character: whatever the fuel, [tokenize] has not
    returned.  The same holds for ".5" and for the reserved word "sin". *)
Theorem tokenize_never_returns (self : QParser) (fuel : nat) :
  tokenize self fuel "." = None
  /\ tokenize self fuel ".5" = None
  /\ tokenize self fuel "sin" = None.
Proof.
  repeat split; apply tokenize_loop_stuck; solve [simpl; lia | reflexivity].
Qed.

(** ** Claim C2: an infix operator other than the power, then a minus *)

Lemma minusAsOpp_loop_stuck (stack : list node) (st : nat * list node) :
  (st.1 <= length stack - 2)%nat ->
  (forall fuel, minusAsOpp_body fuel stack st = Some (Ok (Continue st))) ->
  forall fuel, minusAsOpp_loop fuel stack st = None.
Proof.
  intros Hn Hbody fuel. induction fuel as [|fuel IH]; simpl.
  - destruct (Nat.leb_spec st.1 (length stack - 2)); [reflexivity | lia].
  - destruct (Nat.leb_spec st.1 (length stack - 2)); [| lia].
    by rewrite Hbody.
Qed.

(** Two infix operators in a row that are not "^" then "-": the turn of the
    loop changes nothing. *)
Lemma minusAsOpp_body_idle (fuel : nat) (stack : list node) (n : nat)
    (newStack : list node) (eltA eltB : node) :
  stack !! n = Some eltA -> stack !! S n = Some eltB ->
  node_type eltA = "INFIX" -> node_type eltB = "INFIX" ->
  node_name eltA <> "^" \/ node_name eltB <> "-" ->
  minusAsOpp_body fuel stack (n, newStack) = Some (Ok (Continue (n, newStack))).
Proof.
  intros HA HB HtA HtB Hname. unfold minusAsOpp_body. rewrite HA, HB.
  unfold is_type. rewrite !bool_decide_eq_true_2 by done. simpl.
  destruct Hname as [Hne | Hne].
  - by rewrite (bool_decide_eq_false_2 _ Hne).
  - rewrite (bool_decide_eq_false_2 _ Hne). by rewrite andb_false_r.
Qed.

(** C2 (divergence). The stack of "1*-4" is [1, *, -, 4]; the loop of
    [_minusAsOpp] reaches n = 1 with [1] in the new stack and stays there:
    whatever the fuel, neither [_minusAsOpp] nor the construction of the
    Binary has returned. *)
Theorem minusAsOpp_times_minus_never_returns (fuel : nat) :
  tokenize parser 10 "1*-4"
    = Some (Ok [tok "NUMBER" "1"; op "*" 2; op "-" 1; tok "NUMBER" "4"])
  /\ buildStack 10 [NUM "1"; TIMES; MINUS; NUM "4"] []
    = Some (Ok ([NUM "1"; TIMES; MINUS; NUM "4"], []))
  /\ minusAsOpp_body fuel [NUM "1"; TIMES; MINUS; NUM "4"] (1%nat, [NUM "1"])
    = Some (Ok (Continue (1%nat, [NUM "1"])))
  /\ minusAsOpp fuel [NUM "1"; TIMES; MINUS; NUM "4"] = None
  /\ Binary_init fuel [NUM "1"; TIMES; MINUS; NUM "4"] = None.
Proof.
  assert (Hloop : forall f, minusAsOpp_loop f [NUM "1"; TIMES; MINUS; NUM "4"]
                              (1%nat, [NUM "1"]) = None).
  { apply minusAsOpp_loop_stuck; [simpl; lia |].
    intros f. eapply minusAsOpp_body_idle; try reflexivity. by left. }
  assert (Hopp : forall f, minusAsOpp f [NUM "1"; TIMES; MINUS; NUM "4"] = None).
  { intros [|[|f]]; try reflexivity. simpl. apply Hloop. }
  split; [reflexivity | split; [reflexivity | split]].
  - eapply minusAsOpp_body_idle; try reflexivity. by left.
  - split; [apply Hopp |].
    destruct fuel as [|[|[|[|[|f]]]]]; try reflexivity.
    unfold Binary_init, balanceMinus. simpl length. simpl Nat.leb.
    change (buildStack (S (S (S (S (S f))))) [NUM "1"; TIMES; MINUS; NUM "4"] [])
      with (Some (Ok ([NUM "1"; TIMES; MINUS; NUM "4"], @nil node))).
    assert (Hz : explicitZeros [NUM "1"; TIMES; MINUS; NUM "4"]
                 = Ok [NUM "1"; TIMES; MINUS; NUM "4"]) by reflexivity.
    unfold fbind at 1. rewrite Hz. unfold fbind. by rewrite Hopp.
Qed.

(** ** Claim C6: the passes and the arguments of the macros *)

(** C6 (divergence). On a stack of five nodes whose last operand is the macro
    of "(2^-4)", [_minusAsOpp] returns the stack as it was: the argument
    [2, ^, -, 4] of the macro still has its minus as a separate operator.  On
    a stack of three nodes the same macro is rewritten.  The Binary built
    from the tokens of "a+b+(2^-4)" is the first of the two. *)
Theorem minusAsOpp_skips_macros_of_long_stacks :
  minusAsOpp 10
      [VAR "a"; PLUS; VAR "b"; PLUS; Macro "id" [[NUM "2"; POWER; MINUS; NUM "4"]]]
    = Some (Ok [VAR "a"; PLUS; VAR "b"; PLUS;
                Macro "id" [[NUM "2"; POWER; MINUS; NUM "4"]]])
  /\ minusAsOpp 10 [VAR "b"; PLUS; Macro "id" [[NUM "2"; POWER; MINUS; NUM "4"]]]
    = Some (Ok [VAR "b"; PLUS;
                Macro "id" [[NUM "2"; POWER; Macro "opp" [[NUM "4"]]]]])
  /\ (exists tokens,
        tokenize parser 20 "a+b+(2^-4)" = Some (Ok tokens)
        /\ Binary_init 20 (Leaf <$> tokens)
           = Some (Ok ([VAR "a"; PLUS; VAR "b"; PLUS;
                        Macro "id" [[NUM "2"; POWER; MINUS; NUM "4"]]], []))).
Proof.
  split; [vm_compute; reflexivity | split; [vm_compute; reflexivity |]].
  eexists; split; [vm_compute; reflexivity |].
  vm_compute; reflexivity.
Qed.

(** ** Claim C8: evaluation of a single operand *)

(** Whatever the single leaf is worth, [eval] returns None when it returns. *)
Lemma eval_returns_None (applyFunction : string -> list pyvalue -> res pyvalue)
    (stack : list node) (v : pyvalue) :
  eval applyFunction stack = Ok v -> v = PyNone.
Proof.
  unfold eval, eval_with. destruct (1 <? length stack)%nat; [discriminate |].
  destruct stack as [|leaf stack]; [discriminate |].
  destruct (evalLeaf applyFunction leaf); simpl; [| discriminate].
  by intros [= <-].
Qed.

(** C8 (divergence). The Binary whose stack is the single number leaf "2",
    of value 2, evaluates to None and not to 2, although [_evalLeaf] gives
    the value of the leaf; a variable leaf (type VAR) makes [_evalLeaf]
    itself give None. *)
Theorem eval_single_operand_is_None
    (applyFunction : string -> list pyvalue -> res pyvalue) :
  evalLeaf applyFunction (Leaf (mkToken "NUMBER" "2" 0 2%Q)) = Ok (PyNum 2%Q)
  /\ eval applyFunction [Leaf (mkToken "NUMBER" "2" 0 2%Q)] = Ok PyNone
  /\ evalLeaf applyFunction (VAR "x") = Ok PyNone.
Proof. repeat split. Qed.

(** ** Claim C4: balancing the minus signs *)

Lemma mapM_length {A B : Type} (f : A -> res B) (l : list A) (l' : list B) :
  mapM f l = Ok l' -> length l' = length l.
Proof.
  revert l'; induction l as [|x l IH]; intros l'; simpl.
  - by intros [= <-].
  - destruct (f x) as [y|]; simpl; [| discriminate].
    destruct (mapM f l) as [ys|]; simpl; [| discriminate].
    intros [= <-]. simpl. f_equal. by apply IH.
Qed.

(** STEP 1 answers the zero leaf exactly for a stack of two nodes or more
    that begins with an infix minus, and nothing otherwise. *)
Lemma implicitZero_cases (stack : list node) :
  ((2 <= length stack)%nat /\ beginsWithMinus stack
   /\ implicitZero stack = Ok [NUM "0"])
  \/ (~ ((2 <= length stack)%nat /\ beginsWithMinus stack)
      /\ implicitZero stack = Ok []).
Proof.
  unfold implicitZero, beginsWithMinus, is_type.
  destruct (Nat.leb_spec 2 (length stack)) as [Hlen | Hlen]; [| right; split; [lia | done]].
  destruct stack as [|first rest]; [simpl in *; lia |]. simpl.
  case_bool_decide as Hty; [| right; split; [| done]].
  - case_bool_decide as Hnm; [| right; split; [| done]].
    + left. split; [done |]. split; [by exists first, rest | done].
    + intros [_ (f & r & [= <- <-] & _ & Hnm')]. done.
  - intros [_ (f & r & [= <- <-] & Hty' & _)]. done.
Qed.

(** C4 (as claimed, refuted). The stack that holds the single infix minus
    begins with an infix minus, and [_explicitZeros] prepends nothing to it.
    Such a stack is the argument of the macro built for "(-)". *)
Lemma explicitZeros_lone_minus :
  beginsWithMinus [MINUS]
  /\ explicitZeros [MINUS] = Ok [MINUS]
  /\ ~ zeroPrepended [MINUS] [MINUS]
  /\ buildStack 10 [Leaf (tok "BRKT_OPEN" "("); MINUS; Leaf (tok "BRKT_CLOSE" ")")] []
     = Some (Ok ([Macro "id" [[MINUS]]], [])).
Proof.
  split; [by exists MINUS, [] |]. split; [reflexivity |].
  split; [| reflexivity].
  intros (rest & Heq & _). discriminate Heq.
Qed.

Lemma mapM_Forall2 {A B : Type} (f : A -> res B) (l : list A) (l' : list B) :
  mapM f l = Ok l' -> Forall2 (fun x y => f x = Ok y) l l'.
Proof.
  revert l'. induction l as [|x l IH]; intros l'; [by intros [= <-]; constructor |].
  cbn [mapM]. fold (mapM f).
  destruct (f x) as [y|] eqn:Hx; [| discriminate].
  destruct (mapM f l) as [ys|]; [| discriminate].
  intros [= <-]. constructor; [done | by apply IH].
Qed.

Lemma explicitZeros_elt_inside (elt elt' : node) :
  explicitZeros_elt elt = Ok elt' -> zerosInside elt elt'.
Proof.
  destruct elt as [t | function args]; cbn [explicitZeros_elt zerosInside].
  - by case_bool_decide; [| intros [= <-]].
  - destruct (mapM _ args) as [args'|] eqn:Hargs; [| discriminate].
    intros [= <-]. exists args'. split; [done |].
    exact (mapM_Forall2 _ _ _ Hargs).
Qed.

Lemma explicitZeros_kept (stack stack' : list node) :
  mapM explicitZeros_elt stack = Ok stack' -> stackKept stack stack'.
Proof.
  intros H%mapM_Forall2. unfold stackKept.
  eapply Forall2_impl; [exact H |]. apply explicitZeros_elt_inside.
Qed.

(** C4 (amended). The Binary built from the tokens of "-x" is the chain
    0, '-', x; the Binary built from the tokens of "2^-4" is
    2, '^', opp(4); and whenever [_explicitZeros] returns, its result is the
    zero leaf followed by the nodes of the stack, in their order, exactly
    when the stack has at least two nodes and begins with an infix minus;
    in every other case its result is the nodes of the stack, in their
    order, and nothing else.  In both cases a token is kept as it is and a
    macro has had the same pass applied to each of its arguments. *)
Theorem minus_balancing (stack result : list node) :
  explicitZeros stack = Ok result ->
  (tokenize parser 10 "-x" = Some (Ok [op "-" 1; tok "VAR" "x"])
   /\ Binary_init 10 (Leaf <$> [op "-" 1; tok "VAR" "x"])
      = Some (Ok ([NUM "0"; MINUS; VAR "x"], [])))
  /\ (tokenize parser 10 "2^-4"
        = Some (Ok [tok "NUMBER" "2"; op "^" 3; op "-" 1; tok "NUMBER" "4"])
      /\ Binary_init 10 (Leaf <$> [tok "NUMBER" "2"; op "^" 3; op "-" 1; tok "NUMBER" "4"])
         = Some (Ok ([NUM "2"; POWER; Macro "opp" [[NUM "4"]]], [])))
  /\ (zeroPrepended stack result
      <-> (2 <= length stack)%nat /\ beginsWithMinus stack)
  /\ (~ ((2 <= length stack)%nat /\ beginsWithMinus stack)
      -> stackKept stack result).
Proof.
  intros Hres.
  split; [split; vm_compute; reflexivity |].
  split; [split; vm_compute; reflexivity |].
  unfold explicitZeros in Hres.
  destruct (mapM explicitZeros_elt stack) as [stack'|] eqn:Hmap.
  2:{ destruct (implicitZero stack); discriminate Hres. }
  apply explicitZeros_kept in Hmap.
  destruct (implicitZero_cases stack) as [(Hlen & Hminus & Hz) | (Hnot & Hz)];
    rewrite Hz in Hres; simpl in Hres; injection Hres as <-.
  - assert (Hzero : zeroPrepended stack (NUM "0" :: stack')) by by exists stack'.
    split; [| by intros Hnot; destruct Hnot]. split; [done | by intros _].
  - split; [| by intros _]. split; [| done]. intros (rest & Heq & Hkept).
    apply Forall2_length in Hmap, Hkept.
    apply (f_equal length) in Heq. simpl in Heq. lia.
Qed.

Lemma minus_balancing_witness :
  zeroPrepended [MINUS; VAR "x"] [NUM "0"; MINUS; VAR "x"]
  <-> (2 <= length [MINUS; VAR "x"])%nat /\ beginsWithMinus [MINUS; VAR "x"].
Proof.
  destruct (minus_balancing [MINUS; VAR "x"] [NUM "0"; MINUS; VAR "x"])
    as (_ & _ & Hiff & _); [reflexivity |].
  exact Hiff.
Defined.

(** ** Strings and loops: auxiliary facts *)

Lemma str_app_assoc (a b c : string) : (a +:+ b) +:+ c = a +:+ (b +:+ c).
Proof.
  induction a as [|x a IH]; [reflexivity |].
  change (String x ((a +:+ b) +:+ c) = String x (a +:+ (b +:+ c))).
  by rewrite IH.
Qed.

Lemma str_app_cons (x : ascii) (a b : string) :
  String x a +:+ b = String x (a +:+ b).
Proof. reflexivity. Qed.

Lemma str_len_app (a b : string) : str_len (a +:+ b) = (str_len a + str_len b)%nat.
Proof.
  induction a as [|x a IH]; [reflexivity |].
  rewrite str_app_cons. unfold str_len in *. simpl. by rewrite IH.
Qed.

Lemma str_len_0 (s : string) : str_len s = 0%nat -> s = "".
Proof. by destruct s. Qed.

Lemma removeSpaces_app (a b : string) :
  removeSpaces (a +:+ b) = removeSpaces a +:+ removeSpaces b.
Proof.
  induction a as [|x a IH]; [reflexivity |].
  rewrite str_app_cons. simpl. destruct (Ascii.eqb x " "); [done |].
  by rewrite str_app_cons, IH.
Qed.

Lemma concatNames_app (l1 l2 : list Token) :
  concatNames (l1 ++ l2) = concatNames l1 +:+ concatNames l2.
Proof.
  induction l1 as [|t l1 IH]; [reflexivity |].
  simpl. by rewrite IH, str_app_assoc.
Qed.

Lemma for_first_Some {A : Type} (body : nat -> option A) (range : list nat) (r : A) :
  for_first body range = Some r ->
  exists i n, range !! i = Some n /\ body n = Some r
              /\ forall j m, (j < i)%nat -> range !! j = Some m -> body m = None.
Proof.
  induction range as [|n range IH]; simpl; [discriminate |].
  destruct (body n) as [r'|] eqn:Hn.
  - intros [= <-]. exists 0%nat, n. split; [done |]. split; [done | intros; lia].
  - intros H. destruct (IH H) as (i & m & Hi & Hm & Hbefore).
    exists (S i), m. split; [done |]. split; [done |].
    intros [|j] m' Hj Hlook; simpl in Hlook.
    + by injection Hlook as <-.
    + apply (Hbefore j); [lia | done].
Qed.

Lemma for_first_reach {A : Type} (body : nat -> option A) (l1 l2 : list nat) (n : nat) :
  (forall m, m ∈ l1 -> body m = None) ->
  for_first body (l1 ++ n :: l2)
  = match body n with Some r => Some r | None => for_first body l2 end.
Proof.
  induction l1 as [|m l1 IH]; intros Hnone; [reflexivity |].
  simpl. rewrite (Hnone m) by apply list_elem_of_here.
  apply IH. intros m' Hm'. apply Hnone. by apply list_elem_of_further.
Qed.

Lemma lookup_seq_Some (a k i n : nat) :
  seq a k !! i = Some n -> n = (a + i)%nat /\ (i < k)%nat.
Proof. intros H. by apply lookup_seq in H. Qed.

(** The last [n] that passes the test, or the initial value. *)
Lemma foldl_last_match (P : nat -> bool) (a : nat) (l : list nat) :
  let r := foldl (fun acc n => if P n then n else acc) a l in
  r = a \/ (r ∈ l /\ P r = true).
Proof.
  revert a; induction l as [|n l IH]; intros a; simpl; [by left |].
  destruct (IH (if P n then n else a)) as [Heq | [Hin HP]].
  - rewrite Heq. destruct (P n) eqn:Hn; [| by left].
    right. split; [apply list_elem_of_here | done].
  - right. split; [by apply list_elem_of_further | done].
Qed.

Lemma inputStr_of_nonempty (self : QParser) (s : string) :
  (0 < str_len s)%nat -> inputStr_of self s = s.
Proof.
  intros H. unfold inputStr_of. by destruct (Nat.ltb_spec 0 (str_len s)); [| lia].
Qed.

Lemma split_inside (s : string) (n : nat) :
  (1 <= n <= str_len s)%nat ->
  split s (Z.of_nat n) = (str_take n s, str_drop n s).
Proof.
  intros Hn. unfold split.
  case_bool_decide as Hs; [subst; simpl in Hn; lia |].
  destruct (Z.ltb_spec (Z.of_nat (str_len s)) (Z.of_nat n)); [lia |].
  destruct (Z.leb_spec (Z.of_nat n) 0); [lia |].
  by rewrite Nat2Z.id.
Qed.

Lemma str_drop_all (n : nat) (s : string) : (str_len s <= n)%nat -> str_drop n s = "".
Proof.
  revert s; induction n as [|n IH]; intros [|c s]; simpl; intros Hn;
    try reflexivity; try lia.
  apply IH. unfold str_len in *. lia.
Qed.

(** ** The names of the tokens *)

Lemma removeSpaces_forallb (P : ascii -> bool) (s : string) :
  (forall c, P c = true -> Ascii.eqb c " " = false) ->
  forallb P (list_ascii_of_string s) = true -> removeSpaces s = s.
Proof.
  intros HP. induction s as [|c s IH]; simpl; [done |].
  intros [Hc Hs]%andb_prop. rewrite (HP c Hc). by rewrite IH.
Qed.

Lemma isNumber_loop_noSpace (s : string) (gotDigit : bool) :
  isNumber_loop s gotDigit = true -> removeSpaces s = s.
Proof.
  revert gotDigit; induction s as [|c s IH]; intros gotDigit; simpl; [done |].
  destruct (Ascii.eqb_spec c ".") as [-> | Hdot].
  - destruct gotDigit; [discriminate |]. intros H. simpl. by rewrite (IH _ H).
  - destruct (digitChar c) eqn:Hd; simpl; [| discriminate].
    intros H. destruct (Ascii.eqb_spec c " ") as [-> | _]; [discriminate Hd |].
    by rewrite (IH _ H).
Qed.

Lemma registry_noSpace (nm : string) :
  nm ∈ constantsList ++ functionsList ++ infixOpsList -> removeSpaces nm = nm.
Proof.
  intros H. unfold constantsList, functionsList, infixOpsList,
    CONSTANTS, FUNCTIONS, INFIX_OPS in H. simpl in H.
  repeat (apply elem_of_cons in H as [-> | H]; [reflexivity |]).
  by apply elem_of_nil in H.
Qed.

(** A token that [Token] builds bears the name it was given, and that name
    holds no space. *)
Lemma Token_init_name (nm : string) (t : Token) :
  Token_init nm = Ok t -> name t = nm /\ removeSpaces nm = nm.
Proof.
  unfold Token_init.
  case_bool_decide as Hc.
  { intros [= <-]. split; [done |]. apply registry_noSpace, elem_of_app. by left. }
  case_bool_decide as Hf.
  { intros [= <-]. split; [done |].
    apply registry_noSpace. rewrite !elem_of_app. right. by left. }
  case_bool_decide as Hi.
  { intros [= <-]. split; [done |].
    apply registry_noSpace. rewrite !elem_of_app. right. by right. }
  destruct (checkVariableSyntax nm) as [[|]|] eqn:Hv; unfold mbind, res_bind;
    [| | discriminate].
  - intros [= <-]. split; [done |].
    unfold checkVariableSyntax in Hv.
    case_bool_decide; [discriminate |].
    destruct nm as [|c0 nm']; [discriminate |].
    destruct (negb (alphaChar c0 || Ascii.eqb c0 "_")); [discriminate |].
    injection Hv as Hv.
    apply (removeSpaces_forallb
             (fun char => alphaChar char || digitChar char || Ascii.eqb char "_"));
      [| exact Hv].
    intros c Hc'. destruct (Ascii.eqb_spec c " ") as [-> | _]; [discriminate | done].
  - repeat (case_bool_decide; [intros [= <-]; by subst |]).
    destruct (isNumber nm) eqn:Hn; cbv beta iota.
    + intros [= <-]. split; [done |]. unfold isNumber in Hn.
      case_bool_decide; [discriminate |]. by apply isNumber_loop_noSpace in Hn.
    + simpl. discriminate.
Qed.

Lemma all_spaces_take (n : nat) (s : string) :
  (forall m, (m < n)%nat -> String.get m s = Some " "%char) ->
  removeSpaces (str_take n s) = "".
Proof.
  revert s; induction n as [|n IH]; intros s Hs; [by destruct s |].
  destruct s as [|c s]; [reflexivity |]. simpl.
  assert (c = " "%char) as ->.
  { specialize (Hs 0%nat ltac:(lia)). simpl in Hs. by injection Hs. }
  simpl. apply IH. intros m Hm. apply (Hs (S m)). lia.
Qed.

Lemma get_is_Some (n : nat) (s : string) :
  (n < str_len s)%nat -> exists c, String.get n s = Some c.
Proof.
  revert s; induction n as [|n IH]; intros [|c s] Hn; unfold str_len in *;
    simpl in *; try lia.
  - by exists c.
  - apply IH. unfold str_len. lia.
Qed.

(** [consumeSpace] takes spaces only, and leaves what follows untouched. *)
Lemma consumeSpace_spec (self : QParser) (s h t : string) :
  (0 < str_len s)%nat ->
  consumeSpace self s = Some (h, t) ->
  h +:+ t = s /\ removeSpaces h = "".
Proof.
  intros Hlen. unfold consumeSpace. rewrite (inputStr_of_nonempty _ _ Hlen).
  intros H. apply for_first_Some in H as (i & n & Hi & Hn & Hbefore).
  apply lookup_seq in Hi as [-> Hi]. simpl in Hn, Hbefore.
  destruct (String.get i s) as [char|] eqn:Hget; [| discriminate].
  destruct (negb (Ascii.eqb char " ")); [| discriminate].
  injection Hn as Hn.
  split.
  - rewrite <- (split_concat s (Z.of_nat i)). by rewrite Hn.
  - destruct i as [|i].
    + assert (Hh := split_nonpositive s 0 ltac:(lia)).
      change (Z.of_nat 0) with 0 in Hn. rewrite Hn in Hh. simpl in Hh. by subst.
    + rewrite split_inside in Hn by lia. injection Hn as <- <-.
      apply (all_spaces_take (S i) s). intros m Hm.
      assert (Hnone := Hbefore m m ltac:(lia)).
      rewrite lookup_seq_lt in Hnone by lia. specialize (Hnone eq_refl).
      destruct (get_is_Some m s ltac:(lia)) as [c Hc]. rewrite Hc in Hnone |- *.
      destruct (Ascii.eqb_spec c " ") as [Heq | Hne]; [by rewrite Heq | discriminate].
Qed.

(** ** What the consume functions hand back *)

Lemma split_eq_concat (s h t : string) (n : Z) : split s n = (h, t) -> h +:+ t = s.
Proof. intros H. rewrite <- (split_concat s n). by rewrite H. Qed.

Lemma split_whole (s h t : string) (n : nat) :
  n = str_len s -> split s (Z.of_nat n) = (h, t) -> h = s.
Proof.
  intros -> H. rewrite <- (split_beyond s (Z.of_nat (str_len s))) by lia.
  by rewrite H.
Qed.

Lemma consumeNumber_concat (self : QParser) (s h t : string) :
  (0 < str_len s)%nat -> consumeNumber self s = Ok (h, t) -> h +:+ t = s.
Proof.
  intros Hlen. unfold consumeNumber. rewrite (inputStr_of_nonempty _ _ Hlen).
  destruct s as [|c0 s']; [discriminate |].
  destruct (negb _).
  - by intros [= <- <-].
  - intros [= H]. by apply split_eq_concat in H.
Qed.

Lemma consumeConst_concat (self : QParser) (s h t : string) :
  (0 < str_len s)%nat -> consumeConst self s = Ok (h, t) -> h +:+ t = s.
Proof.
  intros Hlen. unfold consumeConst. rewrite (inputStr_of_nonempty _ _ Hlen).
  destruct (for_first _ _) as [r|] eqn:Hfor; simpl.
  2:{ by intros [= <- <-]. }
  intros ->. apply for_first_Some in Hfor as (i & n & Hi & Hn & _).
  apply lookup_seq in Hi as [-> Hi].
  destruct (split s (Z.of_nat (1 + i))) as [head tail] eqn:Hsp.
  case_bool_decide; [| discriminate].
  destruct (Nat.eqb_spec (1 + i) (str_len s)) as [Heq | Hne].
  - injection Hn as <- <-. rewrite str_app_empty_r. by eapply split_whole.
  - destruct tail as [|nextChar tail']; [discriminate |].
    destruct (Ascii.eqb nextChar "_"); [by injection Hn as <- <- |].
    destruct (alphaChar nextChar); [discriminate |].
    injection Hn as <- <-. by eapply split_eq_concat.
Qed.

Lemma str_init_snoc (f : string) (c : ascii) : str_init (f +:+ String c "") = f.
Proof.
  induction f as [|x f IH]; [reflexivity |].
  rewrite str_app_cons. simpl. rewrite IH.
  by destruct f.
Qed.

Lemma functionsExt_shape (h : string) :
  h ∈ (fun f => f.1 +:+ "(") <$> FUNCTIONS ->
  exists f, f ∈ functionsList /\ h = f +:+ "(".
Proof.
  intros ([f k] & -> & Hin)%list_elem_of_fmap. exists f. split; [| done].
  apply list_elem_of_fmap. by exists (f, k).
Qed.

Lemma consumeFunc_concat (self : QParser) (s f t : string) :
  (0 < str_len s)%nat -> consumeFunc self s = (f, t) -> f <> "" ->
  f ∈ functionsList /\ (f +:+ "(") +:+ t = s.
Proof.
  intros Hlen. unfold consumeFunc. rewrite (inputStr_of_nonempty _ _ Hlen).
  match goal with |- context [foldl ?g 0%nat ?l] =>
    destruct (foldl_last_match
                (fun n => bool_decide ((split s (Z.of_nat n)).1
                                         ∈ (fun f => f.1 +:+ "(") <$> FUNCTIONS))
                0%nat l) as [H0 | [_ Hin]];
    change (foldl g 0%nat l) with
      (foldl (fun acc n =>
                if (fun n => bool_decide ((split s (Z.of_nat n)).1
                                            ∈ (fun f => f.1 +:+ "(") <$> FUNCTIONS)) n
                then n else acc) 0%nat l);
    set (nMax := foldl _ 0%nat l) in *
  end.
  - clearbody nMax. subst nMax.
    destruct (split s (Z.of_nat 0%nat)) as [tmpHead tmpTail] eqn:Hsp.
    assert (tmpHead = "") as ->.
    { change (Z.of_nat 0) with 0 in Hsp.
      rewrite <- (split_nonpositive s 0) by lia. by rewrite Hsp. }
    by intros [= <- <-].
  - clearbody nMax. apply bool_decide_eq_true_1 in Hin.
    destruct (split s (Z.of_nat nMax)) as [tmpHead tmpTail] eqn:Hsp.
    simpl in Hin. apply functionsExt_shape in Hin as (f' & Hf' & ->).
    rewrite str_init_snoc. intros [= <- <-] _. split; [done |].
    by eapply split_eq_concat.
Qed.

Lemma consumeVar_concat (self : QParser) (s v t : string) :
  (0 < str_len s)%nat -> consumeVar self s = Ok (inr v, t) ->
  v +:+ t = s /\ (v = "" \/ v ∉ reservedNames).
Proof.
  intros Hlen. unfold consumeVar. rewrite (inputStr_of_nonempty _ _ Hlen).
  destruct s as [|c0 s']; [discriminate |].
  destruct (negb _); [intros [= <- <-]; split; [done | by left] |].
  destruct (for_first _ _) as [[[var tail]|]|] eqn:Hfor; [| discriminate..].
  case_bool_decide as Hres; simpl; intros [= <- <-]; [split; [done | by left] |].
  split; [| by right].
  apply for_first_Some in Hfor as (i & n & Hi & Hn & _).
  apply lookup_seq in Hi as [-> Hi].
  destruct (split (String c0 s') (Z.of_nat (1 + i))) as [head tl] eqn:Hsp.
  destruct (Nat.eqb_spec (1 + i) (str_len (String c0 s'))) as [Heq | Hne].
  - injection Hn as <- <-. rewrite str_app_empty_r. by eapply split_whole.
  - destruct tl as [|nextChar tl']; [discriminate |].
    destruct (alphaChar nextChar || Ascii.eqb nextChar "_"); [discriminate |].
    destruct (digitChar nextChar).
    + destruct (consumeNumber self (String nextChar tl')) as [[nbr ?]|]; [| discriminate].
      case_bool_decide; [| discriminate].
      injection Hn as <- <-. by eapply split_eq_concat.
    + injection Hn as <- <-. by eapply split_eq_concat.
Qed.

Lemma consumeInfix_concat (self : QParser) (s h t : string) :
  (0 < str_len s)%nat -> consumeInfix self s = (h, t) -> h +:+ t = s.
Proof.
  intros Hlen. unfold consumeInfix. rewrite (inputStr_of_nonempty _ _ Hlen).
  apply split_eq_concat.
Qed.

Lemma pop_concat (s h t : string) : pop s = (h, t) -> h +:+ t = s.
Proof. rewrite pop_first_rest. intros [= <- <-]. apply (str_take_drop 1). Qed.

(** ** Claim C7: the tokens cover the input *)

Lemma one_token_covers (x tail inp : string) (t : Token) :
  Token_init x = Ok t -> x +:+ tail = inp ->
  concatNames [t] +:+ removeSpaces tail = removeSpaces inp.
Proof.
  intros [Hname Hns]%Token_init_name <-. simpl.
  by rewrite Hname, str_app_empty_r, removeSpaces_app, Hns.
Qed.

(** One turn of the loop appends tokens whose text is what it consumed, the
    spaces apart. *)
Lemma tokenize_body_step (self : QParser) (inp : string) (toks : list Token)
    (r : loop (string * list Token)) :
  (0 < str_len inp)%nat ->
  tokenize_body self (inp, toks) = Ok r ->
  exists extra,
    (loop_state r).2 = toks ++ extra
    /\ concatNames extra +:+ removeSpaces (loop_state r).1 = removeSpaces inp.
Proof.
  intros Hlen. unfold tokenize_body, mbind, res_bind.
  destruct (consumeSpace self inp) as [[h inp']|] eqn:Hsp; [| discriminate].
  apply consumeSpace_spec in Hsp as [Hcat Hh]; [| done].
  assert (Hinp : removeSpaces inp = removeSpaces inp').
  { by rewrite <- Hcat, removeSpaces_app, Hh. }
  rewrite Hinp. clear Hcat Hh Hinp h.
  destruct (Nat.eqb_spec (str_len inp') 0) as [H0 | Hpos].
  { intros [= <-]. exists []. simpl. by rewrite app_nil_r. }
  assert (Hlen' : (0 < str_len inp')%nat) by lia.
  destruct (consumeNumber self inp') as [[number tailNumber]|] eqn:HN; [| discriminate].
  destruct (consumeConst self inp') as [[constant tailConstant]|] eqn:HC; [| discriminate].
  destruct (consumeFunc self inp') as [function tailFunction] eqn:HF.
  destruct (consumeVar self inp') as [[variable tailVariable]|] eqn:HV; [| discriminate].
  destruct (consumeInfix self inp') as [infix tailInfix] eqn:HI.
  case_bool_decide as Hnum; simpl negb; cbv iota.
  2:{ destruct (Token_init number) as [t|] eqn:Ht; [| discriminate].
      intros [= <-]. exists [t]. split; [done |]. simpl loop_state.
      eapply one_token_covers; [done |]. by eapply consumeNumber_concat. }
  case_bool_decide as Hcst; simpl negb; cbv iota.
  2:{ destruct (Token_init constant) as [t|] eqn:Ht; [| discriminate].
      intros [= <-]. exists [t]. split; [done |]. simpl loop_state.
      eapply one_token_covers; [done |]. by eapply consumeConst_concat. }
  case_bool_decide as Hfun; simpl negb; cbv iota.
  2:{ destruct (Token_init function) as [t|] eqn:Ht; [| discriminate].
      destruct (Token_init "(") as [b|] eqn:Hb; [| discriminate].
      intros [= <-]. exists [t; b]. split; [by rewrite <- app_assoc |].
      simpl loop_state.
      apply Token_init_name in Ht as [Hname Hns], Hb as [Hbname _].
      destruct (consumeFunc_concat _ _ _ _ Hlen' HF Hfun) as [_ Hcat].
      rewrite <- Hcat. simpl. rewrite Hname, Hbname, str_app_empty_r.
      by rewrite !removeSpaces_app, Hns. }
  case_bool_decide as Hvar; simpl negb; cbv iota.
  2:{ destruct variable as [z | variable]; [discriminate |].
      destruct (Token_init variable) as [t|] eqn:Ht; [| discriminate].
      intros [= <-]. exists [t]. split; [done |]. simpl loop_state.
      eapply one_token_covers; [done |].
      by destruct (consumeVar_concat _ _ _ _ Hlen' HV). }
  case_bool_decide as Hinf; simpl negb; cbv iota.
  2:{ destruct (Token_init infix) as [t|] eqn:Ht; [| discriminate].
      intros [= <-]. exists [t]. split; [done |]. simpl loop_state.
      eapply one_token_covers; [done |]. by eapply consumeInfix_concat. }
  destruct (pop inp') as [head tail] eqn:Hpop.
  apply pop_concat in Hpop.
  repeat (case_bool_decide;
          [ destruct (Token_init head) as [t|] eqn:Ht; [| discriminate];
            intros [= <-]; exists [t]; split; [done |]; simpl loop_state;
            by eapply one_token_covers
          | ]).
  intros [= <-]. exists []. simpl. by rewrite app_nil_r.
Qed.

Lemma tokenize_loop_unfold (self : QParser) (fuel : nat) (st : string * list Token) :
  tokenize_loop self fuel st
  = if (0 <? str_len st.1)%nat then
      match fuel with
      | O => None
      | S fuel' =>
          match tokenize_body self st with
          | Raise e => Some (Raise e)
          | Ok (Break st') => Some (Ok st'.2)
          | Ok (Continue st') => tokenize_loop self fuel' st'
          end
      end
    else Some (Ok st.2).
Proof. by destruct fuel. Qed.

(** A turn that breaks out of the loop leaves nothing to read. *)
Lemma tokenize_body_break (self : QParser) (st st' : string * list Token) :
  tokenize_body self st = Ok (Break st') -> st'.1 = "".
Proof.
  destruct st as [inp toks]. unfold tokenize_body, mbind, res_bind.
  destruct (consumeSpace self inp) as [[h inp'']|]; [| discriminate].
  destruct (Nat.eqb_spec (str_len inp'') 0) as [Hz | Hnz].
  - intros [= <-]. by apply str_len_0.
  - intros Hbody. exfalso.
    repeat match type of Hbody with
           | context [match ?x with _ => _ end] => destruct x
           end; discriminate.
Qed.

Lemma tokenize_loop_covers (self : QParser) (fuel : nat)
    (st : string * list Token) (tokens : list Token) :
  tokenize_loop self fuel st = Some (Ok tokens) ->
  concatNames tokens = concatNames st.2 +:+ removeSpaces st.1.
Proof.
  revert st; induction fuel as [|fuel IH]; intros [inp toks];
    rewrite tokenize_loop_unfold; cbn [fst snd];
    (destruct (Nat.ltb_spec 0 (str_len inp)) as [Hlen | H0]; cbv iota;
     [| intros [= <-]; rewrite (str_len_0 inp) by lia; by rewrite str_app_empty_r]).
  - discriminate.
  - destruct (tokenize_body self (inp, toks)) as [r|] eqn:Hbody; [| discriminate].
    destruct (tokenize_body_step _ _ _ _ Hlen Hbody) as (extra & Hext & Hcov).
    rewrite <- Hcov.
    destruct r as [[inp' toks'] | [inp' toks']]; simpl in Hext; subst toks'.
    + intros H. rewrite (IH _ H). simpl.
      by rewrite concatNames_app, str_app_assoc.
    + intros [= <-]. apply tokenize_body_break in Hbody. simpl in *. subst inp'.
      rewrite concatNames_app. change (removeSpaces "") with "".
      by rewrite str_app_empty_r.
Qed.

(** C7 (as claimed, refuted). [tokenize] does not succeed on every input:
    on "x$" it reads the variable and then meets a character that the parser
    does not support; whatever the fuel, no token list is returned. *)
Lemma tokenize_unsupported_character :
  ~ exists fuel tokens, tokenize parser fuel "x$" = Some (Ok tokens).
Proof.
  intros (fuel & tokens & H).
  assert (Hstuck : forall f, tokenize_loop parser f ("$", [tok "VAR" "x"]) = None).
  { apply tokenize_loop_stuck; [simpl; lia | reflexivity]. }
  unfold tokenize in H. rewrite tokenize_loop_unfold in H.
  destruct fuel as [|fuel]; [discriminate H |].
  change (tokenize_body parser (inputStr_of parser "x$", []))
    with (Ok (Continue ("$", [tok "VAR" "x"]))) in H.
  simpl in H. by rewrite Hstuck in H.
Qed.

(** C7 (amended). Whenever [tokenize] returns a token list, the names of all
    its tokens (the open bracket that follows a function name included), one
    after the other, are the input with its spaces removed. *)
Theorem tokenize_round_trip (self : QParser) (fuel : nat) (s : string)
    (tokens : list Token) :
  tokenize self fuel s = Some (Ok tokens) ->
  concatNames tokens = removeSpaces (inputStr_of self s).
Proof.
  intros H. apply tokenize_loop_covers in H. by rewrite H.
Qed.

Lemma tokenize_round_trip_witness :
  concatNames
    [tok "NUMBER" "2"; tok "VAR" "x"; op "*" 2; tok "FUNCTION" "cos";
     tok "BRKT_OPEN" "("; tok "NUMBER" "3.1415"; tok "VAR" "t"; op "-" 1;
     tok "NUMBER" "1."; tok "BRKT_CLOSE" ")"]
  = removeSpaces (inputStr_of parser " 2x * cos(3.1415t - 1.)").
Proof.
  apply (tokenize_round_trip parser 20 " 2x * cos(3.1415t - 1.)").
  vm_compute. reflexivity.
Defined.

(** ** Claim C5: constants and reserved words in the lexer *)

Lemma str_take_app_exact (a b : string) : str_take (str_len a) (a +:+ b) = a.
Proof.
  induction a as [|x a IH]; [by destruct b |].
  rewrite str_app_cons. unfold str_len in *. simpl. by rewrite IH.
Qed.

Lemma str_drop_app_exact (a b : string) : str_drop (str_len a) (a +:+ b) = b.
Proof.
  induction a as [|x a IH]; [reflexivity |].
  rewrite str_app_cons. unfold str_len in *. simpl. by rewrite IH.
Qed.

Lemma str_take_app_inside (m : nat) (a b : string) :
  (m <= str_len a)%nat -> str_take m (a +:+ b) = str_take m a.
Proof.
  revert a; induction m as [|m IH]; intros a Hm.
  - by destruct a, b.
  - destruct a as [|x a]; [unfold str_len in Hm; simpl in Hm; lia |].
    rewrite str_app_cons. simpl. rewrite IH; [done |].
    unfold str_len in *. simpl in Hm. lia.
Qed.

(** Inside a word made of letters, what remains begins with a letter. *)
Lemma str_drop_letters (m : nat) (a b : string) :
  letters a = true -> (m < str_len a)%nat ->
  exists x rest, str_drop m (a +:+ b) = String x rest /\ alphaChar x = true.
Proof.
  revert a; induction m as [|m IH]; intros [|x a] Hl Hm;
    unfold str_len in *; simpl in Hm; try lia.
  - exists x, (a +:+ b). split; [done |]. by apply andb_prop in Hl as [? _].
  - rewrite str_app_cons. simpl. apply IH; [| unfold str_len; lia].
    by apply andb_prop in Hl as [_ ?].
Qed.

Lemma str_app_cancel_l (a b c : string) : a +:+ b = a +:+ c -> b = c.
Proof.
  induction a as [|x a IH]; [done |].
  rewrite !str_app_cons. intros [= H]. by apply IH.
Qed.

Lemma constants_are_letters (c : string) :
  c ∈ constantsList -> letters c = true /\ c <> "".
Proof.
  intros H. unfold constantsList, CONSTANTS in H. simpl in H.
  repeat (apply elem_of_cons in H as [-> | H]; [by split |]).
  by apply elem_of_nil in H.
Qed.

(** The first character that is not a letter is where a word of letters
    ends. *)
Lemma letters_prefix_unique (a b t u : string) (x y : ascii) :
  letters a = true -> letters b = true ->
  alphaChar x = false -> alphaChar y = false ->
  a +:+ String x t = b +:+ String y u -> a = b /\ x = y /\ t = u.
Proof.
  revert b; induction a as [|p a IH]; intros [|q b] Ha Hb Hx Hy.
  - by intros [= <- <-].
  - rewrite str_app_cons. intros [= <- _].
    apply andb_prop in Hb as [Hq _]. congruence.
  - rewrite str_app_cons. intros [= -> _].
    apply andb_prop in Ha as [Hp _]. congruence.
  - rewrite !str_app_cons. intros [= <- H].
    apply andb_prop in Ha as [_ Ha], Hb as [_ Hb].
    destruct (IH b Ha Hb Hx Hy H) as (-> & -> & ->). done.
Qed.

Lemma letters_no_end (a b t : string) (x : ascii) :
  letters b = true -> alphaChar x = false -> a +:+ String x t <> b.
Proof.
  revert b; induction a as [|p a IH]; intros [|q b] Hb Hx; try done.
  - intros [= <- _]. apply andb_prop in Hb as [Hq _]. congruence.
  - rewrite str_app_cons. intros [= <- H].
    apply andb_prop in Hb as [_ Hb]. by apply (IH b Hb Hx).
Qed.

Lemma consumeConst_accepted (self : QParser) (s c tail : string) :
  (0 < str_len s)%nat -> consumeConst self s = Ok (c, tail) -> c <> "" ->
  s = c +:+ tail /\ c ∈ constantsList /\ endsConstant tail.
Proof.
  intros Hlen H Hc. assert (Hcat := consumeConst_concat _ _ _ _ Hlen H).
  split; [done |]. revert H.
  unfold consumeConst. rewrite (inputStr_of_nonempty _ _ Hlen).
  destruct (for_first _ _) as [r|] eqn:Hfor; simpl.
  2:{ by intros [= <- <-]. }
  intros ->. apply for_first_Some in Hfor as (i & n & Hi & Hn & _).
  apply lookup_seq in Hi as [-> Hi].
  destruct (split s (Z.of_nat (1 + i))) as [head tl] eqn:Hsp.
  case_bool_decide as Hin; [| discriminate].
  destruct (Nat.eqb_spec (1 + i) (str_len s)) as [Heq | Hne].
  - injection Hn as <- <-. split; [done | by left].
  - destruct tl as [|nextChar tl']; [discriminate |].
    destruct (Ascii.eqb_spec nextChar "_") as [-> | Hus];
      [by injection Hn as <- <- |].
    destruct (alphaChar nextChar) eqn:Hal; [discriminate |].
    injection Hn as <- <-. split; [done |]. right. by exists nextChar, tl'.
Qed.

Lemma consumeConst_accepts (self : QParser) (c tail : string) :
  c ∈ constantsList -> endsConstant tail ->
  consumeConst self (c +:+ tail) = Ok (c, tail).
Proof.
  intros Hin Hend. destruct (constants_are_letters c Hin) as [Hlet Hne].
  assert (Hn : (1 <= str_len c)%nat).
  { destruct c; [done | unfold str_len; simpl; lia]. }
  assert (Hlen : (0 < str_len (c +:+ tail))%nat) by (rewrite str_len_app; lia).
  unfold consumeConst. rewrite (inputStr_of_nonempty _ _ Hlen).
  rewrite str_len_app.
  replace (str_len c + str_len tail)%nat
    with ((str_len c - 1) + S (str_len tail))%nat by lia.
  rewrite seq_app. replace (1 + (str_len c - 1))%nat with (str_len c) by lia.
  cbn [seq]. rewrite for_first_reach.
  - rewrite split_inside by (rewrite str_len_app; lia).
    rewrite str_take_app_exact, str_drop_app_exact.
    rewrite bool_decide_eq_true_2 by done.
    destruct Hend as [-> | (nextChar & rest & -> & Hal & Hus)].
    + rewrite (proj2 (Nat.eqb_eq _ _)) by (unfold str_len in *; simpl; lia). done.
    + rewrite (proj2 (Nat.eqb_neq _ _)) by (unfold str_len in *; simpl; lia).
      rewrite (proj2 (Ascii.eqb_neq _ _)) by done. by rewrite Hal.
  - intros m [Hm1 Hm2]%elem_of_seq.
    rewrite split_inside by (rewrite str_len_app; lia).
    case_bool_decide; [| done].
    rewrite (proj2 (Nat.eqb_neq _ _)) by lia.
    destruct (str_drop_letters m c tail Hlet ltac:(lia)) as (x & rest & -> & Hx).
    destruct (Ascii.eqb_spec x "_") as [-> | _]; [discriminate Hx |].
    by rewrite Hx.
Qed.

(** [consumeConst] never raises. *)
Lemma consumeConst_returns (self : QParser) (s : string) :
  (0 < str_len s)%nat -> exists c tail, consumeConst self s = Ok (c, tail).
Proof.
  intros Hlen. unfold consumeConst. rewrite (inputStr_of_nonempty _ _ Hlen).
  destruct (for_first _ _) as [r|] eqn:Hfor; simpl; [| by eauto].
  apply for_first_Some in Hfor as (i & n & Hi & Hn & _).
  apply lookup_seq in Hi as [-> Hi].
  rewrite split_inside in Hn by lia.
  case_bool_decide; [| discriminate].
  destruct (Nat.eqb_spec (1 + i) (str_len s)) as [Heq | Hne];
    [injection Hn as <-; eauto |].
  destruct (str_drop (1 + i) s) as [|nextChar tl] eqn:Hdrop.
  - exfalso. assert (Hcat := str_take_drop (1 + i) s). rewrite Hdrop in Hcat.
    apply (f_equal str_len) in Hcat. rewrite str_len_app in Hcat.
    assert (str_len (str_take (1 + i) s) <= 1 + i)%nat; [| unfold str_len in *; simpl in *; lia].
    clear. generalize (1 + i)%nat. intros n. revert s.
    induction n as [|n IH]; intros [|c s]; unfold str_len in *; simpl; try lia.
    specialize (IH s). lia.
  - destruct (Ascii.eqb nextChar "_"); [injection Hn as <-; eauto |].
    destruct (alphaChar nextChar); [discriminate |]. injection Hn as <-; eauto.
Qed.

(** An underscore right after a constant always rejects the constant. *)
Lemma consumeConst_underscore (self : QParser) (c rest : string) :
  c ∈ constantsList ->
  consumeConst self (c +:+ String "_" rest) = Ok ("", c +:+ String "_" rest).
Proof.
  intros Hin. destruct (constants_are_letters c Hin) as [Hlet Hne].
  set (s := c +:+ String "_" rest).
  assert (Hlen : (0 < str_len s)%nat).
  { unfold s. rewrite str_len_app. unfold str_len. simpl. lia. }
  destruct (consumeConst_returns self s Hlen) as (c' & tail & Hres).
  destruct (decide (c' = "")) as [-> | Hc'].
  - assert (Hcat := consumeConst_concat _ _ _ _ Hlen Hres).
    change (tail = s) in Hcat. by rewrite Hres, Hcat.
  - exfalso.
    destruct (consumeConst_accepted _ _ _ _ Hlen Hres Hc') as (Hs & Hin' & Hend).
    destruct (constants_are_letters c' Hin') as [Hlet' _].
    destruct Hend as [-> | (x & t & -> & Hal & Hus)].
    + rewrite str_app_empty_r in Hs.
      exact (letters_no_end c c' rest "_" Hlet' eq_refl Hs).
    + unfold s in Hs.
      destruct (letters_prefix_unique c c' rest t "_" x Hlet Hlet' eq_refl Hal Hs)
        as (_ & Hx & _).
      by apply Hus.
Qed.

(** A concrete string is not in a concrete list. *)
Ltac not_in_list :=
  let Hin := fresh "Hin" in
  intros Hin; cbv in Hin;
  repeat (apply elem_of_cons in Hin as [Hin | Hin]; [discriminate Hin |]);
  by apply elem_of_nil in Hin.

Lemma reserved_shape (r : string) :
  r ∈ reservedNames ->
  (exists x r', r = String x r' /\ alphaChar x = true)
  /\ (r ∉ infixOpsList) /\ (r ∉ ["("; ")"; ","]).
Proof.
  intros H. unfold reservedNames, constantsList, functionsList, CONSTANTS,
    FUNCTIONS in H. simpl in H.
  repeat (apply elem_of_cons in H as [-> | H];
          [split; [eexists _, _; split; [reflexivity | vm_compute; reflexivity] |];
           split; not_in_list |]).
  by apply elem_of_nil in H.
Qed.

Lemma alpha_not_digit (x : ascii) :
  alphaChar x = true ->
  py_isdigit x = false /\ Ascii.eqb x "." = false /\ Ascii.eqb x " " = false
  /\ x <> "("%char.
Proof.
  destruct x as [[] [] [] [] [] [] [] []]; vm_compute; intros H;
    try discriminate H; repeat split; discriminate.
Qed.

Lemma consumeSpace_no_space (self : QParser) (x : ascii) (t : string) :
  Ascii.eqb x " " = false ->
  consumeSpace self (String x t) = Some ("", String x t).
Proof.
  intros Hx. unfold consumeSpace.
  rewrite inputStr_of_nonempty by (unfold str_len; simpl; lia).
  unfold str_len. simpl. by rewrite Hx.
Qed.

Lemma consumeNumber_letter (self : QParser) (x : ascii) (t : string) :
  alphaChar x = true -> consumeNumber self (String x t) = Ok ("", String x t).
Proof.
  intros Hx. destruct (alpha_not_digit x Hx) as (Hd & Hdot & _).
  unfold consumeNumber.
  rewrite inputStr_of_nonempty by (unfold str_len; simpl; lia).
  by rewrite Hd, Hdot.
Qed.

Lemma consumeInfix_registered (self : QParser) (s h t : string) :
  (0 < str_len s)%nat -> consumeInfix self s = (h, t) ->
  h = "" \/ h ∈ infixOpsList.
Proof.
  intros Hlen. unfold consumeInfix. rewrite (inputStr_of_nonempty _ _ Hlen).
  match goal with |- context [foldl ?g 0%nat ?l] =>
    destruct (foldl_last_match
                (fun n => bool_decide ((split s (Z.of_nat n)).1 ∈ infixOpsList))
                0%nat l) as [H0 | [_ Hin]];
    change (foldl g 0%nat l) with
      (foldl (fun acc n =>
                if (fun n => bool_decide ((split s (Z.of_nat n)).1 ∈ infixOpsList)) n
                then n else acc) 0%nat l);
    set (nMax := foldl _ 0%nat l) in *; clearbody nMax
  end.
  - subst nMax. intros Hsp. left.
    change (Z.of_nat 0) with 0 in Hsp.
    rewrite <- (split_nonpositive s 0) by lia. by rewrite Hsp.
  - apply bool_decide_eq_true_1 in Hin. intros Hsp. right. by rewrite Hsp in Hin.
Qed.

(** The first turn of the loop on a reserved word that a letter extends. *)
Lemma reserved_first_step (self : QParser) (r : string) (ch : ascii) (rest : string)
    (lr : loop (string * list Token)) :
  r ∈ reservedNames -> alphaChar ch = true ->
  tokenize_body self (r +:+ String ch rest, []) = Ok lr ->
  loop_state lr = (r +:+ String ch rest, []) \/ headNot r (loop_state lr).2.
Proof.
  intros Hr Hch.
  destruct (reserved_shape r Hr) as ((x & r' & -> & Hx) & Hninf & Hnpun).
  set (r := String x r') in *. set (s := r +:+ String ch rest).
  assert (Hs : s = String x (r' +:+ String ch rest)) by done.
  assert (Hlen : (0 < str_len s)%nat) by (rewrite Hs; unfold str_len; simpl; lia).
  unfold tokenize_body, mbind, res_bind.
  destruct (alpha_not_digit x Hx) as (_ & _ & Hsp & _).
  rewrite Hs at 1. rewrite (consumeSpace_no_space self x _ Hsp). rewrite <- Hs.
  destruct (Nat.eqb_spec (str_len s) 0) as [| _]; [lia |].
  rewrite Hs at 1. rewrite (consumeNumber_letter self x _ Hx). rewrite <- Hs.
  destruct (consumeConst self s) as [[constant tailConstant]|] eqn:HC; [| discriminate].
  destruct (consumeFunc self s) as [function tailFunction] eqn:HF.
  destruct (consumeVar self s) as [[variable tailVariable]|] eqn:HV; [| discriminate].
  destruct (consumeInfix self s) as [infix tailInfix] eqn:HI.
  rewrite (bool_decide_eq_true_2 ("" = "")) by done. simpl negb. cbv iota.
  case_bool_decide as Hcst; simpl negb; cbv iota.
  2:{ destruct (Token_init constant) as [t|] eqn:Ht; [| discriminate].
      intros [= <-]. right. exists t, []. split; [done |].
      apply Token_init_name in Ht as [-> _]. intros ->.
      destruct (consumeConst_accepted _ _ _ _ Hlen HC Hcst) as (Hcat & _ & Hend).
      apply str_app_cancel_l in Hcat. subst tailConstant.
      destruct Hend as [? | (c & t' & [= <- <-] & Hal & _)]; [done | congruence]. }
  case_bool_decide as Hfun; simpl negb; cbv iota.
  2:{ destruct (Token_init function) as [t|] eqn:Ht; [| discriminate].
      destruct (Token_init "(") as [b|] eqn:Hb; [| discriminate].
      intros [= <-]. right. exists t, [b]. split; [done |].
      apply Token_init_name in Ht as [-> _]. intros ->.
      destruct (consumeFunc_concat _ _ _ _ Hlen HF Hfun) as [_ Hcat].
      rewrite str_app_assoc in Hcat. apply str_app_cancel_l in Hcat.
      injection Hcat as <- _. destruct (alpha_not_digit _ Hch) as (_ & _ & _ & ?).
      done. }
  case_bool_decide as Hvar; simpl negb; cbv iota.
  2:{ destruct variable as [z | variable]; [discriminate |].
      destruct (Token_init variable) as [t|] eqn:Ht; [| discriminate].
      intros [= <-]. right. exists t, []. split; [done |].
      apply Token_init_name in Ht as [-> _]. intros ->.
      destruct (consumeVar_concat _ _ _ _ Hlen HV) as [_ [-> | Hnres]]; done. }
  case_bool_decide as Hinf; simpl negb; cbv iota.
  2:{ destruct (Token_init infix) as [t|] eqn:Ht; [| discriminate].
      intros [= <-]. right. exists t, []. split; [done |].
      apply Token_init_name in Ht as [-> _]. intros ->.
      destruct (consumeInfix_registered _ _ _ _ Hlen HI) as [? | ?]; done. }
  destruct (pop s) as [head tail] eqn:Hpop.
  repeat (case_bool_decide as Hp;
          [ destruct (Token_init head) as [t|] eqn:Ht; [| discriminate];
            intros [= <-]; right; exists t, []; split; [done |];
            apply Token_init_name in Ht as [-> _]; intros Heq;
            apply Hnpun; rewrite <- Heq, Hp; repeat constructor
          | clear Hp ]).
  intros [= <-]. by left.
Qed.

Lemma headNot_app (r : string) (toks extra : list Token) :
  headNot r toks -> headNot r (toks ++ extra).
Proof. intros (first & rest & -> & Hne). by exists first, (rest ++ extra). Qed.

Lemma reserved_loop (self : QParser) (r : string) (ch : ascii) (rest : string)
    (tokens : list Token) :
  r ∈ reservedNames -> alphaChar ch = true ->
  forall fuel st,
    st = (r +:+ String ch rest, []) \/ headNot r st.2 ->
    tokenize_loop self fuel st = Some (Ok tokens) ->
    tokens = [] \/ headNot r tokens.
Proof.
  intros Hr Hch. induction fuel as [|fuel IH]; intros st Hinv;
    rewrite tokenize_loop_unfold;
    (destruct (Nat.ltb_spec 0 (str_len st.1)) as [Hlen | H0]; cbv iota;
     [| intros [= <-]; destruct Hinv as [-> | ?]; [by left | by right]]).
  - discriminate.
  - destruct (tokenize_body self st) as [lr|] eqn:Hbody; [| discriminate].
    assert (Hinv' : loop_state lr = (r +:+ String ch rest, [])
                    \/ headNot r (loop_state lr).2).
    { destruct Hinv as [-> | Hhead].
      - by apply (reserved_first_step self).
      - right. destruct st as [inp toks].
        destruct (tokenize_body_step _ _ _ _ Hlen Hbody) as (extra & -> & _).
        by apply headNot_app. }
    destruct lr as [st' | st']; simpl in Hinv'.
    + by apply IH.
    + intros [= <-]. destruct Hinv' as [-> | ?]; [by left | by right].
Qed.

(** C5 (as claimed, refuted). A digit after a constant does not reject the
    constant: on "pi3" [consumeConst] accepts "pi" and the lexer gives the
    constant "pi" followed by the number "3". *)
Lemma constant_before_digit_is_accepted :
  consumeConst parser "pi3" = Ok ("pi", "3")
  /\ tokenize parser 10 "pi3"
     = Some (Ok [mkToken "CONSTANT" "pi" 0 (314159265358979 # 100000000000000);
                 tok "NUMBER" "3"]).
Proof. split; vm_compute; reflexivity. Qed.

(** C5 (amended). [consumeConst] accepts a leading constant exactly when what
    follows is nothing or a character that is neither a letter nor the
    underscore (a digit does not reject it); an underscore right after a
    constant always rejects it; a reserved constant or function name that a
    letter extends is never the name of the first token, and "pixel" is a
    single variable token. *)
Theorem constant_match (self : QParser) (s c tail r rest : string) (ch : ascii)
    (fuel : nat) (tokens : list Token) :
  (0 < str_len s)%nat -> c <> "" ->
  r ∈ reservedNames -> alphaChar ch = true ->
  (consumeConst self s = Ok (c, tail)
   <-> s = c +:+ tail /\ c ∈ constantsList /\ endsConstant tail)
  /\ (c ∈ constantsList ->
      consumeConst self (c +:+ String "_" rest) = Ok ("", c +:+ String "_" rest))
  /\ (tokenize self fuel (r +:+ String ch rest) = Some (Ok tokens) ->
      tokens = [] \/ headNot r tokens)
  /\ tokenize parser 10 "pixel" = Some (Ok [tok "VAR" "pixel"]).
Proof.
  intros Hlen Hc Hr Hch. split; [split |].
  - intros H. by apply (consumeConst_accepted self).
  - intros (-> & Hin & Hend). by apply consumeConst_accepts.
  - split; [apply consumeConst_underscore |].
    split; [| vm_compute; reflexivity].
    unfold tokenize. apply (reserved_loop self r ch rest tokens Hr Hch).
    left. rewrite inputStr_of_nonempty; [done |].
    rewrite str_len_app. unfold str_len. simpl. lia.
Qed.

Lemma constant_match_witness :
  (consumeConst parser "pi*r" = Ok ("pi", "*r")
   <-> "pi*r" = "pi" +:+ "*r" /\ "pi" ∈ constantsList /\ endsConstant "*r")
  /\ (tokenize parser 10 ("pi" +:+ String "x" "el") = Some (Ok [tok "VAR" "pixel"]) ->
      [tok "VAR" "pixel"] = [] \/ headNot "pi" [tok "VAR" "pixel"]).
Proof.
  assert (Hin : "pi" ∈ reservedNames) by (vm_compute; repeat constructor).
  destruct (constant_match parser "pi*r" "pi" "*r" "pi" "el" "x" 10
              [tok "VAR" "pixel"]) as (H1 & _ & H3 & _);
    [vm_compute; lia | discriminate | exact Hin | reflexivity |].
  split; [exact H1 | exact H3].
Defined.

(** ** Claim C3: folding by priority *)

(** Induction on a stack whose elements alternate, two by two. *)
Lemma alternating_rest_ind (P : node -> list node -> Prop) :
  (forall x, operand x = true -> P x []) ->
  (forall x o x' rest,
     operand x = true -> infix o = true -> alternating (x' :: rest) = true ->
     P x' rest -> P x (o :: x' :: rest)) ->
  forall rest x, alternating (x :: rest) = true -> P x rest.
Proof.
  intros Hone Hstep. fix IH 1. intros [|o [|x' rest]] x Halt.
  - by apply Hone.
  - simpl in Halt. by rewrite andb_false_r in Halt.
  - change (operand x && infix o && alternating (x' :: rest) = true) in Halt.
    apply andb_prop in Halt as [[Hx Ho]%andb_prop Hrest].
    apply Hstep; [done.. |]. by apply IH.
Qed.

Lemma operand_not_infix (x : node) : operand x = true -> infix x = false.
Proof.
  unfold operand, infix, is_type. intros Hin%bool_decide_eq_true_1.
  apply bool_decide_eq_false_2. intros Heq. rewrite Heq in Hin.
  revert Hin. not_in_list.
Qed.

Lemma py_setitem_at {A : Type} (l1 l2 : list A) (v0 v : A) (i : Z) :
  i = Z.of_nat (length l1) ->
  py_setitem (l1 ++ v0 :: l2) i v = Ok (l1 ++ v :: l2).
Proof.
  intros ->. unfold py_setitem. rewrite length_app. simpl length.
  destruct (Z.leb_spec 0 (Z.of_nat (length l1))); [| lia].
  destruct (Z.ltb_spec (Z.of_nat (length l1))
              (Z.of_nat (length l1 + S (length l2)))); [| lia].
  simpl. rewrite Nat2Z.id.
  replace (length l1) with (length l1 + 0)%nat at 1 by lia.
  by rewrite insert_app_r.
Qed.

Lemma for_enumerate_cons {St A : Type} (body : St -> nat -> A -> res St)
    (st : St) (n : nat) (x : A) (l : list A) :
  for_enumerate body st n (x :: l)
  = (st' ← body st n x; for_enumerate body st' (S n) l).
Proof. reflexivity. Qed.

Lemma splitOp_mark_body_other (p : Z) (st : list bool) (n : nat) (x : node) :
  infix x = false \/ top p x = false -> splitOp_mark_body p st n x = Ok st.
Proof.
  unfold splitOp_mark_body, top. fold (infix x). intros [-> | Hlow]; [done |].
  destruct (infix x); [| done].
  destruct (Z.ltb_spec p (node_priority x)); [done |]. by rewrite Hlow.
Qed.

Lemma splitOp_mark_body_top (p : Z) (done l2 : list bool) (b : bool) (n : nat)
    (o : node) :
  infix o = true -> top p o = true -> n = S (length done) ->
  splitOp_mark_body p (done ++ b :: false :: false :: l2) n o
  = Ok (done ++ true :: true :: true :: l2).
Proof.
  unfold splitOp_mark_body, top. fold (infix o). intros -> Htop ->.
  rewrite Htop. apply Z.eqb_eq in Htop.
  destruct (Z.ltb_spec p (node_priority o)); [lia |].
  rewrite (py_setitem_at done _ b true) by lia. cbn [mbind res_bind].
  rewrite (app_cons_shift done true).
  rewrite (py_setitem_at (done ++ [true]) _ false true)
    by (rewrite length_app; simpl; lia).
  cbn [mbind res_bind]. rewrite (app_cons_shift (done ++ [true]) true).
  rewrite (py_setitem_at ((done ++ [true]) ++ [true]) _ false true)
    by (rewrite !length_app; simpl; lia).
  by rewrite <- !app_assoc.
Qed.

(** STEP 1 of [_splitOp] on an alternating stack. *)
Lemma splitOp_mark_loop (p : Z) (rest : list node) (x : node) :
  alternating (x :: rest) = true ->
  forall (done : list bool) (b : bool),
    for_enumerate (splitOp_mark_body p)
      (done ++ b :: replicate (length rest) false) (S (length done)) rest
    = Ok (done ++ markAlt p b (x :: rest)).
Proof.
  intros Halt. revert rest x Halt.
  apply (alternating_rest_ind
           (fun x rest => forall (done : list bool) (b : bool),
              _ = Ok (done ++ markAlt p b (x :: rest)))).
  - intros x Hx done b. reflexivity.
  - intros x o x' rest Hx Ho Halt IH done b.
    assert (Hx' : infix x' = false).
    { apply operand_not_infix. destruct rest as [|? ?]; [done |].
      simpl in Halt. by apply andb_prop in Halt as [[? ?]%andb_prop ?]. }
    change (markAlt p b (x :: o :: x' :: rest))
      with ((b || top p o) :: top p o :: markAlt p (top p o) (x' :: rest)).
    cbn [length replicate]. rewrite for_enumerate_cons.
    destruct (top p o) eqn:Htop.
    + rewrite (splitOp_mark_body_top p done _ b _ o Ho Htop eq_refl).
      cbn [mbind res_bind]. rewrite for_enumerate_cons.
      rewrite splitOp_mark_body_other by (by left). cbn [mbind res_bind].
      rewrite orb_true_r.
      specialize (IH (done ++ [true; true]) true).
      rewrite length_app in IH. simpl length in IH.
      replace (length done + 2)%nat with (S (S (length done))) in IH by lia.
      rewrite <- !app_assoc in IH. exact IH.
    + rewrite splitOp_mark_body_other by (by right).
      cbn [mbind res_bind]. rewrite for_enumerate_cons.
      rewrite splitOp_mark_body_other by (by left). cbn [mbind res_bind].
      rewrite orb_false_r.
      specialize (IH (done ++ [b; false]) false).
      rewrite length_app in IH. simpl length in IH.
      replace (length done + 2)%nat with (S (S (length done))) in IH by lia.
      rewrite <- !app_assoc in IH. exact IH.
Qed.

Lemma alternating_head (x : node) (rest : list node) :
  alternating (x :: rest) = true -> operand x = true.
Proof.
  destruct rest as [|o rest]; [done |]. simpl.
  by intros [[? ?]%andb_prop ?]%andb_prop.
Qed.

Lemma alternating_nonempty (stack : list node) :
  alternating stack = true -> exists x rest, stack = x :: rest.
Proof. destruct stack as [|x rest]; [done | by eauto]. Qed.

Lemma splitOp_mark_alternating (p : Z) (stack : list node) :
  alternating stack = true ->
  splitOp_mark stack p = Ok (markAlt p false stack).
Proof.
  intros Halt. destruct (alternating_nonempty _ Halt) as (x & rest & ->).
  unfold splitOp_mark. cbn [length replicate]. rewrite for_enumerate_cons.
  rewrite splitOp_mark_body_other
    by (left; apply operand_not_infix; by eapply alternating_head).
  cbn [mbind res_bind].
  exact (splitOp_mark_loop p rest x Halt [] false).
Qed.

Lemma markAlt_length (p : Z) (stack : list node) (x : node) (b : bool) :
  alternating (x :: stack) = true ->
  length (markAlt p b (x :: stack)) = S (length stack).
Proof.
  intros Halt. revert stack x Halt b.
  apply (alternating_rest_ind
           (fun x rest => forall b, length (markAlt p b (x :: rest)) = S (length rest))).
  - done.
  - intros x o x' rest _ _ _ IH b.
    change (markAlt p b (x :: o :: x' :: rest))
      with ((b || top p o) :: top p o :: markAlt p (top p o) (x' :: rest)).
    cbn [length]. by rewrite IH.
Qed.

Lemma splitOp_cut_body_eq (nElements : nat) (isTopElement : list bool)
    (tmp : list node) (chunksOut : list (list node)) (chunkIsTop : list bool)
    (n : nat) (element : node) (before here : bool) :
  n <> 0%nat ->
  isTopElement !! (n - 1)%nat = Some before -> isTopElement !! n = Some here ->
  splitOp_cut_body nElements isTopElement (tmp, chunksOut, chunkIsTop) n element
  = if negb (bool_decide (before = here)) then
      if (n =? nElements - 1)%nat then
        Ok (tmp, (chunksOut ++ [tmp]) ++ [[element]],
            (chunkIsTop ++ [before]) ++ [here])
      else Ok ([element], chunksOut ++ [tmp], chunkIsTop ++ [before])
    else
      if (n =? nElements - 1)%nat then
        Ok (tmp ++ [element], chunksOut ++ [tmp ++ [element]], chunkIsTop ++ [here])
      else Ok (tmp ++ [element], chunksOut, chunkIsTop).
Proof.
  intros Hn Hb Hh. unfold splitOp_cut_body.
  by rewrite (proj2 (Nat.eqb_neq _ _) Hn), Hb, Hh.
Qed.

(** STEP 2 of [_splitOp]: the chunks are the runs of equal marks. *)
Lemma splitOp_cut_loop (isTopElement : list bool) (suffix : list node) :
  forall (prefix tmp : list node) (chunksOut : list (list node))
         (chunkIsTop : list bool) (flag : bool),
    suffix <> [] -> prefix <> [] ->
    length isTopElement = length (prefix ++ suffix) ->
    isTopElement !! (length prefix - 1)%nat = Some flag ->
    exists tmp',
      for_enumerate (splitOp_cut_body (length (prefix ++ suffix)) isTopElement)
        (tmp, chunksOut, chunkIsTop) (length prefix) suffix
      = Ok (tmp',
            chunksOut ++ (group tmp flag (zip suffix (drop (length prefix) isTopElement))).*1,
            chunkIsTop ++ (group tmp flag (zip suffix (drop (length prefix) isTopElement))).*2).
Proof.
  induction suffix as [|e suffix IH];
    intros prefix tmp chunksOut chunkIsTop flag Hsuf Hpre Hlen Hflag; [done |].
  assert (Hn : (length prefix <> 0)%nat) by (by destruct prefix).
  destruct (lookup_lt_is_Some_2 isTopElement (length prefix)) as [here Hhere].
  { rewrite Hlen, length_app. simpl. lia. }
  rewrite (drop_S _ here _ Hhere). cbn [zip zip_with group].
  rewrite for_enumerate_cons.
  rewrite (splitOp_cut_body_eq _ _ _ _ _ _ _ flag here Hn Hflag Hhere).
  destruct suffix as [|e' suffix].
  - rewrite length_app. cbn [length].
    rewrite (proj2 (Nat.eqb_eq _ _)) by lia.
    case_bool_decide as Hsame; cbn [negb mbind res_bind for_enumerate group fmap list_fmap].
    + subst here. eexists. cbn [zip_with group fmap list_fmap fst snd]. reflexivity.
    + eexists. cbn [zip_with group fmap list_fmap fst snd].
      by rewrite <- !app_assoc.
  - rewrite (proj2 (Nat.eqb_neq _ _))
      by (rewrite length_app; cbn [length]; lia).
    replace (prefix ++ e :: e' :: suffix) with ((prefix ++ [e]) ++ e' :: suffix) in *
      by (by rewrite <- app_assoc).
    assert (Hlen' : S (length prefix) = length (prefix ++ [e]))
      by (rewrite length_app; simpl; lia).
    rewrite Hlen'.
    case_bool_decide as Hsame; cbn [negb mbind res_bind].
    + subst here.
      destruct (IH (prefix ++ [e]) (tmp ++ [e]) chunksOut chunkIsTop flag)
        as [tmp' Htmp']; [done | by destruct prefix | done | |].
      { rewrite <- Hlen'. by replace (S (length prefix) - 1)%nat with (length prefix) by lia. }
      exists tmp'. exact Htmp'.
    + destruct (IH (prefix ++ [e]) [e] (chunksOut ++ [tmp]) (chunkIsTop ++ [flag]) here)
        as [tmp' Htmp']; [done | by destruct prefix | done | |].
      { rewrite <- Hlen'. by replace (S (length prefix) - 1)%nat with (length prefix) by lia. }
      exists tmp'. rewrite Htmp'. cbn [fmap list_fmap fst snd].
      by rewrite <- !app_assoc.
Qed.

Lemma splitOp_cut_group (x0 x1 : node) (rest : list node) (b0 : bool)
    (marks : list bool) :
  length marks = S (length rest) ->
  exists tmp',
    splitOp_cut (x0 :: x1 :: rest) (b0 :: marks)
    = Ok (tmp', (group [x0] b0 (zip (x1 :: rest) marks)).*1,
          (group [x0] b0 (zip (x1 :: rest) marks)).*2).
Proof.
  intros Hlen. unfold splitOp_cut. rewrite for_enumerate_cons.
  change (splitOp_cut_body (length (x0 :: x1 :: rest)) (b0 :: marks) ([], [], []) 0 x0)
    with (Ok ([x0], @nil (list node), @nil bool)).
  cbn [mbind res_bind].
  destruct (splitOp_cut_loop (b0 :: marks) (x1 :: rest) [x0] [x0] [] [] b0)
    as [tmp' Htmp']; [done | done | simpl; lia | done |].
  exists tmp'. exact Htmp'.
Qed.

Lemma nest_merge_body_eq (fuel : nat) (chunks : list (list node))
    (chunkNeedsMacro : list bool) (newStack : list node) (i : nat)
    (chunk : list node) (needsMacro : bool) :
  chunkNeedsMacro !! i = Some needsMacro -> chunks !! i = Some chunk ->
  nest_merge_body fuel chunks chunkNeedsMacro newStack i
  = if needsMacro then
      fbind (Macroleaf_init fuel "id" chunk)
        (fun r => Some (Ok (newStack ++ [r.1])))
    else Some (Ok (newStack ++ chunk)).
Proof.
  intros Hf Hc. unfold nest_merge_body. rewrite Hf, Hc.
  destruct needsMacro; [| done].
  by destruct (Macroleaf_init fuel "id" chunk) as [[[? ?]|]|].
Qed.

(** STEP 3 of [nest] on the chunks of STEP 2, when the macros can be built. *)
Lemma nest_merge_loop (fuel : nat) (G2 : list (list node * bool)) :
  forall (G1 : list (list node * bool)) (newStack : list node),
    (forall chunk, (chunk, true) ∈ G2 ->
       Macroleaf_init fuel "id" chunk = Some (Ok (Macro "id" [chunk], []))) ->
    ffor (nest_merge_body fuel (G1 ++ G2).*1 (G1 ++ G2).*2) newStack
      (seq (length G1) (length G2))
    = Some (Ok (newStack ++ concat (wrap <$> G2))).
Proof.
  induction G2 as [|[chunk flag] G2 IH]; intros G1 newStack Hmacro.
  - simpl. by rewrite app_nil_r.
  - cbn [length seq ffor].
    rewrite (nest_merge_body_eq _ _ _ _ _ chunk flag).
    2:{ rewrite list_lookup_fmap, lookup_app_r by lia. by rewrite Nat.sub_diag. }
    2:{ rewrite list_lookup_fmap, lookup_app_r by lia. by rewrite Nat.sub_diag. }
    assert (Hrest : ffor (nest_merge_body fuel (G1 ++ (chunk, flag) :: G2).*1
                            (G1 ++ (chunk, flag) :: G2).*2)
                      (newStack ++ wrap (chunk, flag)) (seq (S (length G1)) (length G2))
                    = Some (Ok ((newStack ++ wrap (chunk, flag)) ++ concat (wrap <$> G2)))).
    { specialize (IH (G1 ++ [(chunk, flag)]) (newStack ++ wrap (chunk, flag))).
      rewrite length_app, <- app_assoc in IH. cbn [length] in IH.
      replace (length G1 + 1)%nat with (S (length G1)) in IH by lia.
      apply IH. intros c Hc. apply Hmacro. by apply list_elem_of_further. }
    cbn [concat fmap list_fmap]. rewrite app_assoc.
    destruct flag.
    + rewrite (Hmacro chunk) by apply list_elem_of_here.
      cbn [fbind fst]. exact Hrest.
    + cbn [fbind]. exact Hrest.
Qed.

Lemma nest_merge_group (fuel : nat) (G : list (list node * bool)) :
  (forall chunk, (chunk, true) ∈ G ->
     Macroleaf_init fuel "id" chunk = Some (Ok (Macro "id" [chunk], []))) ->
  nest_merge fuel G.*1 G.*2 = Some (Ok (concat (wrap <$> G))).
Proof.
  intros Hmacro. unfold nest_merge. rewrite length_fmap.
  exact (nest_merge_loop fuel G [] [] Hmacro).
Qed.

(** *** Building the macro of a chunk *)

Lemma buildStack_unfold (fuel : nat) (tokenList stack : list node) :
  buildStack (S fuel) tokenList stack
  = match tokenList with
    | currToken :: ((_ :: _) as tail) =>
        if bool_decide (node_type currToken
                          ∈ ["CONSTANT"; "VAR"; "NUMBER"; "INFIX"; "MACRO"]) then
          buildStack fuel tail (stack ++ [currToken])
        else if is_type currToken "FUNCTION" then
          let tailNoParenthesis := drop 1 tail in
          '(M, remainder) ⟵ Macroleaf_init fuel (node_name currToken) tailNoParenthesis;
          buildStack fuel remainder (stack ++ [M])
        else if is_type currToken "BRKT_OPEN" then
          '(M, remainder) ⟵ Macroleaf_init fuel "id" tail;
          buildStack fuel remainder (stack ++ [M])
        else if is_type currToken "COMMA" then Some (Ok (stack, tail))
        else if is_type currToken "BRKT_CLOSE" then Some (Ok (stack, tail))
        else Some (Ok (stack, []))
    | [currToken] =>
        if bool_decide (node_type currToken ∈ ["CONSTANT"; "VAR"; "NUMBER"; "MACRO"])
        then Some (Ok (stack ++ [currToken], []))
        else if is_type currToken "BRKT_CLOSE" then Some (Ok (stack, []))
        else Some (Ok (stack, []))
    | [] => Some (Ok (stack, []))
    end.
Proof. reflexivity. Qed.

Lemma Macroleaf_init_unfold (fuel : nat) (function : string) (tokenList : list node) :
  Macroleaf_init (S (S fuel)) function tokenList
  = ('(stack, remainder) ⟵ buildStack fuel tokenList [];
     '(args, remainder) ⟵
        (if stoppedAtComma tokenList remainder
         then collectArgs fuel remainder ([] ++ [stack])
         else Some (Ok ([] ++ [stack], remainder)));
     if bool_decide (declaredArity function = Some (length args))
     then Some (Ok (Macro function args, remainder))
     else Some (Raise ArityError)).
Proof.
  cbn [Macroleaf_init collectArgs].
  destruct (buildStack fuel tokenList []) as [[[stack remainder]|]|]; try reflexivity.
Qed.

Lemma operand_types (x : node) :
  operand x = true ->
  bool_decide (node_type x ∈ ["CONSTANT"; "VAR"; "NUMBER"; "INFIX"; "MACRO"]) = true
  /\ bool_decide (node_type x ∈ ["CONSTANT"; "VAR"; "NUMBER"; "MACRO"]) = true.
Proof.
  unfold operand. intros Hin%bool_decide_eq_true_1.
  split; apply bool_decide_eq_true_2;
    repeat (apply elem_of_cons in Hin as [-> | Hin]; [repeat constructor |]);
    by apply elem_of_nil in Hin.
Qed.

Lemma infix_type (o : node) :
  infix o = true ->
  bool_decide (node_type o ∈ ["CONSTANT"; "VAR"; "NUMBER"; "INFIX"; "MACRO"]) = true.
Proof.
  unfold infix, is_type. intros ->%bool_decide_eq_true_1.
  apply bool_decide_eq_true_2. repeat constructor.
Qed.

(** An alternating list of nodes is pushed whole on the stack. *)
Lemma buildStack_alternating (rest : list node) (x : node) :
  alternating (x :: rest) = true ->
  forall (fuel : nat) (stack : list node),
    (length (x :: rest) < fuel)%nat ->
    buildStack fuel (x :: rest) stack = Some (Ok (stack ++ x :: rest, [])).
Proof.
  intros Halt. revert rest x Halt.
  apply (alternating_rest_ind
           (fun x rest => forall (fuel : nat) (stack : list node),
              (length (x :: rest) < fuel)%nat ->
              buildStack fuel (x :: rest) stack = Some (Ok (stack ++ x :: rest, [])))).
  - intros x Hx [|fuel] stack Hfuel; [simpl in Hfuel; lia |].
    rewrite buildStack_unfold. by rewrite (proj2 (operand_types x Hx)).
  - intros x o x' rest Hx Ho Halt IH [|[|fuel]] stack Hfuel;
      [simpl in Hfuel; lia.. |].
    rewrite buildStack_unfold, (proj1 (operand_types x Hx)).
    rewrite buildStack_unfold, (infix_type o Ho).
    rewrite IH by (simpl in *; lia). by rewrite <- !app_assoc.
Qed.

Lemma Macroleaf_init_alternating (fuel : nat) (chunk : list node) :
  alternating chunk = true -> (length chunk + 3 <= fuel)%nat ->
  Macroleaf_init fuel "id" chunk = Some (Ok (Macro "id" [chunk], [])).
Proof.
  intros Halt Hfuel. destruct (alternating_nonempty _ Halt) as (x & rest & ->).
  destruct fuel as [|[|fuel]]; [lia.. |].
  rewrite Macroleaf_init_unfold.
  rewrite (buildStack_alternating rest x Halt) by (simpl in *; lia).
  reflexivity.
Qed.

(** *** The chunks of an alternating stack *)

Lemma alternating_snoc2 (cur : list node) (o x : node) :
  alternating cur = true -> infix o = true -> operand x = true ->
  alternating (cur ++ [o; x]) = true.
Proof.
  intros Hcur Ho Hx. destruct (alternating_nonempty _ Hcur) as (c & crest & ->).
  revert crest c Hcur.
  apply (alternating_rest_ind
           (fun c crest => alternating ((c :: crest) ++ [o; x]) = true)).
  - intros c Hc. simpl. by rewrite Hc, Ho, Hx.
  - intros c o' c' crest Hc Ho' _ IH.
    change (operand c && infix o' && alternating ((c' :: crest) ++ [o; x]) = true).
    by rewrite Hc, Ho', IH.
Qed.

Lemma markAlt_head (p : Z) (before : bool) (x : node) (rest : list node) :
  alternating (x :: rest) = true ->
  markAlt p before (x :: rest)
  = (before || nextTop p rest) :: tail (markAlt p before (x :: rest)).
Proof.
  destruct rest as [|o [|x' rest]]; intros Halt.
  - simpl. by rewrite orb_false_r.
  - simpl in Halt. by rewrite andb_false_r in Halt.
  - reflexivity.
Qed.

Lemma wrapRun_long (run : list node) :
  (3 <= length run)%nat -> wrapRun run = [Macro "id" [run]].
Proof. destruct run as [|? [|? ?]]; simpl; [lia.. | done]. Qed.

Lemma group_marks (p : Z) (rest : list node) (x : node) :
  alternating (x :: rest) = true ->
  forall (before : bool) (cur : list node),
    let G := group cur (before || nextTop p rest)
               (zip rest (tail (markAlt p before (x :: rest)))) in
    (before || nextTop p rest = true -> alternating cur = true ->
     (3 <= length cur)%nat \/ nextTop p rest = true ->
     concat (wrap <$> G) = regroup p cur rest
     /\ forall chunk, (chunk, true) ∈ G ->
          alternating chunk = true
          /\ (length chunk <= length cur + length rest)%nat)
    /\ (before || nextTop p rest = false -> forall pre, cur = pre ++ [x] ->
        concat (wrap <$> G) = pre ++ regroup p [x] rest
        /\ forall chunk, (chunk, true) ∈ G ->
             alternating chunk = true /\ (length chunk <= length rest)%nat).
Proof.
  intros Halt. revert rest x Halt.
  apply (alternating_rest_ind
    (fun x rest => forall (before : bool) (cur : list node),
       let G := group cur (before || nextTop p rest)
                  (zip rest (tail (markAlt p before (x :: rest)))) in
       (before || nextTop p rest = true -> alternating cur = true ->
        (3 <= length cur)%nat \/ nextTop p rest = true ->
        concat (wrap <$> G) = regroup p cur rest
        /\ forall chunk, (chunk, true) ∈ G ->
             alternating chunk = true
             /\ (length chunk <= length cur + length rest)%nat)
       /\ (before || nextTop p rest = false -> forall pre, cur = pre ++ [x] ->
           concat (wrap <$> G) = pre ++ regroup p [x] rest
           /\ forall chunk, (chunk, true) ∈ G ->
                alternating chunk = true /\ (length chunk <= length rest)%nat))).
  - intros x Hx before cur. cbn [nextTop zip_with markAlt tail group].
    rewrite orb_false_r. split.
    + intros -> Hcur [Hlen | ?]; [| done]. cbn [fmap list_fmap concat wrap fst snd regroup].
      rewrite (wrapRun_long cur Hlen). split; [by rewrite app_nil_r |].
      intros chunk [[= ->] | Hin%elem_of_nil]%elem_of_cons; [| done].
      split; [done | lia].
    + intros -> pre ->. cbn [fmap list_fmap concat wrap fst snd regroup wrapRun].
      split; [by rewrite app_nil_r |].
      intros chunk [[= _] | Hin%elem_of_nil]%elem_of_cons; done.
  - intros x o x' rest Hx Ho Halt IH before cur.
    assert (Hx' : operand x' = true) by (by eapply alternating_head).
    change (tail (markAlt p before (x :: o :: x' :: rest)))
      with (top p o :: markAlt p (top p o) (x' :: rest)).
    rewrite (markAlt_head p (top p o) x' rest Halt).
    cbn [nextTop zip_with regroup]. cbn [group].
    specialize (IH (top p o)). cbn zeta in IH.
    destruct (top p o) eqn:Htop.
    + (* the operator extends the run *)
      rewrite orb_true_r. cbn [orb]. rewrite !bool_decide_eq_true_2 by done.
      split; [| done]. intros _ Hcur _.
      assert (Hcur1 : (1 <= length cur)%nat) by (destruct cur; [done | simpl; lia]).
      destruct (IH ((cur ++ [o]) ++ [x'])) as [IHt _].
      rewrite <- app_assoc in IHt. cbn [app] in IHt.
      destruct IHt as [Heq Hchunks];
        [done | by apply alternating_snoc2 | left; rewrite length_app; simpl; lia |].
      rewrite <- app_assoc. cbn [app]. split; [done |].
      intros chunk Hin. destruct (Hchunks chunk Hin) as [? Hlen]. split; [done |].
      rewrite length_app in Hlen. simpl in *. lia.
    + rewrite orb_false_r. cbn [orb].
      destruct before.
      * (* the run ends here *)
        split; [| done]. intros _ Hcur [Hlen | ?]; [| done].
        rewrite (bool_decide_eq_false_2 (true = false)) by done.
        rewrite (wrapRun_long cur Hlen).
        destruct (nextTop p rest) eqn:Hnext; cbn [orb] in IH.
        -- rewrite (bool_decide_eq_false_2 (false = true)) by done.
           destruct (IH [x']) as [IHt _].
           destruct IHt as [Heq Hchunks]; [done | by simpl | by right |].
           cbn [fmap list_fmap concat wrap fst snd]. fold (wrap <$> group [x'] true
             (zip rest (tail (markAlt p false (x' :: rest))))).
           cbn [fmap list_fmap concat wrap fst snd] in Heq |- *.
           rewrite Heq. split; [done |].
           intros chunk [[= ->] | [[= ?] | Hin]%elem_of_cons]%elem_of_cons.
           ++ split; [done | lia].
           ++ destruct (Hchunks chunk Hin) as [? Hl]. split; [done |]. simpl in *; lia.
        -- rewrite (bool_decide_eq_true_2 (false = false)) by done.
           destruct (IH ([o] ++ [x'])) as [_ IHf].
           destruct (IHf eq_refl [o] eq_refl) as [Heq Hchunks].
           cbn [fmap list_fmap concat wrap fst snd] in Heq |- *.
           rewrite Heq. split; [done |].
           intros chunk [[= ->] | Hin]%elem_of_cons.
           ++ split; [done | lia].
           ++ destruct (Hchunks chunk Hin) as [? Hl]. split; [done |]. simpl in *; lia.
      * (* no run is open *)
        split; [done |]. intros _ pre ->.
        rewrite (bool_decide_eq_true_2 (false = false)) by done.
        destruct (nextTop p rest) eqn:Hnext; cbn [orb] in IH.
        -- rewrite (bool_decide_eq_false_2 (false = true)) by done.
           destruct (IH [x']) as [IHt _].
           destruct IHt as [Heq Hchunks]; [done | by simpl | by right |].
           cbn [fmap list_fmap concat wrap fst snd wrapRun] in Heq |- *.
           rewrite Heq. split; [by rewrite <- !app_assoc |].
           intros chunk [[= ?] | Hin]%elem_of_cons.
           destruct (Hchunks chunk Hin) as [? Hl]. split; [done |]. simpl in *; lia.
        -- rewrite (bool_decide_eq_true_2 (false = false)) by done.
           destruct (IH (((pre ++ [x]) ++ [o]) ++ [x'])) as [_ IHf].
           destruct (IHf eq_refl ((pre ++ [x]) ++ [o]) eq_refl) as [Heq Hchunks].
           cbn [wrapRun]. rewrite Heq. split; [by rewrite <- !app_assoc |].
           intros chunk Hin.
           destruct (Hchunks chunk Hin) as [? Hl]. split; [done |]. simpl in *; lia.
Qed.

(** *** The new stack of one folding step *)

Lemma wrapRun_operand (run : list node) :
  alternating run = true ->
  exists w, wrapRun run = [w] /\ operand w = true.
Proof.
  destruct run as [|x [|o run]]; [done | |].
  - intros Hx. by exists x.
  - intros _. by eexists.
Qed.

Lemma regroup_alternating (p : Z) (rest : list node) (x : node) :
  alternating (x :: rest) = true ->
  forall run, alternating run = true -> alternating (regroup p run rest) = true.
Proof.
  intros Halt. revert rest x Halt.
  apply (alternating_rest_ind
           (fun x rest => forall run, alternating run = true ->
                                      alternating (regroup p run rest) = true)).
  - intros x _ run Hrun. cbn [regroup].
    destruct (wrapRun_operand run Hrun) as (w & -> & Hw). done.
  - intros x o x' rest _ Ho Halt IH run Hrun. cbn [regroup].
    assert (Hx' : operand x' = true) by (by eapply alternating_head).
    destruct (top p o).
    + apply IH. by apply alternating_snoc2.
    + destruct (wrapRun_operand run Hrun) as (w & -> & Hw).
      change (operand w && infix o && alternating (regroup p [x'] rest) = true).
      rewrite Hw, Ho. by apply IH.
Qed.

Lemma priorities_cons (e : node) (l : list node) :
  priorities (e :: l)
  = if infix e then node_priority e :: priorities l else priorities l.
Proof.
  unfold priorities. rewrite filter_cons.
  destruct (infix e); by case_decide.
Qed.

Lemma priorities_app (l1 l2 : list node) :
  priorities (l1 ++ l2) = priorities l1 ++ priorities l2.
Proof. unfold priorities. by rewrite filter_app, fmap_app. Qed.

Lemma regroup_priorities (p : Z) (rest : list node) (x : node) :
  alternating (x :: rest) = true ->
  forall run, alternating run = true ->
    priorities (regroup p run rest)
    = filter (fun q => q <> p) (priorities rest).
Proof.
  intros Halt. revert rest x Halt.
  apply (alternating_rest_ind
           (fun x rest => forall run, alternating run = true ->
              priorities (regroup p run rest)
              = filter (fun q => q <> p) (priorities rest))).
  - intros x _ run Hrun. cbn [regroup].
    destruct (wrapRun_operand run Hrun) as (w & -> & Hw).
    rewrite priorities_cons. by rewrite (operand_not_infix w Hw).
  - intros x o x' rest _ Ho Halt IH run Hrun. cbn [regroup].
    assert (Hx' : operand x' = true) by (by eapply alternating_head).
    rewrite (priorities_cons o), Ho, (priorities_cons x'),
      (operand_not_infix x' Hx').
    rewrite filter_cons. unfold top.
    destruct (Z.eqb_spec (node_priority o) p) as [Heq | Hne].
    + rewrite decide_False by (intros ?; done).
      apply IH. by apply alternating_snoc2.
    + rewrite decide_True by done.
      destruct (wrapRun_operand run Hrun) as (w & -> & Hw).
      cbn [app]. rewrite (priorities_cons w), (operand_not_infix w Hw).
      rewrite (priorities_cons o), Ho. f_equal. by apply IH.
Qed.

Lemma regroup_length (p : Z) (rest : list node) (x : node) :
  alternating (x :: rest) = true ->
  forall run, (length (regroup p run rest) <= S (length rest))%nat.
Proof.
  intros Halt. revert rest x Halt.
  apply (alternating_rest_ind
           (fun x rest => forall run,
              (length (regroup p run rest) <= S (length rest))%nat)).
  - intros x _ run. cbn [regroup]. destruct run as [|? [|? ?]]; simpl; lia.
  - intros x o x' rest _ _ _ IH run. cbn [regroup].
    destruct (top p o).
    + specialize (IH (run ++ [o; x'])). simpl. lia.
    + rewrite length_app. specialize (IH [x']).
      destruct run as [|? [|? ?]]; simpl in *; lia.
Qed.

(** Two different marks make two chunks at least. *)
Lemma group_nonempty (cur : list node) (flag : bool) (l : list (node * bool)) :
  (1 <= length (group cur flag l))%nat.
Proof.
  revert cur flag; induction l as [|[e b] l IH]; intros cur flag; simpl; [lia |].
  case_bool_decide; [apply IH | simpl; lia].
Qed.

Lemma group_two (cur : list node) (flag : bool) (l : list (node * bool))
    (e : node) (b : bool) :
  (e, b) ∈ l -> b <> flag -> (2 <= length (group cur flag l))%nat.
Proof.
  revert cur flag; induction l as [|[e' b'] l IH]; intros cur flag Hin Hb;
    [by apply elem_of_nil in Hin |].
  simpl. case_bool_decide as Hsame.
  - subst b'. apply elem_of_cons in Hin as [[= -> ->] | Hin]; [done |].
    by apply IH.
  - simpl. pose proof (group_nonempty [e'] b' l). lia.
Qed.

Lemma markAlt_infix (p : Z) (rest : list node) (x : node) :
  alternating (x :: rest) = true ->
  forall before o, o ∈ rest -> infix o = true ->
    (o, top p o) ∈ zip rest (tail (markAlt p before (x :: rest))).
Proof.
  intros Halt. revert rest x Halt.
  apply (alternating_rest_ind
           (fun x rest => forall before o, o ∈ rest -> infix o = true ->
              (o, top p o) ∈ zip rest (tail (markAlt p before (x :: rest))))).
  - intros x _ before o Hin. by apply elem_of_nil in Hin.
  - intros x o' x' rest _ Ho' Halt IH before o Hin Ho.
    assert (Hx' : operand x' = true) by (by eapply alternating_head).
    change (tail (markAlt p before (x :: o' :: x' :: rest)))
      with (top p o' :: markAlt p (top p o') (x' :: rest)).
    rewrite (markAlt_head p (top p o') x' rest Halt). cbn [zip_with].
    apply elem_of_cons in Hin as [-> | Hin]; [apply list_elem_of_here |].
    apply elem_of_cons in Hin as [-> | Hin].
    + rewrite (operand_not_infix x' Hx') in Ho. done.
    + do 2 apply list_elem_of_further. by apply IH.
Qed.

(** One turn of the loop of [nest] on an alternating stack that has an
    operator of priority [p] and an operator of another priority. *)
Lemma nest_body_alternating (p : Z) (x : node) (rest : list node) (fuel : nat)
    (o o' : node) :
  alternating (x :: rest) = true ->
  o ∈ rest -> infix o = true -> top p o = true ->
  o' ∈ rest -> infix o' = true -> top p o' = false ->
  (length (x :: rest) + 3 <= fuel)%nat ->
  nest_body fuel (x :: rest) p = Some (Ok (regroup p [x] rest)).
Proof.
  intros Halt Hin Ho Htop Hin' Ho' Htop' Hfuel.
  assert (Hx : operand x = true) by (by eapply alternating_head).
  unfold nest_body, splitOp.
  rewrite (splitOp_mark_alternating p _ Halt), (markAlt_head p false x rest Halt).
  cbn [mbind res_bind orb].
  set (marks := tail (markAlt p false (x :: rest))).
  set (G := group [x] (nextTop p rest) (zip rest marks)).
  assert (Hmarks : length marks = length rest).
  { assert (H := markAlt_length p rest x false Halt).
    rewrite (markAlt_head p false x rest Halt) in H. cbn [length] in H.
    unfold marks. lia. }
  destruct rest as [|x1 rest1]; [by apply elem_of_nil in Hin |].
  destruct (splitOp_cut_group x x1 rest1 (nextTop p (x1 :: rest1)) marks Hmarks)
    as [tmp' ->].
  fold G. cbn [fbind mbind res_bind]. cbv beta iota.
  assert (HG2 : (2 <= length G)%nat).
  { pose proof (markAlt_infix p _ x Halt false o Hin Ho) as Hm.
    pose proof (markAlt_infix p _ x Halt false o' Hin' Ho') as Hm'.
    rewrite Htop in Hm. rewrite Htop' in Hm'. fold marks in Hm, Hm'.
    destruct (nextTop p (x1 :: rest1)) eqn:Hnext.
    - by apply (group_two _ _ _ o' false).
    - by apply (group_two _ _ _ o true). }
  rewrite length_fmap. destruct (Nat.ltb_spec 1 (length G)) as [_ | ?]; [| lia].
  pose proof (group_marks p (x1 :: rest1) x Halt false [x]) as [HT HF].
  cbn zeta in HT, HF. cbn [orb] in HT, HF. fold marks in HT, HF. fold G in HT, HF.
  assert (Hres : concat (wrap <$> G) = regroup p [x] (x1 :: rest1)
                 /\ forall chunk, (chunk, true) ∈ G ->
                      alternating chunk = true
                      /\ (length chunk <= length (x :: x1 :: rest1))%nat).
  { destruct (nextTop p (x1 :: rest1)) eqn:Hnext.
    - destruct HT as [Heq Hchunks]; [done | by simpl | by right |].
      split; [done |]. intros chunk Hc. destruct (Hchunks chunk Hc). split; [done |].
      simpl in *. lia.
    - destruct (HF eq_refl [] eq_refl) as [Heq Hchunks].
      split; [done |]. intros chunk Hc. destruct (Hchunks chunk Hc). split; [done |].
      simpl in *. lia. }
  destruct Hres as [Heq Hchunks].
  rewrite nest_merge_group; [by rewrite Heq |].
  intros chunk Hc. destruct (Hchunks chunk Hc) as [Hca Hcl].
  apply Macroleaf_init_alternating; [done | lia].
Qed.

(** *** The range of the priorities *)

Lemma getPriorityRange_loop (l : list node) :
  forall (seen : list Z) (range : Z * Z),
    rangeOf seen range -> bounded (priorities l) ->
    rangeOf (seen ++ priorities l) (foldl getPriorityRange_body range l).
Proof.
  induction l as [|e l IH]; intros seen range Hinv Hb.
  - simpl. by rewrite app_nil_r.
  - cbn [foldl]. rewrite priorities_cons in Hb |- *.
    unfold getPriorityRange_body at 2. destruct range as [mn mx].
    fold (infix e). destruct (infix e); [| by apply IH].
    apply Forall_cons in Hb as [Hq Hb].
    rewrite (app_cons_shift seen). apply IH; [| done].
    set (q := node_priority e) in *. right. cbn [fst snd].
    destruct Hinv as [[-> [= -> ->]] | (Hmn & Hmx & Hall)]; cbn [fst snd] in *.
    + destruct (Z.ltb_spec (-1) q); [| lia]. destruct (Z.ltb_spec q 100); [| lia].
      cbn [app]. split; [apply list_elem_of_here |].
      split; [apply list_elem_of_here |].
      intros q' [-> | Hin%elem_of_nil]%elem_of_cons; [lia | done].
    + assert (Hmn' := Hall mn Hmn).
      split; [| split].
      * destruct (Z.ltb_spec q mn); rewrite elem_of_app, list_elem_of_singleton; auto.
      * destruct (Z.ltb_spec mx q); rewrite elem_of_app, list_elem_of_singleton; auto.
      * intros q' [Hin | ->%list_elem_of_singleton]%elem_of_app.
        -- specialize (Hall q' Hin).
           destruct (Z.ltb_spec q mn), (Z.ltb_spec mx q); lia.
        -- destruct (Z.ltb_spec q mn), (Z.ltb_spec mx q); lia.
Qed.

Lemma getPriorityRange_spec (stack : list node) :
  bounded (priorities stack) ->
  rangeOf (priorities stack) (getPriorityRange stack).
Proof.
  intros Hb. apply (getPriorityRange_loop stack [] (100, -1)); [by left | done].
Qed.

(** *** The loop of [nest] *)

Lemma priorities_elem (stack : list node) (q : Z) :
  q ∈ priorities stack
  <-> exists o, o ∈ stack /\ infix o = true /\ node_priority o = q.
Proof.
  unfold priorities. rewrite list_elem_of_fmap. split.
  - intros (o & -> & [Ho Hin]%list_elem_of_filter). by exists o.
  - intros (o & Hin & Ho & <-). exists o. split; [done |].
    by apply list_elem_of_filter.
Qed.

(** Leaving out a priority that occurs leaves fewer distinct priorities. *)
Lemma levels_filter (p : Z) (l : list Z) :
  p ∈ l ->
  (length (remove_dups (filter (fun q => q <> p) l)) < length (remove_dups l))%nat.
Proof.
  intros Hp. set (l' := remove_dups (filter (fun q => q <> p) l)).
  assert (Hsub : p :: l' ⊆+ remove_dups l).
  { apply NoDup_submseteq.
    - apply NoDup_cons. split; [| apply NoDup_remove_dups].
      unfold l'. rewrite elem_of_remove_dups, list_elem_of_filter. by intros [? _].
    - intros q [-> | Hq]%elem_of_cons; rewrite elem_of_remove_dups; [done |].
      unfold l' in Hq. rewrite elem_of_remove_dups, list_elem_of_filter in Hq.
      by destruct Hq. }
  apply submseteq_length in Hsub. simpl in Hsub. lia.
Qed.

Lemma nest_while_unfold (fuel : nat) (stack : list node) (range : Z * Z) :
  nest_while fuel stack range
  = if negb (range.2 =? range.1) then
      match fuel with
      | O => None
      | S fuel' =>
          stack ⟵ nest_body fuel' stack range.2;
          nest_while fuel' stack (getPriorityRange stack)
      end
    else Some (Ok stack).
Proof. destruct fuel, range; reflexivity. Qed.

Lemma uniform_of_range (stack : list node) (m : Z) :
  rangeOf (priorities stack) (m, m) -> uniformPriority stack.
Proof.
  intros [[Hnil _] | (_ & _ & Hall)] a b Ha Hb Hia Hib.
  - assert (Hin : node_priority a ∈ priorities stack)
      by (apply priorities_elem; by exists a).
    rewrite Hnil in Hin. by apply elem_of_nil in Hin.
  - assert (Hqa : node_priority a ∈ priorities stack)
      by (apply priorities_elem; by exists a).
    assert (Hqb : node_priority b ∈ priorities stack)
      by (apply priorities_elem; by exists b).
    apply Hall in Hqa, Hqb. simpl in *. lia.
Qed.

(** With enough fuel the loop of [nest] ends, on a stack whose operators all
    have one priority. *)
Lemma nest_while_terminates (n : nat) :
  forall (stack : list node) (fuel : nat),
    (priorityLevels stack <= n)%nat ->
    alternating stack = true -> bounded (priorities stack) ->
    priorities stack <> [] ->
    (n + length stack + 4 <= fuel)%nat ->
    exists result,
      nest_while fuel stack (getPriorityRange stack) = Some (Ok result)
      /\ uniformPriority result /\ alternating result = true.
Proof.
  induction n as [|n IH]; intros stack fuel Hlev Halt Hb Hne Hfuel;
    rewrite nest_while_unfold;
    pose proof (getPriorityRange_spec stack Hb) as Hrange;
    destruct (getPriorityRange stack) as [mn mx]; cbn [fst snd];
    (destruct (Z.eqb_spec mx mn) as [-> | Hdiff]; cbn [negb];
     [exists stack; split; [done |]; split; [by eapply uniform_of_range | done] |]);
    (destruct Hrange as [[Hnil _] | (Hmn & Hmx & Hall)]; [done |]);
    cbn [fst snd] in *;
    destruct (alternating_nonempty _ Halt) as (x & rest & ->);
    assert (Hx : operand x = true) by (by eapply alternating_head);
    assert (Hpr : priorities (x :: rest) = priorities rest)
      by (by rewrite priorities_cons, (operand_not_infix x Hx));
    rewrite Hpr in *;
    pose proof (levels_filter mx (priorities rest) Hmx) as Hless;
    unfold priorityLevels in Hlev; rewrite Hpr in Hlev.
  - lia.
  - destruct fuel as [|fuel]; [lia |].
    apply priorities_elem in Hmx as (o & Hin & Ho & Hpo).
    apply priorities_elem in Hmn as (o' & Hin' & Ho' & Hpo').
    rewrite (nest_body_alternating mx x rest fuel o o'); try done.
    2:{ unfold top. by apply Z.eqb_eq. }
    2:{ unfold top. apply Z.eqb_neq. lia. }
    2:{ simpl in *. lia. }
    cbn [fbind].
    pose proof (regroup_priorities mx rest x Halt [x] Hx) as Hnew.
    apply IH.
    + unfold priorityLevels. rewrite Hnew. lia.
    + by apply (regroup_alternating mx rest x).
    + rewrite Hnew. unfold bounded in *. rewrite Forall_forall in Hb |- *.
      intros q [_ Hq]%list_elem_of_filter. by apply Hb.
    + rewrite Hnew. intros Hnil.
      assert (Hin0 : mn ∈ filter (fun q => q <> mx) (priorities rest)).
      { apply list_elem_of_filter. split; [done |].
        apply priorities_elem. by exists o'. }
      rewrite Hnil in Hin0. by apply elem_of_nil in Hin0.
    + pose proof (regroup_length mx rest x Halt [x]). simpl in *. lia.
Qed.

(** *** CHECK 2 and the macros *)

Lemma nest_check_body_even (nInfix n : nat) (x : node) :
  (n mod 2 = 0)%nat -> operand x = true -> nest_check_body nInfix n x = Ok nInfix.
Proof.
  intros Hn Hx. unfold nest_check_body. rewrite Hn. cbn [Nat.eqb].
  fold (operand x). by rewrite Hx.
Qed.

Lemma nest_check_body_odd (nInfix n : nat) (o : node) :
  (n mod 2 = 1)%nat -> infix o = true ->
  nest_check_body nInfix n o = Ok (nInfix + 1)%nat.
Proof.
  intros Hn Ho. unfold nest_check_body. rewrite Hn. cbn [Nat.eqb].
  fold (infix o). by rewrite Ho.
Qed.

Lemma nest_check_loop (rest : list node) (x : node) :
  alternating (x :: rest) = true ->
  forall (nInfix n : nat), (n mod 2 = 0)%nat ->
    for_enumerate nest_check_body nInfix n (x :: rest)
    = Ok (nInfix + length (priorities (x :: rest)))%nat.
Proof.
  intros Halt. revert rest x Halt.
  apply (alternating_rest_ind
           (fun x rest => forall (nInfix n : nat), (n mod 2 = 0)%nat ->
              for_enumerate nest_check_body nInfix n (x :: rest)
              = Ok (nInfix + length (priorities (x :: rest)))%nat)).
  - intros x Hx nInfix n Hn. rewrite for_enumerate_cons.
    rewrite (nest_check_body_even _ _ _ Hn Hx). cbn [mbind res_bind for_enumerate].
    rewrite priorities_cons, (operand_not_infix x Hx). simpl. f_equal. lia.
  - intros x o x' rest Hx Ho Halt IH nInfix n Hn.
    rewrite for_enumerate_cons.
    rewrite (nest_check_body_even _ _ _ Hn Hx). cbn [mbind res_bind].
    rewrite for_enumerate_cons.
    rewrite (nest_check_body_odd _ (S n) o) by
      (try done; rewrite <- Nat.add_1_r, Nat.Div0.add_mod, Hn by lia; reflexivity).
    cbn [mbind res_bind].
    rewrite IH.
    2:{ replace (S (S n)) with (n + 2)%nat by lia.
        rewrite Nat.Div0.add_mod, Hn by lia. reflexivity. }
    rewrite (priorities_cons x), (operand_not_infix x Hx), (priorities_cons o), Ho.
    cbn [length]. f_equal. lia.
Qed.

Lemma nest_check_alternating (stack : list node) :
  alternating stack = true -> nest_check stack = Ok (length (priorities stack)).
Proof.
  intros Halt. destruct (alternating_nonempty _ Halt) as (x & rest & ->).
  unfold nest_check. by rewrite (nest_check_loop rest x Halt 0 0).
Qed.

Lemma in_macro_shape (pass : list node -> option (res (list node)))
    (elt elt' : node) :
  in_macro pass elt = Some (Ok elt') -> sameShape elt elt'.
Proof.
  destruct elt as [t | function args]; [discriminate |]. simpl.
  destruct (ffor _ _ _) as [[args'|]|]; simpl; [| discriminate..].
  by intros [= <-].
Qed.

Lemma for_macros_loop (pass : list node -> option (res (list node)))
    (stack : list node) :
  forall (done result : list node),
    ffor (for_macros_body pass) done stack = Some (Ok result) ->
    exists stack', result = done ++ stack' /\ Forall2 sameShape stack stack'.
Proof.
  induction stack as [|elt stack IH]; intros done result.
  - simpl. intros [= <-]. exists []. by rewrite app_nil_r.
  - cbn [ffor]. unfold for_macros_body at 1.
    destruct (is_type elt "MACRO").
    + destruct (in_macro pass elt) as [[elt'|]|] eqn:Helt; cbn [fbind];
        [| discriminate..].
      intros (stack' & -> & Hshape)%IH. exists (elt' :: stack').
      split; [by rewrite <- app_assoc |].
      constructor; [by eapply in_macro_shape | done].
    + cbn [fbind]. intros (stack' & -> & Hshape)%IH. exists (elt :: stack').
      split; [by rewrite <- app_assoc |]. by constructor.
Qed.

Lemma for_macros_shape (pass : list node -> option (res (list node)))
    (stack result : list node) :
  for_macros pass stack = Some (Ok result) -> Forall2 sameShape stack result.
Proof. by intros (stack' & -> & Hshape)%for_macros_loop. Qed.

Lemma sameShape_priorities (stack stack' : list node) :
  Forall2 sameShape stack stack' -> priorities stack' = priorities stack.
Proof.
  induction 1 as [|e e' l l' [Hty Hpr] _ IH]; [done |].
  rewrite !priorities_cons. unfold infix, is_type. by rewrite Hty, Hpr, IH.
Qed.

Lemma sameShape_alternating (stack stack' : list node) :
  Forall2 sameShape stack stack' -> alternating stack' = alternating stack.
Proof.
  intros H. revert stack' H.
  induction stack as [stack IH] using (induction_ltof1 _ (@length node)).
  unfold ltof in IH. intros stack' H.
  destruct H as [|x x' l l' [Hx _] H]; [done |].
  destruct H as [|o o' l l' [Ho _] H].
  - unfold alternating, operand. by rewrite Hx.
  - change (operand x' && infix o' && alternating l'
            = operand x && infix o && alternating l).
    unfold operand, infix, is_type. rewrite Hx, Ho.
    f_equal. apply IH; [simpl; lia | done].
Qed.

(** Induction on a node and on the stacks of its arguments. *)
Lemma node_nested_ind (P : node -> Prop) (Q : list node -> Prop) :
  (forall t, P (Leaf t)) ->
  (forall function args, Forall Q args -> P (Macro function args)) ->
  (forall stack, Forall P stack -> Q stack) ->
  forall elt, P elt.
Proof.
  intros Hleaf Hmacro Hstack. fix IH 1. intros [t | function args].
  - apply Hleaf.
  - apply Hmacro. induction args as [|stack args IHargs]; constructor; [| done].
    apply Hstack. induction stack as [|elt stack IHstack]; constructor; [| done].
    apply IH.
Qed.

Lemma in_macro_loop_converges (args : list (list node)) :
  Forall nestConverges args ->
  exists N, forall fuel, (N <= fuel)%nat -> forall done,
    exists r, ffor (in_macro_body (nest fuel)) done args = Some (Ok r).
Proof.
  induction 1 as [|stack args (N1 & H1) _ (N2 & H2)].
  - exists 0%nat. intros fuel _ done. by exists done.
  - exists (N1 `max` N2)%nat. intros fuel Hfuel done. cbn [ffor].
    unfold in_macro_body at 1.
    destruct (H1 fuel ltac:(lia)) as (result & -> & _). cbn [fbind].
    apply H2. lia.
Qed.

Lemma for_macros_loop_converges (stack : list node) :
  Forall macroConverges stack ->
  exists N, forall fuel, (N <= fuel)%nat -> forall done,
    exists r, ffor (for_macros_body (nest fuel)) done stack = Some (Ok r).
Proof.
  induction 1 as [|elt stack Helt _ (N2 & H2)].
  - exists 0%nat. intros fuel _ done. by exists done.
  - destruct elt as [t | function args]; simpl in Helt.
    + exists N2. intros fuel Hfuel done. cbn [ffor].
      unfold for_macros_body at 1. unfold is_type. cbn [node_type].
      rewrite bool_decide_eq_false_2 by done. cbn [fbind]. by apply H2.
    + destruct (in_macro_loop_converges args Helt) as (N1 & H1).
      exists (N1 `max` N2)%nat. intros fuel Hfuel done. cbn [ffor].
      unfold for_macros_body at 1. unfold is_type. cbn [node_type].
      rewrite bool_decide_eq_true_2 by done. cbn [in_macro].
      destruct (H1 fuel ltac:(lia) []) as (args' & ->). cbn [fbind].
      apply H2. lia.
Qed.

Lemma nest_unfold (fuel : nat) (stack : list node) :
  nest (S fuel) stack
  = (nInfix ⟵ Some (nest_check stack);
     stack ⟵ for_macros (nest fuel) stack;
     if (2 <=? nInfix)%nat then nest_while fuel stack (getPriorityRange stack)
     else Some (Ok stack)).
Proof. reflexivity. Qed.

Lemma uniform_few (stack : list node) :
  (length (priorities stack) <= 1)%nat -> uniformPriority stack.
Proof.
  intros Hlen a b Ha Hb Hia Hib.
  assert (Hqa : node_priority a ∈ priorities stack)
    by (apply priorities_elem; by exists a).
  assert (Hqb : node_priority b ∈ priorities stack)
    by (apply priorities_elem; by exists b).
  destruct (priorities stack) as [|q [|q' l]]; simpl in Hlen; [| | lia].
  - by apply elem_of_nil in Hqa.
  - apply list_elem_of_singleton in Hqa, Hqb. congruence.
Qed.

Lemma levels_le_length (stack : list node) :
  (priorityLevels stack <= length stack)%nat.
Proof.
  unfold priorityLevels.
  assert (length (remove_dups (priorities stack)) <= length (priorities stack))%nat.
  { apply submseteq_length, NoDup_submseteq; [apply NoDup_remove_dups |].
    intros q. by rewrite elem_of_remove_dups. }
  assert (length (priorities stack) <= length stack)%nat.
  { unfold priorities. rewrite length_fmap. apply length_filter. }
  lia.
Qed.

(** [nest] converges on an alternating stack with bounded priorities whose
    macros have arguments on which it converges. *)
Lemma nest_converges_stack (stack : list node) :
  alternating stack = true -> bounded (priorities stack) ->
  Forall macroConverges stack -> nestConverges stack.
Proof.
  intros Halt Hb Hmacros.
  destruct (for_macros_loop_converges stack Hmacros) as (N1 & H1).
  exists (S (N1 `max` (2 * length stack + 4)))%nat. intros [|fuel] Hfuel; [lia |].
  rewrite nest_unfold, (nest_check_alternating stack Halt). cbn [fbind].
  destruct (H1 fuel ltac:(lia) []) as (stack' & Hstack').
  unfold for_macros. rewrite Hstack'. cbn [fbind].
  apply for_macros_shape in Hstack' as Hshape.
  pose proof (sameShape_priorities _ _ Hshape) as Hpr.
  pose proof (sameShape_alternating _ _ Hshape) as Halt'.
  pose proof (Forall2_length _ _ _ Hshape) as Hlen.
  destruct (Nat.leb_spec 2 (length (priorities stack))) as [Htwo | Hfew].
  - destruct (nest_while_terminates (priorityLevels stack') stack' fuel)
      as (result & Hres & Huni & _).
    + lia.
    + by rewrite Halt'.
    + by rewrite Hpr.
    + rewrite Hpr. intros Hnil. rewrite Hnil in Htwo. simpl in Htwo. lia.
    + pose proof (levels_le_length stack'). lia.
    + by exists result.
  - exists stack'. split; [done |]. apply uniform_few. rewrite Hpr. lia.
Qed.

Lemma forallb_elem {A : Type} (f : A -> bool) (l : list A) (x : A) :
  forallb f l = true -> x ∈ l -> f x = true.
Proof.
  induction l as [|y l IH]; intros Hall Hin; [by apply elem_of_nil in Hin |].
  simpl in Hall. apply andb_prop in Hall as [Hy Hl].
  apply elem_of_cons in Hin as [-> | Hin]; [done | by apply IH].
Qed.

Lemma wellFormed_bounded (stack : list node) :
  forallb wellFormedNode stack = true -> bounded (priorities stack).
Proof.
  intros Hwf. apply Forall_forall. intros q (o & Hin & Ho & <-)%priorities_elem.
  apply forallb_elem with (x := o) in Hwf; [| done].
  destruct o as [t | function args]; [| done].
  unfold infix, is_type in Ho. simpl in Ho, Hwf |- *.
  apply andb_prop in Hwf as [_ Hwf].
  rewrite Ho in Hwf. apply andb_prop in Hwf as [?%Z.ltb_lt ?%Z.ltb_lt]. lia.
Qed.

Lemma wellFormed_macroConverges (elt : node) :
  wellFormedNode elt = true -> macroConverges elt.
Proof.
  revert elt.
  apply (node_nested_ind
           (fun elt => wellFormedNode elt = true -> macroConverges elt)
           (fun stack => wellFormed stack = true -> nestConverges stack)).
  - intros t Hwf. simpl in *. apply andb_prop in Hwf as [Hty _].
    by apply negb_true_iff, bool_decide_eq_false_1 in Hty.
  - intros function args IH Hwf. simpl in *.
    apply Forall_forall. intros stack Hin.
    rewrite Forall_forall in IH. apply (IH stack Hin).
    by apply forallb_elem with (x := stack) in Hwf.
  - intros stack IH [Halt Hwf]%andb_prop.
    apply nest_converges_stack; [done | by apply wellFormed_bounded |].
    apply Forall_forall. intros elt Hin.
    rewrite Forall_forall in IH. apply (IH elt Hin).
    by apply forallb_elem with (x := elt) in Hwf.
Qed.

(** One turn of the loop of [nest], when two priorities at least are
    present: the new stack is again alternating, with bounded priorities,
    and has fewer distinct priorities. *)
Lemma nest_body_decreases (st : list node) (mn mx : Z) (fuel : nat) :
  alternating st = true -> bounded (priorities st) -> priorities st <> [] ->
  getPriorityRange st = (mn, mx) -> mx <> mn ->
  (length st + 3 <= fuel)%nat ->
  exists new,
    nest_body fuel st mx = Some (Ok new)
    /\ alternating new = true /\ bounded (priorities new)
    /\ priorities new <> []
    /\ (priorityLevels new < priorityLevels st)%nat.
Proof.
  intros Halt Hb Hne Hrange Hdiff Hfuel.
  pose proof (getPriorityRange_spec st Hb) as Hspec. rewrite Hrange in Hspec.
  destruct Hspec as [[Hnil _] | (Hmn & Hmx & Hall)]; [done |].
  cbn [fst snd] in *.
  destruct (alternating_nonempty _ Halt) as (x & rest & ->).
  assert (Hx : operand x = true) by (by eapply alternating_head).
  assert (Hpr : priorities (x :: rest) = priorities rest)
    by (by rewrite priorities_cons, (operand_not_infix x Hx)).
  unfold priorityLevels. rewrite Hpr in *.
  pose proof (levels_filter mx (priorities rest) Hmx) as Hless.
  apply priorities_elem in Hmx as (o & Hin & Ho & Hpo).
  apply priorities_elem in Hmn as (o' & Hin' & Ho' & Hpo').
  exists (regroup mx [x] rest).
  pose proof (regroup_priorities mx rest x Halt [x] Hx) as Hnew.
  split; [| split; [| split; [| split]]].
  - apply (nest_body_alternating mx x rest fuel o o'); try done.
    + unfold top. by apply Z.eqb_eq.
    + unfold top. apply Z.eqb_neq. lia.
  - by apply (regroup_alternating mx rest x).
  - rewrite Hnew. unfold bounded in *. rewrite Forall_forall in Hb |- *.
    intros q [_ Hq]%list_elem_of_filter. by apply Hb.
  - rewrite Hnew. intros Hnil.
    assert (Hin0 : mn ∈ filter (fun q => q <> mx) (priorities rest)).
    { apply list_elem_of_filter. split; [done |].
      apply priorities_elem. by exists o'. }
    rewrite Hnil in Hin0. by apply elem_of_nil in Hin0.
  - by rewrite Hnew.
Qed.

(** C3. For every well-formed Binary (odd length, operands and operators in
    turn, at every nesting level), [nest] terminates: with enough fuel it
    returns a stack, and all the infix operators of that stack have the same
    priority.  Every turn of its while loop, taken on an alternating stack in
    which the greatest and the least priority of the operators differ,
    returns a stack that is again alternating, still has an operator, and has
    strictly fewer distinct priority levels. *)
Theorem nest_terminates_uniform (stack : list node) :
  wellFormed stack = true ->
  (exists N, forall fuel, (N <= fuel)%nat ->
     exists result, nest fuel stack = Some (Ok result) /\ uniformPriority result)
  /\ (forall (st : list node) (mn mx : Z) (fuel : nat),
        alternating st = true -> bounded (priorities st) -> priorities st <> [] ->
        getPriorityRange st = (mn, mx) -> mx <> mn ->
        (length st + 3 <= fuel)%nat ->
        exists new,
          nest_body fuel st mx = Some (Ok new)
          /\ alternating new = true /\ bounded (priorities new)
          /\ priorities new <> []
          /\ (priorityLevels new < priorityLevels st)%nat).
Proof.
  intros Hwf. split.
  - apply andb_prop in Hwf as [Halt Hnodes].
    apply nest_converges_stack; [done | by apply wellFormed_bounded |].
    apply Forall_forall. intros elt Hin. apply wellFormed_macroConverges.
    by apply forallb_elem with (x := elt) in Hnodes.
  - intros st mn mx fuel. apply nest_body_decreases.
Qed.

Lemma nest_terminates_uniform_witness :
  exists N, forall fuel, (N <= fuel)%nat ->
    exists result, nest fuel sampleStack = Some (Ok result) /\ uniformPriority result.
Proof.
  apply (nest_terminates_uniform sampleStack). vm_compute. reflexivity.
Defined.

(** The stack of "a*b+c/d^e+f" is folded in two turns. *)
Example nest_sample :
  nest 20 sampleStack
  = Some (Ok [Macro "id" [[VAR "a"; TIMES; VAR "b"]]; PLUS;
              Macro "id" [[VAR "c"; DIVIDE; Macro "id" [[VAR "d"; POWER; VAR "e"]]]];
              PLUS; VAR "f"]).
Proof. vm_compute. reflexivity. Qed.

(** The tokens that [Token] builds for the operators of the registry have
    priorities between the sentinels. *)
Lemma Token_init_bounded (nm : string) (t : Token) :
  Token_init nm = Ok t -> type t = "INFIX" -> -1 < priority t < 100.
Proof.
  unfold Token_init.
  case_bool_decide; [by intros [= <-] |].
  case_bool_decide; [by intros [= <-] |].
  case_bool_decide as Hin.
  { intros [= <-] _. simpl. unfold infixOpsList, INFIX_OPS in Hin. simpl in Hin.
    repeat (apply elem_of_cons in Hin as [-> | Hin]; [vm_compute; by split |]).
    by apply elem_of_nil in Hin. }
  destruct (checkVariableSyntax nm) as [[|]|]; unfold mbind, res_bind;
    [by intros [= <-] | | discriminate].
  repeat (case_bool_decide; [by intros [= <-] |]).
  destruct (isNumber nm); cbv beta iota; [by intros [= <-] |]. simpl. discriminate.
Qed.

(** * Further properties of the lexer *)

(** ** isNumber *)

Lemma digit_not_dot (c : ascii) : digitChar c = true -> Ascii.eqb c "." = false.
Proof.
  destruct (Ascii.eqb_spec c ".") as [-> | _]; [| done]. vm_compute. discriminate.
Qed.

Lemma isNumber_loop_spec (s : string) (gotDigit : bool) :
  isNumber_loop s gotDigit = true
  <-> allChars numberChar s = true
      /\ (countChar "." s + (if gotDigit then 1 else 0) <= 1)%nat.
Proof.
  revert gotDigit. induction s as [|c s IH]; intros gotDigit.
  - simpl. split; [intros _; split; [done | destruct gotDigit; lia] | done].
  - cbn [isNumber_loop allChars list_ascii_of_string forallb countChar].
    fold (allChars numberChar s). unfold numberChar at 1.
    destruct (Ascii.eqb c ".") eqn:Hdot.
    + rewrite orb_true_r. cbn [andb].
      destruct gotDigit.
      * split; [discriminate | intros [_ H]; lia].
      * rewrite IH. split; intros [H1 H2]; (split; [done | lia]).
    + rewrite orb_false_r. destruct (digitChar c); cbn [negb andb].
      * rewrite IH. split; intros [H1 H2]; (split; [done | lia]).
      * split; [discriminate | by intros [? _]].
Qed.

(** X1.  [isNumber] accepts exactly the strings made of digits and at most
    one dot, the empty string and the lone dot apart. *)
Theorem isNumber_accepts (s : string) :
  isNumber s = true
  <-> s <> "" /\ s <> "." /\ allChars numberChar s = true
      /\ (countChar "." s <= 1)%nat.
Proof.
  unfold isNumber. case_bool_decide as Hin.
  - split; [discriminate |]. intros (H1 & H2 & _).
    apply elem_of_cons in Hin as [-> | Hin]; [done |].
    apply elem_of_cons in Hin as [-> | Hin]; [done |].
    by apply elem_of_nil in Hin.
  - rewrite isNumber_loop_spec.
    assert (s <> "" /\ s <> ".") as [H1 H2].
    { split; intros ->; apply Hin; repeat constructor. }
    split; [intros [? ?] | intros (_ & _ & ? & ?)]; repeat split; try done; lia.
Qed.

(** ** The Token constructor *)

Ltac enum_in H :=
  cbv in H;
  repeat (apply elem_of_cons in H as [-> | H]; [| ]);
  [.. | by apply elem_of_nil in H].

Ltac settle_iff :=
  split;
  [ let H := fresh in intros H;
    first [ discriminate H | by repeat constructor | reflexivity | done ]
  | let H := fresh in intros H;
    first [ reflexivity | discriminate H | (exfalso; revert H; not_in_list)
          | (vm_compute in H; discriminate H) | done ] ].

Lemma var_first (nm : string) :
  checkVariableSyntax nm = Ok true ->
  exists c rest, nm = String c rest /\ (alphaChar c || Ascii.eqb c "_") = true
                 /\ allChars nameChar nm = true /\ nm ∉ reservedNames.
Proof.
  unfold checkVariableSyntax. case_bool_decide as Hr; [discriminate |].
  destruct nm as [|c rest]; [discriminate |].
  destruct (alphaChar c || Ascii.eqb c "_") eqn:H0; cbn [negb]; [| discriminate].
  intros [= H]. by exists c, rest.
Qed.

Lemma alpha_digit_disjoint (c : ascii) : alphaChar c = true -> digitChar c = false.
Proof.
  intros [H _]%alpha_not_digit. unfold py_isdigit in H.
  by apply orb_false_iff in H as [H _].
Qed.

Lemma var_not_number (nm : string) :
  checkVariableSyntax nm = Ok true -> isNumber nm = false.
Proof.
  intros (c & rest & -> & H0 & _)%var_first.
  unfold isNumber. case_bool_decide; [done |].
  cbn [isNumber_loop].
  destruct (Ascii.eqb_spec c ".") as [-> | _]; [by vm_compute in H0 |].
  destruct (digitChar c) eqn:Hd; [| done].
  apply orb_true_iff in H0 as [Ha | Hu].
  - by rewrite (alpha_digit_disjoint c Ha) in Hd.
  - apply Ascii.eqb_eq in Hu as ->. by vm_compute in Hd.
Qed.

Lemma Token_init_classes (nm : string) (t : Token) :
  Token_init nm = Ok t ->
  name t = nm
  /\ (type t = "CONSTANT" <-> nm ∈ constantsList)
  /\ (type t = "FUNCTION" <-> nm ∈ functionsList)
  /\ (type t = "INFIX" <-> nm ∈ infixOpsList)
  /\ (type t = "VAR" <-> checkVariableSyntax nm = Ok true)
  /\ (type t = "BRKT_OPEN" <-> nm = "(")
  /\ (type t = "BRKT_CLOSE" <-> nm = ")")
  /\ (type t = "COMMA" <-> nm = ",")
  /\ (type t = "NUMBER" <-> isNumber nm = true)
  /\ type t <> "SPACE".
Proof.
  unfold Token_init.
  case_bool_decide as Hc.
  { intros [= <-]. cbn [type name]. enum_in Hc.
    all: repeat (split; [first [reflexivity | settle_iff] |]); done. }
  case_bool_decide as Hf.
  { intros [= <-]. cbn [type name]. enum_in Hf.
    all: repeat (split; [first [reflexivity | settle_iff] |]); done. }
  case_bool_decide as Hi.
  { intros [= <-]. cbn [type name]. enum_in Hi.
    all: repeat (split; [first [reflexivity | settle_iff] |]); done. }
  destruct (checkVariableSyntax nm) as [[|]|] eqn:Hv; unfold mbind, res_bind;
    [| | discriminate].
  { intros [= <-]. cbn [type name].
    assert (Hn := var_not_number nm Hv).
    assert (nm <> "(" /\ nm <> ")" /\ nm <> ",") as (H1 & H2 & H3).
    { repeat split; intros ->; by vm_compute in Hv. }
    rewrite Hn. repeat (split; [first [reflexivity | done] |]); done. }
  case_bool_decide as Ho.
  { intros [= <-]. cbn [type name]. subst nm.
    repeat (split; [first [reflexivity | settle_iff] |]); done. }
  case_bool_decide as Hcl.
  { intros [= <-]. cbn [type name]. subst nm.
    repeat (split; [first [reflexivity | settle_iff] |]); done. }
  case_bool_decide as Hcm.
  { intros [= <-]. cbn [type name]. subst nm.
    repeat (split; [first [reflexivity | settle_iff] |]); done. }
  destruct (isNumber nm) eqn:Hn; cbv beta iota.
  { intros [= <-]. cbn [type name].
    repeat (split; [first [reflexivity | done] |]); done. }
  simpl. discriminate.
Qed.

(** X2.  The categories that [Token] tests in turn are disjoint: the type of
    a token tells which test its name passes, whatever the order of the
    tests; no token is a SPACE. *)
Theorem Token_init_classifies (nm : string) (t : Token) :
  Token_init nm = Ok t ->
  name t = nm
  /\ (type t = "CONSTANT" <-> nm ∈ constantsList)
  /\ (type t = "FUNCTION" <-> nm ∈ functionsList)
  /\ (type t = "INFIX" <-> nm ∈ infixOpsList)
  /\ (type t = "VAR" <-> checkVariableSyntax nm = Ok true)
  /\ (type t = "BRKT_OPEN" <-> nm = "(")
  /\ (type t = "BRKT_CLOSE" <-> nm = ")")
  /\ (type t = "COMMA" <-> nm = ",")
  /\ (type t = "NUMBER" <-> isNumber nm = true)
  /\ type t <> "SPACE".
Proof. exact (Token_init_classes nm t). Qed.

Lemma Token_init_classifies_witness :
  (type (tok "NUMBER" "4.2") = "NUMBER" <-> isNumber "4.2" = true)
  /\ (type (tok "NUMBER" "4.2") = "VAR" <-> checkVariableSyntax "4.2" = Ok true)
  /\ type (tok "NUMBER" "4.2") <> "SPACE".
Proof.
  destruct (Token_init_classifies "4.2" (tok "NUMBER" "4.2"))
    as (_ & _ & _ & _ & Hvar & _ & _ & _ & Hnum & Hspace);
    [vm_compute; reflexivity |].
  split; [exact Hnum |]. split; [exact Hvar | exact Hspace].
Defined.

(** X3.  [Token] raises IndexError on the empty name, and on no other. *)
Theorem Token_init_empty_name (nm : string) :
  Token_init nm = Raise IndexError <-> nm = "".
Proof.
  split; [| by intros ->].
  unfold Token_init.
  repeat (case_bool_decide; [discriminate |]).
  destruct (checkVariableSyntax nm) as [[|] | e] eqn:Hv; unfold mbind, res_bind.
  - discriminate.
  - repeat (case_bool_decide; [discriminate |]).
    destruct (isNumber nm); [discriminate |]. simpl. discriminate.
  - intros _. unfold checkVariableSyntax in Hv.
    case_bool_decide; [discriminate |].
    destruct nm as [|c rest]; [done |].
    by destruct (negb _).
Qed.

(** ** Characters of a string, by position *)

Lemma allChars_app (P : ascii -> bool) (a b : string) :
  allChars P (a +:+ b) = allChars P a && allChars P b.
Proof.
  induction a as [|c a IH]; [done |].
  change (String c a +:+ b) with (String c (a +:+ b)).
  unfold allChars in *. cbn [list_ascii_of_string forallb]. rewrite IH.
  by rewrite andb_assoc.
Qed.

Lemma allChars_get (P : ascii -> bool) (s : string) :
  (forall n, (n < str_len s)%nat -> exists c, String.get n s = Some c /\ P c = true) ->
  allChars P s = true.
Proof.
  induction s as [|c s IH]; [done |]. intros H.
  unfold allChars. cbn [list_ascii_of_string forallb].
  apply andb_true_iff. split.
  - destruct (H 0%nat) as (c' & Hget & HP); [unfold str_len; simpl; lia |].
    by injection Hget as ->.
  - apply IH. intros n Hn.
    destruct (H (S n)) as (c' & Hget & HP); [unfold str_len in *; simpl; lia |].
    by exists c'.
Qed.

Lemma get_allChars (P : ascii -> bool) (s : string) (n : nat) (c : ascii) :
  allChars P s = true -> String.get n s = Some c -> P c = true.
Proof.
  revert n. induction s as [|c' s IH]; intros n; [done |].
  unfold allChars. cbn [list_ascii_of_string forallb].
  intros [H0 Hs]%andb_true_iff. destruct n as [|n]; simpl.
  - by intros [= <-].
  - by apply IH.
Qed.

Lemma get_take (n m : nat) (s : string) :
  (m < n)%nat -> String.get m (str_take n s) = String.get m s.
Proof.
  revert m s. induction n as [|n IH]; intros m s Hm; [lia |].
  destruct s as [|c s]; [done |]. destruct m as [|m]; [done |].
  simpl. apply IH. lia.
Qed.

Lemma str_len_take (n : nat) (s : string) :
  (n <= str_len s)%nat -> str_len (str_take n s) = n.
Proof.
  revert s. induction n as [|n IH]; intros s Hn; [by destruct s |].
  destruct s as [|c s]; [unfold str_len in Hn; simpl in Hn; lia |].
  unfold str_len in *. simpl in *. rewrite IH; lia.
Qed.

Lemma get_drop (n : nat) (s : string) (c : ascii) :
  String.get n s = Some c <-> exists t, str_drop n s = String c t.
Proof.
  revert s. induction n as [|n IH]; intros s.
  - destruct s as [|c' s]; simpl.
    + split; [done | by intros [t ?]].
    + split; [intros [= ->]; by eexists | by intros [t [= -> _]]].
  - destruct s as [|c' s]; simpl.
    + split; [done | by intros [t ?]].
    + apply IH.
Qed.

Lemma allChars_take (P : ascii -> bool) (n : nat) (s : string) :
  (n <= str_len s)%nat ->
  (forall m, (m < n)%nat -> exists c, String.get m s = Some c /\ P c = true) ->
  allChars P (str_take n s) = true.
Proof.
  intros Hn H. apply allChars_get. rewrite str_len_take by done.
  intros m Hm. rewrite get_take by done. by apply H.
Qed.

Lemma for_first_None {A : Type} (body : nat -> option A) (range : list nat) :
  for_first body range = None -> forall n, n ∈ range -> body n = None.
Proof.
  induction range as [|m range IH]; intros H n Hn; [by apply elem_of_nil in Hn |].
  simpl in H. destruct (body m) eqn:Hm; [discriminate |].
  apply elem_of_cons in Hn as [-> | Hn]; [done | by apply IH].
Qed.

Lemma split_at (s : string) (n : nat) :
  (n <= str_len s)%nat -> split s (Z.of_nat n) = (str_take n s, str_drop n s).
Proof.
  intros Hn. destruct n as [|n].
  - change (Z.of_nat 0) with 0. unfold split.
    case_bool_decide as Hs; [by subst |].
    destruct (Z.ltb_spec (Z.of_nat (str_len s)) 0); [lia |]. by destruct s.
  - apply split_inside. lia.
Qed.

(** ** consumeSpace *)

Lemma consumeSpace_cases (self : QParser) (s : string) :
  match consumeSpace self s with
  | None => allChars spaceChar (inputStr_of self s) = true
  | Some (h, t) =>
      h +:+ t = inputStr_of self s
      /\ allChars spaceChar h = true
      /\ startsWith (fun c => negb (spaceChar c)) t = true
  end.
Proof.
  unfold consumeSpace. set (inputStr := inputStr_of self s).
  destruct (for_first _ _) as [[h t]|] eqn:Hfor.
  - apply for_first_Some in Hfor as (i & n & Hi & Hn & Hbefore).
    apply lookup_seq in Hi as [-> Hi]. simpl in Hn, Hbefore.
    destruct (String.get i inputStr) as [char|] eqn:Hget; [| discriminate].
    destruct (negb (Ascii.eqb char " ")) eqn:Hchar; [| discriminate].
    injection Hn as Hn. rewrite split_at in Hn by lia. injection Hn as <- <-.
    split; [apply str_take_drop |]. split.
    + apply allChars_take; [lia |]. intros m Hm.
      assert (Hnone := Hbefore m m ltac:(lia)).
      rewrite lookup_seq_lt in Hnone by lia. specialize (Hnone eq_refl).
      destruct (get_is_Some m inputStr ltac:(lia)) as [c Hc].
      exists c. split; [done |]. rewrite Hc in Hnone. unfold spaceChar.
      by destruct (Ascii.eqb c " ").
    + apply get_drop in Hget as [t ->]. done.
  - apply allChars_get. intros n Hn.
    destruct (get_is_Some n inputStr Hn) as [c Hc]. exists c. split; [done |].
    assert (Hnone := for_first_None _ _ Hfor n ltac:(apply elem_of_seq; lia)).
    simpl in Hnone. rewrite Hc in Hnone. unfold spaceChar.
    by destruct (Ascii.eqb c " ").
Qed.

(** X4.  [consumeSpace] splits its input after the leading spaces; it returns
    None exactly when the input holds nothing but spaces, the empty input
    included. *)
Theorem consumeSpace_result (self : QParser) (s : string) :
  match consumeSpace self s with
  | None => allChars spaceChar (inputStr_of self s) = true
  | Some (h, t) =>
      h +:+ t = inputStr_of self s
      /\ allChars spaceChar h = true
      /\ startsWith (fun c => negb (spaceChar c)) t = true
  end.
Proof. exact (consumeSpace_cases self s). Qed.

(** ** consumeNumber *)

Lemma isNumber_loop_prefix (a b : string) (gotDigit : bool) :
  isNumber_loop (a +:+ b) gotDigit = true -> isNumber_loop a gotDigit = true.
Proof.
  revert gotDigit. induction a as [|c a IH]; intros gotDigit; [done |].
  change (String c a +:+ b) with (String c (a +:+ b)). cbn [isNumber_loop].
  destruct (Ascii.eqb c "."); [destruct gotDigit; [done | apply IH] |].
  destruct (negb (digitChar c)); [done | apply IH].
Qed.

Lemma isNumber_digit_first (c : ascii) (rest : string) :
  digitChar c = true -> isNumber (String c rest) = isNumber_loop (String c rest) false.
Proof.
  intros Hd. unfold isNumber. case_bool_decide as Hin; [| done].
  apply elem_of_cons in Hin as [Hin | Hin]; [discriminate |].
  apply elem_of_cons in Hin as [Hin | Hin]; [| by apply elem_of_nil in Hin].
  injection Hin as -> ->. by vm_compute in Hd.
Qed.

Lemma isNumber_prefix (c : ascii) (a b : string) :
  digitChar c = true ->
  isNumber (String c a +:+ b) = true -> isNumber (String c a) = true.
Proof.
  intros Hd. change (String c a +:+ b) with (String c (a +:+ b)).
  rewrite !isNumber_digit_first by done.
  change (String c (a +:+ b)) with (String c a +:+ b).
  apply isNumber_loop_prefix.
Qed.

Lemma isNumber_no_digit_first (c : ascii) :
  digitChar c = false -> isNumber (String c "") = false.
Proof.
  intros Hd. unfold isNumber. case_bool_decide; [done |].
  cbn [isNumber_loop]. rewrite Hd.
  destruct (Ascii.eqb_spec c ".") as [-> | _]; [| done].
  exfalso. apply H. repeat constructor.
Qed.

Lemma seq_S_len (s : string) (c : ascii) (rest : string) :
  s = String c rest -> seq 1 (str_len s) = 1%nat :: seq 2 (str_len rest).
Proof. by intros ->. Qed.

Lemma consumeNumber_without_digit (self : QParser) (c : ascii) (rest : string) :
  digitChar c = false ->
  consumeNumber self (String c rest) = Ok ("", String c rest).
Proof.
  intros Hd. unfold consumeNumber.
  rewrite inputStr_of_nonempty by (unfold str_len; simpl; lia).
  destruct (negb (py_isdigit c || Ascii.eqb c ".")); [done |].
  rewrite (seq_S_len _ c rest eq_refl). cbn [consumeNumber_loop].
  rewrite (split_inside _ 1) by (unfold str_len; simpl; lia).
  cbn [fst str_take]. replace (str_take 0 rest) with "" by by destruct rest.
  rewrite (isNumber_no_digit_first c Hd).
  by rewrite (split_at _ 0%nat) by lia.
Qed.

(** X5.  [consumeNumber] consumes nothing unless the input begins with one of
    the digits 0 to 9: a number written with a leading dot, which [isNumber]
    accepts, is left in the input. *)
Theorem consumeNumber_needs_digit (self : QParser) (c : ascii) (rest : string) :
  digitChar c = false ->
  consumeNumber self (String c rest) = Ok ("", String c rest).
Proof. exact (consumeNumber_without_digit self c rest). Qed.

Lemma consumeNumber_needs_digit_witness :
  isNumber ".5" = true /\ consumeNumber parser ".5" = Ok ("", ".5").
Proof.
  split; [reflexivity |].
  apply (consumeNumber_needs_digit parser "." "5"). reflexivity.
Defined.

Lemma consumeNumber_loop_spec (s : string) (k : nat) :
  forall a nMax, (1 <= a)%nat -> (a + k <= str_len s + 1)%nat ->
    let r := consumeNumber_loop s (seq a k) nMax in
    (r = nMax /\ (k = 0%nat \/ isNumber (str_take a s) = false))
    \/ ((a <= r < a + k)%nat
        /\ (forall n, (a <= n <= r)%nat -> isNumber (str_take n s) = true)
        /\ ((r + 1 < a + k)%nat -> isNumber (str_take (r + 1) s) = false)).
Proof.
  induction k as [|k IH]; intros a nMax Ha Hk; [by left; split; [| left] |].
  cbn [seq consumeNumber_loop]. rewrite split_inside by lia. cbn [fst].
  destruct (isNumber (str_take a s)) eqn:HP; [| by left; split; [| right]].
  right. destruct (IH (S a) a ltac:(lia) ltac:(lia)) as [[-> Hstop] | (Hr & Hall & Hnext)].
  - split; [lia |]. split.
    + intros n Hn. by replace n with a by lia.
    + intros Hlt. destruct Hstop as [-> | Hstop]; [lia |].
      by replace (a + 1)%nat with (S a) by lia.
  - split; [lia |]. split.
    + intros n Hn. destruct (decide (n = a)) as [-> | Hne]; [done |].
      apply Hall. lia.
    + intros Hlt. apply Hnext. lia.
Qed.

Lemma consumeNumber_with_digit (self : QParser) (s : string) :
  startsWith digitChar s = true ->
  exists h t,
    consumeNumber self s = Ok (h, t)
    /\ h +:+ t = s
    /\ isNumber h = true
    /\ forall p q, p +:+ q = s -> isNumber p = true -> (str_len p <= str_len h)%nat.
Proof.
  destruct s as [|c rest]; [done |]. cbn [startsWith]. intros Hd.
  set (s := String c rest).
  assert (Hlen : (1 <= str_len s)%nat) by (unfold str_len; simpl; lia).
  unfold consumeNumber. rewrite inputStr_of_nonempty by lia. fold s.
  assert (Hpy : negb (py_isdigit c || Ascii.eqb c ".") = false).
  { unfold py_isdigit. by rewrite Hd. }
  unfold s at 1. rewrite Hpy. fold s.
  assert (H1 : isNumber (str_take 1 s) = true).
  { unfold s. cbn [str_take]. replace (str_take 0 rest) with "" by by destruct rest.
    rewrite isNumber_digit_first by done. cbn [isNumber_loop].
    rewrite (digit_not_dot c Hd), Hd. done. }
  destruct (consumeNumber_loop_spec s (str_len s) 1 0 ltac:(lia) ltac:(lia))
    as [[_ [H0 | H0]] | (Hr & Hall & Hnext)]; [lia | congruence |].
  set (r := consumeNumber_loop s (seq 1 (str_len s)) 0) in *.
  exists (str_take r s), (str_drop r s).
  rewrite split_at by lia. split; [done |].
  split; [apply str_take_drop |].
  split; [apply Hall; lia |].
  intros p q Hpq Hp. rewrite str_len_take by lia.
  destruct (decide (str_len p <= r)%nat) as [| Hgt]; [done |]. exfalso.
  assert (Hplen : (str_len p <= str_len s)%nat).
  { rewrite <- Hpq, str_len_app. lia. }
  assert (Hfalse := Hnext ltac:(lia)).
  rewrite <- Hpq in Hfalse. rewrite str_take_app_inside in Hfalse by lia.
  destruct p as [|c' p]; [done |].
  assert (c' = c) as -> by (unfold s in Hpq; by injection Hpq).
  rewrite <- (str_take_drop (r + 1) (String c p)) in Hp.
  replace (r + 1)%nat with (S r) in * by lia. cbn [str_take] in Hp, Hfalse.
  apply isNumber_prefix in Hp; [| done]. congruence.
Qed.

(** X6.  On an input that begins with a digit, [consumeNumber] returns the
    longest prefix that [isNumber] accepts, and the rest of the input. *)
Theorem consumeNumber_longest (self : QParser) (s : string) :
  startsWith digitChar s = true ->
  exists h t,
    consumeNumber self s = Ok (h, t)
    /\ h +:+ t = s
    /\ isNumber h = true
    /\ forall p q, p +:+ q = s -> isNumber p = true -> (str_len p <= str_len h)%nat.
Proof. exact (consumeNumber_with_digit self s). Qed.

Lemma consumeNumber_longest_witness :
  exists h t,
    consumeNumber parser "4.2." = Ok (h, t)
    /\ h +:+ t = "4.2."
    /\ isNumber h = true
    /\ forall p q, p +:+ q = "4.2." -> isNumber p = true
                   -> (str_len p <= str_len h)%nat.
Proof. apply (consumeNumber_longest parser "4.2."). reflexivity. Defined.

(** ** consumeFunc and consumeInfix *)

Lemma foldl_unique_match (P : nat -> bool) (a n0 : nat) (l : list nat) :
  n0 ∈ l -> P n0 = true -> (forall n, n ∈ l -> P n = true -> n = n0) ->
  foldl (fun acc n => if P n then n else acc) a l = n0.
Proof.
  induction l as [|x l IH] using rev_ind; intros Hin HP Huniq;
    [by apply elem_of_nil in Hin |].
  rewrite foldl_app. cbn [foldl].
  destruct (P x) eqn:Hx.
  - apply Huniq; [| done]. apply elem_of_app. right. constructor.
  - apply IH; [| done |].
    + apply elem_of_app in Hin as [Hin | Hin]; [done |].
      apply list_elem_of_singleton in Hin as ->. congruence.
    + intros n Hn. apply Huniq. apply elem_of_app. by left.
Qed.

Lemma foldl_last_greatest (P : nat -> bool) (a k : nat) (acc : nat) :
  (acc < a)%nat ->
  let r := foldl (fun acc n => if P n then n else acc) acc (seq a k) in
  forall n, (a <= n < a + k)%nat -> P n = true -> (n <= r)%nat.
Proof.
  revert acc. induction k as [|k IH]; intros acc Hacc r n Hn HP; [lia |].
  subst r. rewrite seq_S, foldl_app. cbn [foldl].
  destruct (decide (n = a + k)%nat) as [-> | Hne].
  - by rewrite HP.
  - assert (Hle := IH acc Hacc n ltac:(lia) HP). simpl in Hle.
    destruct (P (a + k)%nat); [lia | done].
Qed.

(** A name without opening bracket, then the bracket, then the rest: the
    three parts of such a string are unique. *)
Lemma bracket_split_unique (f g x y : string) :
  allChars (fun c => negb (Ascii.eqb c "(")) f = true ->
  allChars (fun c => negb (Ascii.eqb c "(")) g = true ->
  (f +:+ "(") +:+ x = (g +:+ "(") +:+ y -> f = g /\ x = y.
Proof.
  revert g. induction f as [|c f IH]; intros g Hf Hg.
  - change (("" +:+ "(") +:+ x) with (String "(" x).
    destruct g as [|c' g]; [by intros [= ->] |].
    rewrite !str_app_cons. intros [= <- _].
    unfold allChars in Hg. by simpl in Hg.
  - destruct g as [|c' g].
    + change (("" +:+ "(") +:+ y) with (String "(" y).
      rewrite !str_app_cons. intros [= -> _].
      unfold allChars in Hf. by simpl in Hf.
    + rewrite !str_app_cons. intros [= -> H].
      unfold allChars in Hf, Hg. cbn [list_ascii_of_string forallb] in Hf, Hg.
      apply andb_true_iff in Hf as [_ Hf], Hg as [_ Hg].
      destruct (IH g Hf Hg H) as [-> ->]. done.
Qed.

Lemma functions_no_bracket (f : string) :
  f ∈ functionsList -> allChars (fun c => negb (Ascii.eqb c "(")) f = true.
Proof.
  intros H. unfold functionsList, FUNCTIONS in H. simpl in H.
  repeat (apply elem_of_cons in H as [-> | H]; [reflexivity |]).
  by apply elem_of_nil in H.
Qed.

(** X7.  [consumeFunc] consumes a function exactly when the input is the
    name of a function of the registry followed at once by an opening
    bracket; it hands back the name, and the input after the bracket. *)
Theorem consumeFunc_exact (self : QParser) (s f t : string) :
  (0 < str_len s)%nat -> f <> "" ->
  consumeFunc self s = (f, t)
  <-> f ∈ functionsList /\ s = (f +:+ "(") +:+ t.
Proof.
  intros Hlen Hf. split.
  { intros H. by destruct (consumeFunc_concat _ _ _ _ Hlen H Hf). }
  intros [Hin ->]. unfold consumeFunc. rewrite (inputStr_of_nonempty _ _ Hlen).
  set (s := (f +:+ "(") +:+ t) in *.
  set (P := fun n => bool_decide ((split s (Z.of_nat n)).1
                                    ∈ (fun f => f.1 +:+ "(") <$> FUNCTIONS)).
  assert (Hfl : str_len (f +:+ "(") = (str_len f + 1)%nat).
  { rewrite str_len_app. done. }
  assert (Hsl : (str_len f + 1 <= str_len s)%nat).
  { unfold s. rewrite str_len_app. lia. }
  assert (HnMax : foldl (fun acc n => if P n then n else acc) 0%nat
                    (seq 1 (str_len s)) = (str_len f + 1)%nat).
  { apply foldl_unique_match.
    - apply elem_of_seq. lia.
    - unfold P. apply bool_decide_eq_true_2. rewrite split_inside by lia.
      cbn [fst]. rewrite <- Hfl. unfold s. rewrite str_take_app_exact.
      apply list_elem_of_fmap.
      apply list_elem_of_fmap in Hin as ([f' k] & -> & Hin). by exists (f', k).
    - intros n Hn HP. apply elem_of_seq in Hn. unfold P in HP.
      apply bool_decide_eq_true_1 in HP. rewrite split_inside in HP by lia.
      cbn [fst] in HP. apply functionsExt_shape in HP as (g & Hg & Htake).
      assert (Hcat := str_take_drop n s). rewrite Htake in Hcat.
      unfold s in Hcat at 2.
      apply bracket_split_unique in Hcat as [-> _];
        [| by apply functions_no_bracket..].
      assert (Hn' : str_len (str_take n s) = n) by (apply str_len_take; lia).
      rewrite Htake, Hfl in Hn'. lia. }
  match goal with |- context [foldl ?g 0%nat ?l] =>
    change (foldl g 0%nat l)
      with (foldl (fun acc n => if P n then n else acc) 0%nat l)
  end.
  rewrite HnMax. rewrite split_inside by lia.
  rewrite <- Hfl. unfold s. rewrite str_take_app_exact, str_drop_app_exact.
  by rewrite str_init_snoc.
Qed.

Lemma consumeFunc_exact_witness :
  consumeFunc parser "sinc(3x+12)" = ("sinc", "3x+12)")
  <-> "sinc" ∈ functionsList /\ "sinc(3x+12)" = ("sinc" +:+ "(") +:+ "3x+12)".
Proof.
  apply (consumeFunc_exact parser "sinc(3x+12)" "sinc" "3x+12)");
    [vm_compute; lia | discriminate].
Defined.

(** X8.  [consumeInfix] consumes the longest operator of the registry that
    begins the input, nothing when there is none. *)
Theorem consumeInfix_longest (self : QParser) (s : string) :
  (0 < str_len s)%nat ->
  exists h t,
    consumeInfix self s = (h, t)
    /\ h +:+ t = s
    /\ (h = "" \/ h ∈ infixOpsList)
    /\ forall p q, p +:+ q = s -> p ∈ infixOpsList -> (str_len p <= str_len h)%nat.
Proof.
  intros Hlen. unfold consumeInfix. rewrite (inputStr_of_nonempty _ _ Hlen).
  set (P := fun n => bool_decide ((split s (Z.of_nat n)).1 ∈ infixOpsList)).
  set (nMax := foldl _ 0%nat _).
  assert (HnMax : nMax = foldl (fun acc n => if P n then n else acc) 0%nat
                           (seq 1 (str_len s))) by reflexivity.
  assert (Hm := foldl_last_match P 0%nat (seq 1 (str_len s))).
  cbv zeta in Hm. rewrite <- HnMax in Hm.
  assert (Hle : (nMax <= str_len s)%nat).
  { destruct Hm as [H0 | [Hin _]]; [lia |]. apply elem_of_seq in Hin. lia. }
  exists (str_take nMax s), (str_drop nMax s).
  split; [by rewrite split_at |]. split; [apply str_take_drop |]. split.
  - destruct Hm as [H0 | [Hin HP]].
    + left. rewrite H0. by destruct s.
    + right. apply elem_of_seq in Hin. unfold P in HP.
      apply bool_decide_eq_true_1 in HP. by rewrite split_inside in HP by lia.
  - intros p q Hpq Hp. rewrite str_len_take by done.
    assert (Hpl : (1 <= str_len p <= str_len s)%nat).
    { split.
      - destruct p; [| unfold str_len; simpl; lia]. exfalso. revert Hp. not_in_list.
      - rewrite <- Hpq, str_len_app. lia. }
    rewrite HnMax.
    apply (foldl_last_greatest P 1 (str_len s) 0 ltac:(lia)); [lia |].
    unfold P. apply bool_decide_eq_true_2. rewrite split_inside by lia.
    cbn [fst]. rewrite <- Hpq. by rewrite str_take_app_exact.
Qed.

Lemma consumeInfix_longest_witness :
  exists h t,
    consumeInfix parser "//2+1" = (h, t)
    /\ h +:+ t = "//2+1"
    /\ (h = "" \/ h ∈ infixOpsList)
    /\ forall p q, p +:+ q = "//2+1" -> p ∈ infixOpsList
                   -> (str_len p <= str_len h)%nat.
Proof. apply (consumeInfix_longest parser "//2+1"). vm_compute. lia. Defined.

(** ** consumeVar *)

Lemma consumeNumber_returns (self : QParser) (s : string) :
  (0 < str_len s)%nat -> exists h t, consumeNumber self s = Ok (h, t).
Proof.
  intros Hlen. unfold consumeNumber. rewrite inputStr_of_nonempty by done.
  destruct s as [|c rest]; [unfold str_len in Hlen; simpl in Hlen; lia |].
  destruct (negb _); [by eexists _, _ |].
  destruct (split _ _) as [h t]. by exists h, t.
Qed.

(** One turn of the loop of [consumeVar] at [n], short of the end of the
    input: the loop goes on only over a letter, an underscore or a digit, and
    what it returns is the input split at [n]. *)
Lemma consumeVar_turn (self : QParser) (s : string) (n : nat)
    (r : option (res (string * string))) :
  (1 <= n <= str_len s)%nat ->
  (let '(head, tail) := split s (Z.of_nat n) in
   if (n =? str_len s)%nat then Some (Ok (head, ""))
   else
     match tail with
     | "" => Some (Raise IndexError)
     | String nextChar _ =>
         if alphaChar nextChar || Ascii.eqb nextChar "_" then None
         else if digitChar nextChar then
           match consumeNumber self tail with
           | Raise e => Some (Raise e)
           | Ok (nbr, _) =>
               if bool_decide ("."%char ∈ list_ascii_of_string nbr)
               then Some (Ok (head, tail))
               else None
           end
         else Some (Ok (head, tail))
     end) = r ->
  (r = Some (Ok (str_take n s, str_drop n s)))
  \/ (r = None /\ (n < str_len s)%nat
      /\ exists c, String.get n s = Some c /\ nameChar c = true).
Proof.
  intros Hn. rewrite split_inside by done.
  destruct (Nat.eqb_spec n (str_len s)) as [-> | Hne].
  { intros <-. left. by rewrite str_drop_all. }
  assert (Hlt : (n < str_len s)%nat) by lia.
  destruct (get_is_Some n s Hlt) as [c Hc].
  destruct (proj1 (get_drop n s c) Hc) as [t Ht]. rewrite Ht.
  unfold nameChar.
  destruct (alphaChar c || Ascii.eqb c "_") eqn:Hau.
  { intros <-. right. split; [done |]. split; [done |]. exists c.
    split; [done |]. apply orb_true_iff in Hau as [-> | ->]; [done |].
    by rewrite orb_true_r. }
  destruct (digitChar c) eqn:Hd; [| intros <-; by left].
  destruct (consumeNumber_returns self (String c t)) as (nbr & tl & ->);
    [unfold str_len; simpl; lia |].
  case_bool_decide; intros <-; [by left |].
  right. split; [reflexivity |]. split; [exact Hlt |]. exists c.
  split; [exact Hc |]. rewrite Hd. by rewrite orb_true_r.
Qed.

Lemma name_not_infix (c : ascii) (rest : string) :
  (alphaChar c || Ascii.eqb c "_") = true -> String c rest ∉ infixOpsList.
Proof.
  intros Hc Hin. cbv in Hin.
  repeat (apply elem_of_cons in Hin as [Hin | Hin];
          [injection Hin as -> _; by vm_compute in Hc |]).
  by apply elem_of_nil in Hin.
Qed.

Lemma consumeVar_name (self : QParser) (s : string) :
  (0 < str_len s)%nat ->
  exists var t,
    consumeVar self s = Ok (inr var, t)
    /\ var +:+ t = s
    /\ (var = ""
        \/ (checkVariableSyntax var = Ok true
            /\ Token_init var = Ok (tok "VAR" var))).
Proof.
  intros Hlen. unfold consumeVar. rewrite inputStr_of_nonempty by done.
  destruct s as [|c0 rest]; [unfold str_len in Hlen; simpl in Hlen; lia |].
  set (s := String c0 rest) in *.
  destruct (alphaChar c0 || Ascii.eqb c0 "_") eqn:H0; cbn [negb];
    [| exists "", s; split; [done |]; split; [done |]; by left].
  destruct (for_first _ _) as [r|] eqn:Hfor.
  2:{ apply for_first_None with (n := str_len s) in Hfor;
        [| apply elem_of_seq; lia].
      cbv beta in Hfor.
      by destruct (consumeVar_turn self s (str_len s) _ ltac:(lia) Hfor)
        as [? | (_ & ? & _)]; [| lia]. }
  apply for_first_Some in Hfor as (i & n & Hi & Hn & Hbefore).
  apply lookup_seq in Hi as [-> Hi]. cbv beta in Hn.
  destruct (consumeVar_turn self s (1 + i) _ ltac:(lia) Hn)
    as [[= ->] | [? _]]; [| done].
  set (var := str_take (1 + i) s).
  case_bool_decide as Hres; cbn [negb];
    [exists "", s; split; [done |]; split; [done |]; by left |].
  exists var, (str_drop (1 + i) s). split; [done |].
  split; [apply str_take_drop |]. right.
  assert (Hchars : allChars nameChar var = true).
  { apply allChars_take; [lia |]. intros m Hm.
    destruct m as [|m].
    { exists c0. split; [done |]. unfold nameChar.
      apply orb_true_iff in H0 as [-> | ->]; [done | by rewrite orb_true_r]. }
    assert (Hnone := Hbefore m (S m) ltac:(lia)).
    rewrite lookup_seq_lt in Hnone by lia. specialize (Hnone eq_refl).
    cbv beta in Hnone.
    by destruct (consumeVar_turn self s (S m) _ ltac:(lia) Hnone)
      as [? | (_ & _ & ?)]. }
  assert (Hvar : checkVariableSyntax var = Ok true).
  { unfold checkVariableSyntax. rewrite bool_decide_eq_false_2 by done.
    unfold var, s. cbn [str_take Nat.add]. rewrite H0. cbn [negb].
    f_equal. apply Hchars. }
  split; [done |]. unfold Token_init.
  assert ((var ∉ constantsList) /\ (var ∉ functionsList)) as [Hc Hf].
  { split; intros Hin; apply Hres, elem_of_app; [by left | by right]. }
  rewrite (bool_decide_eq_false_2 (var ∈ constantsList)) by done.
  rewrite (bool_decide_eq_false_2 (var ∈ functionsList)) by done.
  rewrite (bool_decide_eq_false_2 (var ∈ infixOpsList))
    by by apply name_not_infix.
  by rewrite Hvar.
Qed.

(** X9.  On a non-empty input [consumeVar] returns, and splits the input in
    two; the name that it consumes, when there is one, passes
    [checkVariableSyntax] and makes a token of type VAR. *)
Theorem consumeVar_valid_name (self : QParser) (s : string) :
  (0 < str_len s)%nat ->
  exists var t,
    consumeVar self s = Ok (inr var, t)
    /\ var +:+ t = s
    /\ (var = ""
        \/ (checkVariableSyntax var = Ok true
            /\ Token_init var = Ok (tok "VAR" var))).
Proof. exact (consumeVar_name self s). Qed.

Lemma consumeVar_valid_name_witness :
  exists var t,
    consumeVar parser "x_23//4" = Ok (inr var, t)
    /\ var +:+ t = "x_23//4"
    /\ (var = ""
        \/ (checkVariableSyntax var = Ok true
            /\ Token_init var = Ok (tok "VAR" var))).
Proof. apply (consumeVar_valid_name parser "x_23//4"). vm_compute. lia. Defined.

(** * The checks of the input string *)

(** ** showInStr *)

Lemma concat_empty_cons (x : string) (l : list string) :
  String.concat "" (x :: l) = x +:+ String.concat "" l.
Proof.
  destruct l as [|y l]; [| reflexivity]. simpl. by rewrite str_app_empty_r.
Qed.

Lemma concat_replicate_spaces (n : nat) :
  String.concat "" (replicate n (" " : string)) = spaces n.
Proof.
  induction n as [|n IH]; [done |].
  cbn [replicate]. rewrite concat_empty_cons, IH. done.
Qed.

Lemma concat_empty_app (l1 l2 : list string) :
  String.concat "" (l1 ++ l2) = String.concat "" l1 +:+ String.concat "" l2.
Proof.
  induction l1 as [|x l1 IH]; [done |].
  change ((x :: l1) ++ l2) with (x :: (l1 ++ l2)).
  by rewrite !concat_empty_cons, IH, str_app_assoc.
Qed.

Lemma showInStr_at (pre post : string) (c : ascii) :
  showInStr (pre +:+ String c post) (Z.of_nat (str_len pre))
  = [pre +:+ String c post; (spaces (str_len pre) +:+ "^") +:+ spaces (str_len post)].
Proof.
  unfold showInStr. rewrite str_len_app.
  assert (Hlen : str_len (String c post) = S (str_len post)) by done.
  rewrite Hlen.
  destruct (Z.leb_spec 0 (Z.of_nat (str_len pre))); [| lia].
  destruct (Z.ltb_spec (Z.of_nat (str_len pre))
              (Z.of_nat (str_len pre + S (str_len post)))); [| lia].
  cbn [andb]. rewrite Nat2Z.id. f_equal. f_equal.
  rewrite insert_replicate_lt by lia.
  replace (str_len pre + S (str_len post) - S (str_len pre))%nat
    with (str_len post) by lia.
  rewrite concat_empty_app, concat_empty_cons, !concat_replicate_spaces.
  by rewrite <- str_app_assoc.
Qed.

(** X10.  Asked to point at a character of the string, [showInStr] prints the
    string and, below it, a line of the same length that bears the caret at
    that place and spaces elsewhere; asked to point outside the string, it
    prints the string alone. *)
Theorem showInStr_caret :
  (forall (pre post : string) (c : ascii),
     showInStr (pre +:+ String c post) (Z.of_nat (str_len pre))
     = [pre +:+ String c post;
        (spaces (str_len pre) +:+ "^") +:+ spaces (str_len post)])
  /\ (forall (s : string) (loc : Z),
        loc < 0 \/ Z.of_nat (str_len s) <= loc -> showInStr s loc = [s]).
Proof.
  split; [apply showInStr_at |].
  intros s loc Hloc. unfold showInStr.
  destruct (Z.leb_spec 0 loc); [| done].
  destruct (Z.ltb_spec loc (Z.of_nat (str_len s))); [lia | done].
Qed.

(** ** sanityCheck *)

Lemma sanityCheck_test_supported (c : ascii) :
  sanityCheck_test
    (foldl (fun ext t => ext ++ list_ascii_of_string t.1) [] INFIX_OPS) c
  = supportedChar c.
Proof.
  unfold sanityCheck_test, supportedChar, alphaChar, digitChar. cbn [foldl INFIX_OPS fst list_ascii_of_string app].
  destruct ((ord "a" <=? ord c)%nat && (ord c <=? ord "z")%nat);
    destruct ((ord "A" <=? ord c)%nat && (ord c <=? ord "Z")%nat);
    cbn [orb]; try done.
  destruct ((ord "0" <=? ord c)%nat && (ord c <=? ord "9")%nat); cbn [orb]; [done |].
  repeat case_bool_decide; try done; exfalso;
    repeat match goal with
           | H : _ ∈ _ :: _ |- _ => apply elem_of_cons in H as [-> | H]
           | H : _ ∈ [] |- _ => by apply elem_of_nil in H
           | H : _ ∉ _ |- _ => by (apply H; repeat constructor)
           end.
Qed.

Lemma sanityCheck_loop_verdict (inputStr : string) (loc : nat) (chars : string) :
  (sanityCheck_loop inputStr
     (foldl (fun ext t => ext ++ list_ascii_of_string t.1) [] INFIX_OPS)
     loc chars).1
  = allChars supportedChar chars.
Proof.
  revert loc. induction chars as [|c chars IH]; intros loc; [done |].
  cbn [sanityCheck_loop]. rewrite sanityCheck_test_supported.
  unfold allChars. cbn [list_ascii_of_string forallb].
  destruct (supportedChar c); [apply IH | done].
Qed.

(** X11.  [sanityCheck] passes exactly when every character of the input is a
    letter, a digit, a space or one of [+ - * / ^ . , _ ( )]. *)
Theorem sanityCheck_verdict (self : QParser) (s : string) :
  (sanityCheck self s).1 = allChars supportedChar (inputStr_of self s).
Proof. apply sanityCheck_loop_verdict. Qed.

Lemma sanityCheck_loop_report (inputStr : string) (chars post : string) (c : ascii) :
  forall pre,
    inputStr = pre +:+ (chars +:+ String c post) ->
    allChars supportedChar chars = true -> supportedChar c = false ->
    sanityCheck_loop inputStr
      (foldl (fun ext t => ext ++ list_ascii_of_string t.1) [] INFIX_OPS)
      (str_len pre) (chars +:+ String c post)
    = (false,
       [inputStr;
        (spaces (str_len (pre +:+ chars)) +:+ "^") +:+ spaces (str_len post);
        "[ERROR] this character is not supported by the parser."]).
Proof.
  induction chars as [|x chars IH]; intros pre Hinp Hchars Hc.
  - change ("" +:+ String c post) with (String c post) in *.
    cbn [sanityCheck_loop]. rewrite sanityCheck_test_supported, Hc. cbn [negb].
    rewrite Hinp, showInStr_at, str_app_empty_r. done.
  - rewrite str_app_cons in *. cbn [sanityCheck_loop].
    unfold allChars in Hchars. cbn [list_ascii_of_string forallb] in Hchars.
    apply andb_true_iff in Hchars as [Hx Hchars].
    rewrite sanityCheck_test_supported, Hx. cbn [negb].
    specialize (IH (pre +:+ String x "")).
    rewrite str_len_app in IH. change (str_len (String x "")) with 1%nat in IH.
    replace (str_len pre + 1)%nat with (S (str_len pre)) in IH by lia.
    rewrite IH; [| | done..].
    + by rewrite (str_app_assoc pre (String x "") chars).
    + rewrite Hinp. by rewrite (str_app_assoc pre (String x "")).
Qed.

(** X12.  When [sanityCheck] fails it prints the input, a caret under the
    first character that is not supported, and its error message. *)
Theorem sanityCheck_report (self : QParser) (s pre post : string) (c : ascii) :
  inputStr_of self s = pre +:+ String c post ->
  allChars supportedChar pre = true -> supportedChar c = false ->
  sanityCheck self s
  = (false,
     [inputStr_of self s;
      (spaces (str_len pre) +:+ "^") +:+ spaces (str_len post);
      "[ERROR] this character is not supported by the parser."]).
Proof.
  intros Hinp Hpre Hc. unfold sanityCheck. cbv zeta.
  assert (H := sanityCheck_loop_report (inputStr_of self s) pre post c ""
                 Hinp Hpre Hc).
  change (str_len "") with 0%nat in H. change ("" +:+ pre) with pre in H.
  by rewrite <- Hinp in H.
Qed.

Lemma sanityCheck_report_witness :
  sanityCheck parser "in#putStr"
  = (false,
     [inputStr_of parser "in#putStr";
      (spaces (str_len "in") +:+ "^") +:+ spaces (str_len "putStr");
      "[ERROR] this character is not supported by the parser."]).
Proof.
  apply (sanityCheck_report parser "in#putStr" "in" "putStr" "#");
    reflexivity.
Defined.

(** ** bracketBalanceCheck *)

Lemma depth_cons (c : ascii) (s : string) :
  depth (String c s)
  = (if Ascii.eqb c "(" then 1 else if Ascii.eqb c ")" then -1 else 0) + depth s.
Proof.
  unfold depth. cbn [countChar].
  destruct (Ascii.eqb c "(") eqn:H1; destruct (Ascii.eqb c ")") eqn:H2; try lia.
  apply Ascii.eqb_eq in H1, H2. congruence.
Qed.

Lemma bracketBalanceCheck_loop_verdict (inputStr : string) (chars : string) :
  forall level loc, 0 <= level ->
    (bracketBalanceCheck_loop inputStr level loc chars).1 = true
    <-> forall n, (n <= str_len chars)%nat -> 0 <= level + depth (str_take n chars).
Proof.
  induction chars as [|c chars IH]; intros level loc Hlevel.
  - simpl. split; [| done]. intros _ n _. destruct n; unfold depth; simpl; lia.
  - cbn [bracketBalanceCheck_loop].
    set (level' := if Ascii.eqb c "(" then level + 1
                   else if Ascii.eqb c ")" then level - 1 else level).
    assert (Hstep : forall n, level + depth (str_take (S n) (String c chars))
                              = level' + depth (str_take n chars)).
    { intros n. cbn [str_take]. rewrite depth_cons. unfold level'.
      destruct (Ascii.eqb c "("); [lia |]. destruct (Ascii.eqb c ")"); lia. }
    destruct (Z.ltb_spec level' 0) as [Hneg | Hpos].
    + split; [done |]. intros H. specialize (H 1%nat ltac:(unfold str_len; simpl; lia)).
      rewrite Hstep in H. replace (str_take 0 chars) with "" in H by by destruct chars.
      unfold depth in H. simpl in H. lia.
    + rewrite (IH level' (S loc) Hpos). split.
      * intros H [|n] Hn; [unfold depth; simpl; lia |].
        rewrite Hstep. apply H. unfold str_len in *. simpl in Hn. lia.
      * intros H n Hn. rewrite <- Hstep. apply H. unfold str_len in *. simpl. lia.
Qed.

(** X13.  [bracketBalanceCheck] passes exactly when no prefix of the input
    holds more closing than opening brackets; brackets left open at the end
    are accepted. *)
Theorem bracketBalanceCheck_verdict (self : QParser) (s : string) :
  (bracketBalanceCheck self s).1 = true
  <-> forall n, (n <= str_len (inputStr_of self s))%nat ->
                0 <= depth (str_take n (inputStr_of self s)).
Proof.
  unfold bracketBalanceCheck. cbv zeta.
  rewrite bracketBalanceCheck_loop_verdict by lia.
  split; intros H n Hn; specialize (H n Hn); lia.
Qed.

Lemma bracketBalanceCheck_loop_report (inputStr : string) (chars post : string) :
  forall pre level,
    inputStr = pre +:+ (chars +:+ String ")" post) ->
    (forall n, (n <= str_len chars)%nat -> 0 <= level + depth (str_take n chars)) ->
    level + depth chars = 0 ->
    bracketBalanceCheck_loop inputStr level (str_len pre) (chars +:+ String ")" post)
    = (false,
       [inputStr;
        (spaces (str_len (pre +:+ chars)) +:+ "^") +:+ spaces (str_len post);
        "[ERROR] closing parenthesis in excess."]).
Proof.
  induction chars as [|x chars IH]; intros pre level Hinp Hpre Hzero.
  - change ("" +:+ String ")" post) with (String ")" post) in *.
    cbn [bracketBalanceCheck_loop]. simpl (Ascii.eqb _ _). cbv zeta.
    unfold depth in Hzero. simpl in Hzero.
    rewrite Hinp, showInStr_at, str_app_empty_r.
    change (Ascii.eqb ")" "(") with false. change (Ascii.eqb ")" ")") with true.
    cbv iota. destruct (Z.ltb_spec (level - 1) 0); [done | lia].
  - rewrite str_app_cons in *. cbn [bracketBalanceCheck_loop].
    set (level' := if Ascii.eqb x "(" then level + 1
                   else if Ascii.eqb x ")" then level - 1 else level).
    assert (Hstep : forall n, level + depth (str_take (S n) (String x chars))
                              = level' + depth (str_take n chars)).
    { intros n. cbn [str_take]. rewrite depth_cons. unfold level'.
      destruct (Ascii.eqb x "("); [lia |]. destruct (Ascii.eqb x ")"); lia. }
    assert (Hlevel' : 0 <= level').
    { specialize (Hpre 1%nat ltac:(unfold str_len; simpl; lia)).
      rewrite Hstep in Hpre.
      replace (str_take 0 chars) with "" in Hpre by by destruct chars.
      unfold depth in Hpre. simpl in Hpre. lia. }
    destruct (Z.ltb_spec level' 0); [lia |].
    specialize (IH (pre +:+ String x "") level').
    rewrite str_len_app in IH. change (str_len (String x "")) with 1%nat in IH.
    replace (str_len pre + 1)%nat with (S (str_len pre)) in IH by lia.
    rewrite IH.
    + by rewrite (str_app_assoc pre (String x "") chars).
    + rewrite Hinp. by rewrite (str_app_assoc pre (String x "")).
    + intros n Hn. rewrite <- Hstep. apply Hpre. unfold str_len in *. simpl. lia.
    + rewrite depth_cons in Hzero. unfold level'.
      destruct (Ascii.eqb x "("); [lia |]. destruct (Ascii.eqb x ")"); lia.
Qed.

(** X14.  When [bracketBalanceCheck] fails it prints the input, a caret under
    the first closing bracket that has no opening bracket before it, and its
    error message. *)
Theorem bracketBalanceCheck_report (self : QParser) (s pre post : string) :
  inputStr_of self s = pre +:+ String ")" post ->
  (forall n, (n <= str_len pre)%nat -> 0 <= depth (str_take n pre)) ->
  depth pre = 0 ->
  bracketBalanceCheck self s
  = (false,
     [inputStr_of self s;
      (spaces (str_len pre) +:+ "^") +:+ spaces (str_len post);
      "[ERROR] closing parenthesis in excess."]).
Proof.
  intros Hinp Hpre Hzero. unfold bracketBalanceCheck. cbv zeta.
  assert (H := bracketBalanceCheck_loop_report (inputStr_of self s) pre post "" 0
                 Hinp Hpre ltac:(lia)).
  change (str_len "") with 0%nat in H. change ("" +:+ pre) with pre in H.
  by rewrite <- Hinp in H.
Qed.

Lemma bracketBalanceCheck_report_witness :
  bracketBalanceCheck parser "cos(x))+1"
  = (false,
     [inputStr_of parser "cos(x))+1";
      (spaces (str_len "cos(x)") +:+ "^") +:+ spaces (str_len "+1");
      "[ERROR] closing parenthesis in excess."]).
Proof.
  apply (bracketBalanceCheck_report parser "cos(x))+1" "cos(x)" "+1");
    [reflexivity | | reflexivity].
  intros n Hn.
  do 7 (destruct n as [|n]; [vm_compute; discriminate |]).
  vm_compute in Hn. lia.
Defined.

(** ** firstOrderCheck *)

Lemma str_drop_S (n : nat) (s t : string) (c : ascii) :
  str_drop n s = String c t -> str_drop (S n) s = t.
Proof.
  revert s. induction n as [|n IH]; intros s.
  - destruct s; [done |]. simpl. by intros [= _ ->].
  - destruct s as [|c' s]; [done |]. simpl. intros H. by apply IH in H.
Qed.

Lemma for_first_Some_elem {A : Type} (body : nat -> option A) (range : list nat) (r : A) :
  for_first body range = Some r -> exists n, n ∈ range /\ body n = Some r.
Proof.
  intros (i & n & Hi & Hn & _)%for_first_Some. exists n. split; [| done].
  by eapply list_elem_of_lookup_2.
Qed.

Lemma firstOrderCheck_body_refuses (inputStr : string) (i : nat)
    (r : bool * list string) :
  firstOrderCheck_body inputStr i = Some r ->
  r.1 = false
  /\ exists charA charB,
       String.get i inputStr = Some charA
       /\ String.get (i + 1) inputStr = Some charB
       /\ String charA (String charB "") ∈ refusedPairs.
Proof.
  unfold firstOrderCheck_body.
  destruct (String.get i inputStr) as [charA|]; [| done].
  destruct (String.get (i + 1) inputStr) as [charB|]; [| done].
  destruct (Ascii.eqb charA "." && Ascii.eqb charB ".") eqn:H1.
  { apply andb_true_iff in H1 as [->%Ascii.eqb_eq ->%Ascii.eqb_eq].
    intros [= <-]. split; [done |]. eexists _, _. repeat split. repeat constructor. }
  destruct (Ascii.eqb charA "," && Ascii.eqb charB ",") eqn:H2.
  { apply andb_true_iff in H2 as [->%Ascii.eqb_eq ->%Ascii.eqb_eq].
    intros [= <-]. split; [done |]. eexists _, _. repeat split. repeat constructor. }
  destruct (Ascii.eqb charA "," && Ascii.eqb charB ")") eqn:H3; [| done].
  apply andb_true_iff in H3 as [->%Ascii.eqb_eq ->%Ascii.eqb_eq].
  intros [= <-]. split; [done |]. eexists _, _. repeat split. repeat constructor.
Qed.

Lemma firstOrderCheck_body_refused (inputStr : string) (i : nat) (charA charB : ascii) :
  String.get i inputStr = Some charA ->
  String.get (i + 1) inputStr = Some charB ->
  String charA (String charB "") ∈ refusedPairs ->
  firstOrderCheck_body inputStr i <> None.
Proof.
  intros HA HB Hin. unfold firstOrderCheck_body. rewrite HA, HB.
  unfold refusedPairs in Hin.
  repeat (apply elem_of_cons in Hin as [[= -> ->] | Hin]; [done |]).
  by apply elem_of_nil in Hin.
Qed.

(** X15.  [firstOrderCheck] fails exactly when the input holds two dots in a
    row, two commas in a row, or a comma followed at once by a closing
    bracket. *)
Theorem firstOrderCheck_verdict (self : QParser) (s : string) :
  (firstOrderCheck self s).1 = false
  <-> exists pre pat post,
        inputStr_of self s = pre +:+ (pat +:+ post) /\ pat ∈ refusedPairs.
Proof.
  unfold firstOrderCheck. set (inputStr := inputStr_of self s). split.
  - destruct (for_first _ _) as [r|] eqn:Hfor; [| done]. intros _.
    apply for_first_Some_elem in Hfor as (i & _ & Hbody).
    apply firstOrderCheck_body_refuses in Hbody
      as (_ & charA & charB & HA & HB & Hin).
    apply get_drop in HA as [t Ht].
    rewrite Nat.add_1_r in HB. apply get_drop in HB as [t' Ht'].
    rewrite (str_drop_S _ _ _ _ Ht) in Ht'. subst t.
    exists (str_take i inputStr), (String charA (String charB "")), t'.
    split; [| done]. rewrite <- (str_take_drop i inputStr) at 1. by rewrite Ht.
  - intros (pre & pat & post & Hinp & Hin).
    assert (exists charA charB, pat = String charA (String charB ""))
      as (charA & charB & ->).
    { unfold refusedPairs in Hin.
      repeat (apply elem_of_cons in Hin as [-> | Hin]; [by eexists _, _ |]).
      by apply elem_of_nil in Hin. }
    change (String charA (String charB "") +:+ post)
      with (String charA (String charB post)) in Hinp.
    assert (Hdrop : str_drop (str_len pre) inputStr = String charA (String charB post)).
    { rewrite Hinp. apply str_drop_app_exact. }
    assert (HA : String.get (str_len pre) inputStr = Some charA).
    { apply get_drop. by eexists. }
    assert (HB : String.get (str_len pre + 1) inputStr = Some charB).
    { rewrite Nat.add_1_r. apply get_drop. exists post.
      by apply (str_drop_S _ _ _ _ Hdrop). }
    assert (Hlen : str_len inputStr = (str_len pre + (2 + str_len post))%nat).
    { rewrite Hinp, str_len_app. done. }
    destruct (for_first _ _) as [r|] eqn:Hfor.
    + apply for_first_Some_elem in Hfor as (i & _ & Hbody).
      by apply firstOrderCheck_body_refuses in Hbody as [? _].
    + apply for_first_None with (n := str_len pre) in Hfor;
        [| apply elem_of_seq; lia].
      by apply firstOrderCheck_body_refused with (charA := charA) (charB := charB)
        in Hfor.
Qed.

(** ** addVariable *)

(** X16.  [addVariable] keeps the list of variables free of duplicates and
    keeps what it holds; a non-empty name is in the list after the call, the
    empty name is never added, and a second call with the same name changes
    nothing. *)
Theorem addVariable_no_duplicates (self : QParser) (v : string) :
  NoDup (variables self) ->
  NoDup (variables (addVariable self v))
  /\ (forall w, w ∈ variables self -> w ∈ variables (addVariable self v))
  /\ (v <> "" -> v ∈ variables (addVariable self v))
  /\ ("" ∈ variables (addVariable self v) -> "" ∈ variables self)
  /\ addVariable (addVariable self v) v = addVariable self v
  /\ input (addVariable self v) = input self.
Proof.
  intros Hnd.
  assert (Hcases :
    (addVariable self v = self /\ (v = "" \/ v ∈ variables self))
    \/ (addVariable self v = mkQParser (input self) (variables self ++ [v])
        /\ v <> "" /\ v ∉ variables self)).
  { unfold addVariable. destruct v as [|c v]; [left; split; [done | by left] |].
    change (0 <? str_len (String c v))%nat with true. cbv iota.
    case_bool_decide as Hin; cbn [negb]; [left; split; [done | by right] |].
    right. by repeat split. }
  destruct Hcases as [[Heq Hwhy] | (Heq & Hne & Hnin)].
  - rewrite !Heq. repeat split; try done.
    + intros Hv. by destruct Hwhy.
  - assert (Hagain : addVariable (mkQParser (input self) (variables self ++ [v])) v
                     = mkQParser (input self) (variables self ++ [v])).
    { unfold addVariable. destruct v as [|c v]; [done |].
      change (0 <? str_len (String c v))%nat with true. cbv iota.
      cbn [variables]. rewrite bool_decide_eq_true_2; [done |].
      apply elem_of_app. right. constructor. }
    rewrite !Heq, Hagain. cbn [variables input].
    split; [| split; [| split; [| split; [| split]]]]; try done.
    + apply NoDup_app. split; [done |]. split; [| apply NoDup_singleton].
      intros x Hx ->%list_elem_of_singleton. done.
    + intros w Hw. apply elem_of_app. by left.
    + intros _. apply elem_of_app. right. constructor.
    + intros [H | H%list_elem_of_singleton]%elem_of_app; done.
Qed.

Lemma addVariable_no_duplicates_witness :
  NoDup (variables (addVariable (mkQParser "" ["x"]) "R2"))
  /\ "R2" ∈ variables (addVariable (mkQParser "" ["x"]) "R2").
Proof.
  destruct (addVariable_no_duplicates (mkQParser "" ["x"]) "R2")
    as (H1 & _ & H3 & _).
  - apply NoDup_singleton.
  - split; [exact H1 | apply H3; discriminate].
Defined.

(** * Further properties of tokenize *)

Lemma Token_type_not_function (nm : string) (t : Token) :
  Token_init nm = Ok t -> nm ∉ functionsList -> type t <> "FUNCTION".
Proof.
  intros (_ & _ & Hf & _)%Token_init_classes Hnin Hty. by apply Hnin, Hf.
Qed.

Lemma digit_first_not_function (c : ascii) (rest : string) :
  digitChar c = true -> String c rest ∉ functionsList.
Proof.
  intros Hd Hin.
  destruct (reserved_shape (String c rest)) as [(x & r' & [= <- <-] & Hx) _].
  { apply elem_of_app. by right. }
  by rewrite (alpha_digit_disjoint c Hx) in Hd.
Qed.

(** One turn of the loop of [tokenize] on a non-empty input: the leading
    spaces go, then one token is consumed, or a function and its bracket, or
    nothing at all. *)
Lemma tokenize_body_cases (self : QParser) (inp : string) (toks : list Token)
    (r : loop (string * list Token)) :
  (0 < str_len inp)%nat ->
  tokenize_body self (inp, toks) = Ok r ->
  exists sp rest,
    sp +:+ rest = inp
    /\ allChars spaceChar sp = true
    /\ startsWith (fun c => negb (spaceChar c)) rest = true
    /\ ((exists x tail t,
           r = Continue (tail, toks ++ [t]) /\ Token_init x = Ok t
           /\ x +:+ tail = rest /\ x <> "" /\ type t <> "FUNCTION")
        \/ (exists f tail t b,
              r = Continue (tail, (toks ++ [t]) ++ [b])
              /\ f ∈ functionsList /\ Token_init f = Ok t /\ type t = "FUNCTION"
              /\ Token_init "(" = Ok b
              /\ (f +:+ "(") +:+ tail = rest)
        \/ r = Continue (rest, toks)).
Proof.
  intros Hlen. unfold tokenize_body, mbind, res_bind.
  assert (Hsp := consumeSpace_cases self inp).
  destruct (consumeSpace self inp) as [[sp rest]|]; [| discriminate].
  rewrite (inputStr_of_nonempty _ _ Hlen) in Hsp. destruct Hsp as (Hcat & Hsp & Hrest).
  destruct rest as [|c rest']; [done |]. set (rest := String c rest') in *.
  assert (Hlen' : (0 < str_len rest)%nat) by (unfold str_len; simpl; lia).
  destruct (Nat.eqb_spec (str_len rest) 0) as [H0 | _]; [lia |].
  intros H. exists sp, rest. do 3 (split; [done |]). revert H.
  destruct (consumeNumber self rest) as [[number tailNumber]|] eqn:HN; [| discriminate].
  destruct (consumeConst self rest) as [[constant tailConstant]|] eqn:HC; [| discriminate].
  destruct (consumeFunc self rest) as [function tailFunction] eqn:HF.
  destruct (consumeVar self rest) as [[variable tailVariable]|] eqn:HV; [| discriminate].
  destruct (consumeInfix self rest) as [infix tailInfix] eqn:HI.
  case_bool_decide as Hnum; simpl negb; cbv iota.
  2:{ destruct (Token_init number) as [t|] eqn:Ht; [| discriminate].
      intros [= <-]. left. exists number, tailNumber, t.
      assert (Hcat' := consumeNumber_concat _ _ _ _ Hlen' HN).
      do 4 (split; [done |]).
      apply (Token_type_not_function _ _ Ht).
      destruct (digitChar c) eqn:Hd.
      - destruct number as [|c' number]; [done |].
        injection Hcat' as -> _. by apply digit_first_not_function.
      - unfold rest in HN. rewrite consumeNumber_without_digit in HN by done.
        by injection HN as <- _. }
  case_bool_decide as Hcst; simpl negb; cbv iota.
  2:{ destruct (Token_init constant) as [t|] eqn:Ht; [| discriminate].
      intros [= <-]. left. exists constant, tailConstant, t.
      destruct (consumeConst_accepted _ _ _ _ Hlen' HC Hcst) as (Hcat' & Hin & _).
      do 4 (split; [done |]).
      apply Token_init_classes in Ht as (_ & Hty & _).
      apply Hty in Hin. congruence. }
  case_bool_decide as Hfun; simpl negb; cbv iota.
  2:{ destruct (Token_init function) as [t|] eqn:Ht; [| discriminate].
      destruct (Token_init "(") as [b|] eqn:Hb; [| discriminate].
      intros [= <-]. right. left. exists function, tailFunction, t, b.
      destruct (consumeFunc_concat _ _ _ _ Hlen' HF Hfun) as [Hin Hcat'].
      do 3 (split; [done |]). split; [| done].
      apply Token_init_classes in Ht as (_ & _ & Hty & _). by apply Hty. }
  case_bool_decide as Hvar; simpl negb; cbv iota.
  2:{ destruct variable as [z | variable]; [discriminate |].
      destruct (Token_init variable) as [t|] eqn:Ht; [| discriminate].
      intros [= <-]. left. exists variable, tailVariable, t.
      destruct (consumeVar_concat _ _ _ _ Hlen' HV) as [Hcat' Hres].
      do 3 (split; [done |]). split; [congruence |].
      apply (Token_type_not_function _ _ Ht). intros Hin.
      destruct Hres as [-> | Hres]; [done |].
      apply Hres, elem_of_app. by right. }
  case_bool_decide as Hinf; simpl negb; cbv iota.
  2:{ destruct (Token_init infix) as [t|] eqn:Ht; [| discriminate].
      intros [= <-]. left. exists infix, tailInfix, t.
      assert (Hcat' := consumeInfix_concat _ _ _ _ Hlen' HI).
      do 4 (split; [done |]).
      destruct (consumeInfix_registered _ _ _ _ Hlen' HI) as [-> | Hin]; [done |].
      apply Token_init_classes in Ht as (_ & _ & _ & Hty & _).
      apply Hty in Hin. congruence. }
  destruct (pop rest) as [head tail] eqn:Hpop.
  apply pop_concat in Hpop.
  repeat (case_bool_decide as Hhead;
          [ destruct (Token_init head) as [t|] eqn:Ht; [| discriminate];
            intros [= <-]; left; exists head, tail, t;
            do 3 (split; [done |]); subst head; split; [done |];
            vm_compute in Ht; injection Ht as <-; discriminate
          | clear Hhead ]).
  intros [= <-]. by right; right.
Qed.

Lemma tokenize_loop_step (self : QParser) (fuel : nat) (inp : string)
    (toks tokens : list Token) :
  (0 < str_len inp)%nat ->
  tokenize_loop self fuel (inp, toks) = Some (Ok tokens) ->
  exists fuel' r,
    fuel = S fuel' /\ tokenize_body self (inp, toks) = Ok r
    /\ match r with
       | Continue st' => tokenize_loop self fuel' st' = Some (Ok tokens)
       | Break st' => st'.2 = tokens
       end.
Proof.
  intros Hlen. rewrite tokenize_loop_unfold. cbn [fst].
  destruct (Nat.ltb_spec 0 (str_len inp)); [| lia].
  destruct fuel as [|fuel']; [done |].
  destruct (tokenize_body self (inp, toks)) as [r|] eqn:Hbody; [| done].
  intros Hloop. exists fuel', r. do 2 (split; [done |]).
  destruct r; [done | by injection Hloop].
Qed.

(** ** Functions and their brackets *)

Lemma functionsCalled_app (a b : list Token) :
  functionsCalled a = true -> functionsCalled b = true ->
  functionsCalled (a ++ b) = true.
Proof.
  intros Ha Hb. induction a as [|t a IH]; [done |].
  cbn [functionsCalled] in Ha. apply andb_true_iff in Ha as [Ht Ha].
  change ((t :: a) ++ b) with (t :: (a ++ b)). cbn [functionsCalled].
  rewrite (IH Ha), andb_true_r.
  case_bool_decide; [| done]. by destruct a.
Qed.

Lemma tokenize_loop_calls (self : QParser) (fuel : nat) :
  forall (inp : string) (toks tokens : list Token),
    functionsCalled toks = true ->
    tokenize_loop self fuel (inp, toks) = Some (Ok tokens) ->
    functionsCalled tokens = true.
Proof.
  induction fuel as [|fuel IH]; intros inp toks tokens Htoks Hloop.
  - rewrite tokenize_loop_unfold in Hloop. cbn [fst snd] in Hloop.
    destruct (0 <? str_len inp)%nat; [done | by injection Hloop as <-].
  - destruct (Nat.ltb_spec 0 (str_len inp)) as [Hlen | H0].
    2:{ rewrite tokenize_loop_unfold in Hloop. cbn [fst snd] in Hloop.
        destruct (Nat.ltb_spec 0 (str_len inp)); [lia |]. by injection Hloop as <-. }
    apply tokenize_loop_step in Hloop as (fuel' & r & [= <-] & Hbody & Hnext);
      [| done].
    destruct (tokenize_body_cases _ _ _ _ Hlen Hbody)
      as (sp & rest & _ & _ & _ &
          [(x & tail & t & -> & Ht & _ & _ & Hty)
          | [(f & tail & t & b & -> & _ & Ht & Hty & Hb & _) | ->]]).
    + eapply IH; [| exact Hnext].
      apply functionsCalled_app; [done |]. cbn [functionsCalled].
      by rewrite bool_decide_eq_false_2.
    + eapply IH; [| exact Hnext].
      rewrite <- app_assoc. apply functionsCalled_app; [done |].
      vm_compute in Hb. injection Hb as <-. cbn [functionsCalled app type].
      rewrite (bool_decide_eq_true_2 _ Hty). done.
    + by apply (IH _ _ _ Htoks Hnext).
Qed.

(** X17.  In the token list that [tokenize] returns, every token of type
    FUNCTION is followed at once by the token of an opening bracket. *)
Theorem tokenize_calls_functions (self : QParser) (fuel : nat) (s : string)
    (tokens : list Token) :
  tokenize self fuel s = Some (Ok tokens) -> functionsCalled tokens = true.
Proof. intros H. by apply tokenize_loop_calls in H. Qed.

Lemma tokenize_calls_functions_witness :
  functionsCalled
    [tok "NUMBER" "2"; tok "FUNCTION" "cos"; tok "BRKT_OPEN" "(";
     tok "VAR" "x"; tok "BRKT_CLOSE" ")"] = true.
Proof.
  apply (tokenize_calls_functions parser 10 "2cos(x)"). vm_compute. reflexivity.
Defined.

(** ** tokenize and sanityCheck *)

Lemma allChars_impl (P Q : ascii -> bool) (s : string) :
  (forall c, P c = true -> Q c = true) -> allChars P s = true -> allChars Q s = true.
Proof.
  intros HPQ. unfold allChars.
  induction (list_ascii_of_string s) as [|c l IH]; [done |]. cbn [forallb].
  intros [Hc Hl]%andb_true_iff. by rewrite (HPQ c Hc), (IH Hl).
Qed.

Lemma nameChar_supported (c : ascii) : nameChar c = true -> supportedChar c = true.
Proof.
  unfold nameChar, supportedChar.
  destruct (alphaChar c); [done |]. destruct (digitChar c); [done |]. cbn [orb].
  intros ->%Ascii.eqb_eq. reflexivity.
Qed.

Lemma numberChar_supported (c : ascii) : numberChar c = true -> supportedChar c = true.
Proof.
  unfold numberChar, supportedChar.
  destruct (digitChar c); [by rewrite orb_true_r |]. cbn [orb].
  intros ->%Ascii.eqb_eq. reflexivity.
Qed.

Lemma spaceChar_supported (c : ascii) : spaceChar c = true -> supportedChar c = true.
Proof. unfold spaceChar. intros ->%Ascii.eqb_eq. reflexivity. Qed.

(** The name of a token holds supported characters only. *)
Lemma Token_init_supported (nm : string) (t : Token) :
  Token_init nm = Ok t -> allChars supportedChar nm = true.
Proof.
  unfold Token_init.
  case_bool_decide as Hc; [intros _; enum_in Hc; reflexivity |].
  case_bool_decide as Hf; [intros _; enum_in Hf; reflexivity |].
  case_bool_decide as Hi; [intros _; enum_in Hi; reflexivity |].
  destruct (checkVariableSyntax nm) as [[|]|] eqn:Hv; unfold mbind, res_bind;
    [| | discriminate].
  { intros _. apply var_first in Hv as (c & rest & _ & _ & Hchars & _).
    exact (allChars_impl _ _ _ nameChar_supported Hchars). }
  repeat (case_bool_decide as Hp; [by subst nm | clear Hp]).
  destruct (isNumber nm) eqn:Hn; cbv beta iota; [| simpl; discriminate].
  intros _. unfold isNumber in Hn. case_bool_decide; [done |].
  apply isNumber_loop_spec in Hn as [Hchars _].
  exact (allChars_impl _ _ _ numberChar_supported Hchars).
Qed.

Lemma tokenize_loop_supported (self : QParser) (fuel : nat) :
  forall (inp : string) (toks tokens : list Token),
    tokenize_loop self fuel (inp, toks) = Some (Ok tokens) ->
    allChars supportedChar inp = true.
Proof.
  induction fuel as [|fuel IH]; intros inp toks tokens Hloop;
    (destruct (Nat.ltb_spec 0 (str_len inp)) as [Hlen | H0];
     [| by rewrite (str_len_0 inp) by lia]).
  - rewrite tokenize_loop_unfold in Hloop. cbn [fst] in Hloop.
    by destruct (Nat.ltb_spec 0 (str_len inp)); [| lia].
  - apply tokenize_loop_step in Hloop as (fuel' & r & [= <-] & Hbody & Hnext);
      [| done].
    destruct (tokenize_body_cases _ _ _ _ Hlen Hbody)
      as (sp & rest & <- & Hsp & _ &
          [(x & tail & t & -> & Ht & <- & _ & _)
          | [(f & tail & t & b & -> & _ & Ht & _ & _ & <-) | ->]]);
      apply IH in Hnext;
      apply (allChars_impl _ _ _ spaceChar_supported) in Hsp;
      rewrite !allChars_app, Hsp, ?Hnext, ?(Token_init_supported _ _ Ht); done.
Qed.

(** X18.  An input that [tokenize] turns into tokens passes [sanityCheck]:
    the lexer consumes supported characters only. *)
Theorem tokenize_passes_sanityCheck (self : QParser) (fuel : nat) (s : string)
    (tokens : list Token) :
  tokenize self fuel s = Some (Ok tokens) -> (sanityCheck self s).1 = true.
Proof.
  intros H. apply tokenize_loop_supported in H.
  unfold sanityCheck. cbv zeta. by rewrite sanityCheck_loop_verdict.
Qed.

Lemma tokenize_passes_sanityCheck_witness :
  (sanityCheck parser "2cos(x)").1 = true.
Proof.
  apply (tokenize_passes_sanityCheck parser 10 "2cos(x)"
           [tok "NUMBER" "2"; tok "FUNCTION" "cos"; tok "BRKT_OPEN" "(";
            tok "VAR" "x"; tok "BRKT_CLOSE" ")"]).
  vm_compute. reflexivity.
Defined.

(** ** White space at the end of the input *)

Lemma lastChar_app (a b : string) : b <> "" -> lastChar (a +:+ b) = lastChar b.
Proof.
  intros Hb. induction a as [|c a IH]; [done |].
  rewrite str_app_cons. cbn [lastChar]. rewrite IH.
  destruct (a +:+ b) eqn:Hab; [| done].
  destruct a; [by simpl in Hab | by rewrite str_app_cons in Hab].
Qed.

Lemma str_app_nonempty (a b : string) : b <> "" -> a +:+ b <> "".
Proof. intros Hb. destruct a; [done | by rewrite str_app_cons]. Qed.

Lemma lastChar_allChars (P : ascii -> bool) (s : string) (c : ascii) :
  allChars P s = true -> lastChar s = Some c -> P c = true.
Proof.
  induction s as [|x s IH]; [done |].
  unfold allChars. cbn [list_ascii_of_string forallb lastChar].
  intros [Hx Hs]%andb_true_iff. destruct s; [by intros [= <-] | by apply IH].
Qed.

Lemma removeSpaces_length (s : string) : (str_len (removeSpaces s) <= str_len s)%nat.
Proof.
  induction s as [|c s IH]; [done |]. cbn [removeSpaces].
  destruct (Ascii.eqb c " "); unfold str_len in *; simpl; lia.
Qed.

Lemma removeSpaces_fixed (s : string) :
  removeSpaces s = s -> allChars (fun c => negb (spaceChar c)) s = true.
Proof.
  induction s as [|c s IH]; [done |]. cbn [removeSpaces].
  unfold allChars, spaceChar. cbn [list_ascii_of_string forallb].
  destruct (Ascii.eqb c " ").
  - intros H. assert (Hlen := removeSpaces_length s). rewrite H in Hlen.
    unfold str_len in Hlen. simpl in Hlen. lia.
  - intros [= H]. by apply IH.
Qed.

Lemma token_name_last (nm : string) (t : Token) :
  Token_init nm = Ok t -> lastChar nm <> Some " "%char.
Proof.
  intros [_ Hns]%Token_init_name Hlast.
  by apply (lastChar_allChars _ _ _ (removeSpaces_fixed _ Hns)) in Hlast.
Qed.

Lemma tokenize_loop_trailing_space (self : QParser) (fuel : nat) :
  forall (inp : string) (toks tokens : list Token),
    lastChar inp = Some " "%char ->
    tokenize_loop self fuel (inp, toks) <> Some (Ok tokens).
Proof.
  induction fuel as [|fuel IH]; intros inp toks tokens Hlast Hloop;
    (assert (Hlen : (0 < str_len inp)%nat)
       by (destruct inp; [done | unfold str_len; simpl; lia])).
  - rewrite tokenize_loop_unfold in Hloop. cbn [fst] in Hloop.
    by destruct (Nat.ltb_spec 0 (str_len inp)); [| lia].
  - apply tokenize_loop_step in Hloop as (fuel' & r & [= <-] & Hbody & Hnext);
      [| done].
    destruct (tokenize_body_cases _ _ _ _ Hlen Hbody)
      as (sp & rest & <- & _ & Hrest &
          [(x & tail & t & -> & Ht & <- & Hx & _)
          | [(f & tail & t & b & -> & _ & Ht & _ & _ & <-) | ->]]).
    + destruct tail as [|c tail].
      * rewrite str_app_empty_r, lastChar_app in Hlast by done.
        by apply (token_name_last _ _ Ht).
      * rewrite (lastChar_app sp) in Hlast by by apply str_app_nonempty.
        rewrite (lastChar_app x) in Hlast by done. by apply IH in Hnext.
    + destruct tail as [|c tail].
      * rewrite str_app_empty_r in Hlast.
        rewrite (lastChar_app sp) in Hlast by by apply str_app_nonempty.
        rewrite (lastChar_app f) in Hlast by done. done.
      * rewrite (lastChar_app sp) in Hlast by by apply str_app_nonempty.
        rewrite (lastChar_app (f +:+ "(")) in Hlast by done. by apply IH in Hnext.
    + rewrite lastChar_app in Hlast by by destruct rest. by apply IH in Hnext.
Qed.

(** X19.  [tokenize] returns no token list for an input that ends with a
    space: it raises an exception or never returns. *)
Theorem tokenize_trailing_space (self : QParser) (fuel : nat) (s : string)
    (tokens : list Token) :
  lastChar (inputStr_of self s) = Some " "%char ->
  tokenize self fuel s <> Some (Ok tokens).
Proof. intros Hlast. by apply tokenize_loop_trailing_space. Qed.

Lemma tokenize_trailing_space_witness :
  tokenize parser 10 "2x " <> Some (Ok [tok "NUMBER" "2"; tok "VAR" "x"])
  /\ tokenize parser 10 "2x " = Some (Raise TypeError).
Proof.
  split; [| reflexivity].
  apply (tokenize_trailing_space parser 10 "2x "). reflexivity.
Defined.

(** X20.  On a non-empty input made of spaces only, [tokenize] raises
    TypeError: [consumeSpace] returns None, which cannot be unpacked. *)
Theorem tokenize_blank_input (self : QParser) (fuel : nat) (s : string) :
  (0 < str_len (inputStr_of self s))%nat ->
  allChars spaceChar (inputStr_of self s) = true ->
  tokenize self (S fuel) s = Some (Raise TypeError).
Proof.
  intros Hlen Hblank. unfold tokenize. set (inp := inputStr_of self s) in *.
  rewrite tokenize_loop_unfold. cbn [fst].
  destruct (Nat.ltb_spec 0 (str_len inp)); [| lia].
  unfold tokenize_body.
  assert (Hsp := consumeSpace_cases self inp).
  destruct (consumeSpace self inp) as [[h t]|]; [| done].
  rewrite (inputStr_of_nonempty _ _ Hlen) in Hsp. destruct Hsp as (<- & _ & Ht).
  rewrite allChars_app in Hblank. apply andb_true_iff in Hblank as [_ Hblank].
  destruct t as [|c t]; [done |]. cbn [startsWith] in Ht.
  unfold allChars in Hblank. cbn [list_ascii_of_string forallb] in Hblank.
  apply andb_true_iff in Hblank as [Hc _]. by rewrite Hc in Ht.
Qed.

Lemma tokenize_blank_input_witness :
  tokenize parser 1 "   " = Some (Raise TypeError).
Proof.
  apply (tokenize_blank_input parser 0 "   "); [vm_compute; lia | reflexivity].
Defined.

(** * Further properties of expandMult *)

Lemma infix_never_listed (ty : string) :
  ((ty, "INFIX") ∉ multCases) /\ (("INFIX", ty) ∉ multCases).
Proof.
  split; intros Hin; unfold multCases in Hin;
    repeat (apply elem_of_cons in Hin as [[= ] | Hin]);
    by apply elem_of_nil in Hin.
Qed.

Lemma insertStars_cons2 (tokA tokB : Token) (tl : list Token) :
  insertStars (tokA :: tokB :: tl)
  = tokA :: (if bool_decide ((type tokA, type tokB) ∈ multCases)
             then [op "*" 2] else [])
      ++ insertStars (tokB :: tl).
Proof. reflexivity. Qed.

Lemma insertStars_twice (tl : list Token) :
  forall tokA, insertStars (insertStars (tokA :: tl)) = insertStars (tokA :: tl).
Proof.
  induction tl as [|tokB tl IH]; intros tokA; [done |].
  rewrite (insertStars_cons2 tokA tokB tl).
  specialize (IH tokB).
  assert (exists rest, insertStars (tokB :: tl) = tokB :: rest) as [rest Hrest].
  { destruct tl; simpl; by eexists. }
  rewrite Hrest in IH |- *.
  destruct (infix_never_listed (type tokA)) as [HA _].
  destruct (infix_never_listed (type tokB)) as [_ HB].
  case_bool_decide as Hlisted; cbn [app].
  - rewrite !insertStars_cons2. change (type (op "*" 2)) with "INFIX".
    rewrite (bool_decide_eq_false_2 _ HA), (bool_decide_eq_false_2 _ HB).
    cbn [app]. by rewrite IH.
  - rewrite insertStars_cons2, (bool_decide_eq_false_2 _ Hlisted).
    cbn [app]. by rewrite IH.
Qed.

(** X21.  [expandMult] always returns, and expanding what it returns changes
    nothing more: no multiplication is missing next to one that was put in. *)
Theorem expandMult_idempotent (self : QParser) (tokens : list Token) :
  exists out, expandMult self tokens = Ok out /\ expandMult self out = Ok out.
Proof.
  exists (insertStars tokens). rewrite !expandMult_inserts. split; [done |].
  destruct tokens as [|tokA tl]; [done |]. by rewrite insertStars_twice.
Qed.

Lemma insertStars_sublist (tl : list Token) :
  forall tokA,
    sublist (tokA :: tl) (insertStars (tokA :: tl))
    /\ (length (insertStars (tokA :: tl)) < 2 * length (tokA :: tl))%nat
    /\ Forall (fun t => t ∈ tokA :: tl \/ t = op "*" 2) (insertStars (tokA :: tl)).
Proof.
  induction tl as [|tokB tl IH]; intros tokA.
  { split; [done |]. split; [simpl; lia |]. repeat constructor. }
  rewrite (insertStars_cons2 tokA tokB tl).
  destruct (IH tokB) as (Hsub & Hlen & Hall).
  assert (Hall' : Forall (fun t => t ∈ tokA :: tokB :: tl \/ t = op "*" 2)
                    (insertStars (tokB :: tl))).
  { eapply Forall_impl; [exact Hall |]. intros t [Ht | Ht]; [left | by right].
    by apply list_elem_of_further. }
  case_bool_decide; cbn [app length] in *.
  - split; [by apply sublist_skip, sublist_cons |]. split; [lia |].
    constructor; [left; constructor |]. constructor; [by right | done].
  - split; [by apply sublist_skip |]. split; [lia |].
    constructor; [left; constructor | done].
Qed.

(** X22.  [expandMult] neither drops nor reorders nor alters a token: the
    input is a subsequence of the output, whose other tokens are
    multiplication tokens, fewer than the input has tokens. *)
Theorem expandMult_keeps_tokens (self : QParser) (tokens : list Token) :
  exists out,
    expandMult self tokens = Ok out
    /\ sublist tokens out
    /\ (length out <= 2 * length tokens - 1)%nat
    /\ Forall (fun t => t ∈ tokens \/ t = op "*" 2) out.
Proof.
  exists (insertStars tokens). rewrite expandMult_inserts. split; [done |].
  destruct tokens as [|tokA tl]; [by repeat split |].
  destruct (insertStars_sublist tl tokA) as (Hsub & Hlen & Hall).
  repeat split; [done | lia | done].
Qed.

(** * Further properties of the Binary class *)

(** ** _getPriorityRange *)

Lemma foldr_min_shift (p mn : Z) (ps : list Z) :
  foldr Z.min (Z.min mn p) ps = Z.min p (foldr Z.min mn ps).
Proof. induction ps as [|q ps IH]; simpl; [lia |]. rewrite IH. lia. Qed.

Lemma foldr_max_shift (p mx : Z) (ps : list Z) :
  foldr Z.max (Z.max mx p) ps = Z.max p (foldr Z.max mx ps).
Proof. induction ps as [|q ps IH]; simpl; [lia |]. rewrite IH. lia. Qed.

Lemma getPriorityRange_fold (l : list node) :
  forall mn mx,
    foldl getPriorityRange_body (mn, mx) l
    = (foldr Z.min mn (priorities l), foldr Z.max mx (priorities l)).
Proof.
  induction l as [|e l IH]; intros mn mx; [done |].
  cbn [foldl]. rewrite priorities_cons. unfold getPriorityRange_body at 2.
  fold (infix e). destruct (infix e); [| apply IH].
  set (p := node_priority e). rewrite IH. cbn [foldr].
  rewrite <- foldr_min_shift, <- foldr_max_shift. f_equal; f_equal.
  - destruct (Z.ltb_spec p mn); lia.
  - destruct (Z.ltb_spec mx p); lia.
Qed.

(** X23.  [_getPriorityRange] returns the least and the greatest priority of
    the infix operators of the list, the first capped at 100 and the second
    floored at -1: with no operator the result is (100, -1). *)
Theorem getPriorityRange_min_max (elementList : list node) :
  getPriorityRange elementList
  = (foldr Z.min 100 (priorities elementList),
     foldr Z.max (-1) (priorities elementList)).
Proof. apply getPriorityRange_fold. Qed.

(** ** _buildStack *)

Lemma plain_last (last : node) :
  plain last = true ->
  bool_decide (node_type last ∈ ["CONSTANT"; "VAR"; "NUMBER"; "MACRO"])
  = negb (infix last).
Proof.
  unfold plain, infix, is_type. intros Hin%bool_decide_eq_true_1.
  repeat (apply elem_of_cons in Hin as [-> | Hin]; [reflexivity |]).
  by apply elem_of_nil in Hin.
Qed.

Lemma buildStack_plain_loop (init : list node) (last : node) :
  forallb plain (init ++ [last]) = true ->
  forall (fuel : nat) (stack : list node),
    (length (init ++ [last]) < fuel)%nat ->
    buildStack fuel (init ++ [last]) stack
    = Some (Ok (stack ++ init ++ (if infix last then [] else [last]), [])).
Proof.
  induction init as [|x init IH]; intros Hplain [|fuel] stack Hfuel;
    try (simpl in Hfuel; lia).
  - cbn [app forallb] in Hplain. apply andb_true_iff in Hplain as [Hlast _].
    cbn [app]. rewrite buildStack_unfold, (plain_last last Hlast).
    destruct (infix last) eqn:Hinf; cbn [negb]; [| done].
    rewrite app_nil_r. by destruct (is_type last "BRKT_CLOSE").
  - change ((x :: init) ++ [last]) with (x :: (init ++ [last])) in *.
    cbn [forallb] in Hplain. apply andb_true_iff in Hplain as [Hx Hplain].
    rewrite buildStack_unfold.
    destruct (init ++ [last]) as [|y tail] eqn:Htail; [by destruct init |].
    unfold plain in Hx. rewrite Hx. cbv beta iota.
    rewrite IH; [| done | simpl in *; lia].
    by rewrite <- !app_assoc.
Qed.

(** X24.  On a list without brackets, functions and commas, [_buildStack]
    copies the elements to the stack in their order and leaves no remainder;
    an infix operator at the very end of the list is dropped. *)
Theorem buildStack_plain (init : list node) (last : node) (fuel : nat)
    (stack : list node) :
  forallb plain (init ++ [last]) = true ->
  (length (init ++ [last]) < fuel)%nat ->
  buildStack fuel (init ++ [last]) stack
  = Some (Ok (stack ++ init ++ (if infix last then [] else [last]), [])).
Proof. intros Hplain Hfuel. by apply buildStack_plain_loop. Qed.

Lemma buildStack_plain_witness :
  buildStack 5 [NUM "2"; PLUS; VAR "x"; MINUS] [] = Some (Ok ([NUM "2"; PLUS; VAR "x"], [])).
Proof.
  apply (buildStack_plain [NUM "2"; PLUS; VAR "x"] MINUS 5 []);
    [reflexivity | simpl; lia].
Defined.

(** ** _splitOp *)

Lemma group_concat (l : list (node * bool)) :
  forall cur flag, concat (group cur flag l).*1 = cur ++ l.*1.
Proof.
  induction l as [|[x b] l IH]; intros cur flag.
  - simpl. by rewrite !app_nil_r.
  - cbn [group]. case_bool_decide.
    + rewrite IH. by rewrite <- app_assoc.
    + cbn [fmap list_fmap fst concat]. fold (fmap (M := list) (@fst (list node) bool)).
      by rewrite IH.
Qed.

Lemma group_head (l : list (node * bool)) (cur : list node) (flag : bool) :
  exists chunk groups, group cur flag l = (chunk, flag) :: groups /\ (cur <> [] -> chunk <> []).
Proof.
  revert cur. induction l as [|[x b] l IH]; intros cur; cbn [group].
  - by eexists _, _.
  - case_bool_decide; [| by eexists _, _].
    destruct (IH (cur ++ [x])) as (chunk & groups & -> & Hne).
    exists chunk, groups. split; [done |]. intros _. apply Hne. by destruct cur.
Qed.

Lemma group_flags (l : list (node * bool)) :
  forall cur flag, flagsAlternate (group cur flag l).*2 = true.
Proof.
  induction l as [|[x b] l IH]; intros cur flag; [done |].
  cbn [group]. case_bool_decide as Hb; [apply IH |].
  specialize (IH [x] b).
  destruct (group_head l [x] b) as (chunk & groups & Hg & _).
  rewrite Hg in IH |- *. cbn [fmap list_fmap snd flagsAlternate] in IH |- *.
  rewrite IH, andb_true_r. by destruct flag, b.
Qed.

Lemma group_chunks (l : list (node * bool)) :
  forall cur flag, cur <> [] -> Forall (fun chunk => chunk <> []) (group cur flag l).*1.
Proof.
  induction l as [|[x b] l IH]; intros cur flag Hcur; cbn [group].
  - by repeat constructor.
  - case_bool_decide.
    + apply IH. by destruct cur.
    + constructor; [done |]. by apply IH.
Qed.

(** X25.  On a stack of (macro)leaves and infix operators in turn, of three
    elements or more, [_splitOp] cuts the stack into chunks: the chunks are
    not empty, put end to end they make the stack again, and their flags
    differ from one chunk to the next.  On a single leaf it returns no chunk
    at all. *)
Theorem splitOp_partition (tokenList : list node) (priority : Z) :
  alternating tokenList = true ->
  exists chunks flags,
    splitOp tokenList priority = Ok (chunks, flags)
    /\ length flags = length chunks
    /\ flagsAlternate flags = true
    /\ Forall (fun chunk => chunk <> []) chunks
    /\ concat chunks = (if (length tokenList =? 1)%nat then [] else tokenList).
Proof.
  intros Halt. unfold splitOp.
  rewrite (splitOp_mark_alternating _ _ Halt). cbn [mbind res_bind].
  destruct tokenList as [|x0 [|x1 rest]]; [done | |].
  { exists [], []. cbn. by repeat split. }
  assert (Hlen := markAlt_length priority (x1 :: rest) x0 false Halt).
  destruct (markAlt priority false (x0 :: x1 :: rest)) as [|b0 marks];
    [done |]. cbn [length] in Hlen.
  destruct (splitOp_cut_group x0 x1 rest b0 marks ltac:(lia)) as [tmp' ->].
  set (G := group [x0] b0 (zip (x1 :: rest) marks)).
  exists G.*1, G.*2. split; [done |].
  split; [by rewrite !length_fmap |].
  split; [apply group_flags |]. split; [by apply group_chunks |].
  unfold G. rewrite group_concat, fst_zip by (cbn [length]; lia). done.
Qed.

Lemma splitOp_partition_witness :
  exists chunks flags,
    splitOp sampleStack 3 = Ok (chunks, flags)
    /\ length flags = length chunks
    /\ flagsAlternate flags = true
    /\ Forall (fun chunk => chunk <> []) chunks
    /\ concat chunks = (if (length sampleStack =? 1)%nat then [] else sampleStack).
Proof. apply (splitOp_partition sampleStack 3). reflexivity. Defined.

(** ** _minusAsOpp *)

Lemma noAdjacentInfix_lookup (stack : list node) :
  noAdjacentInfix stack = true ->
  forall n a b, stack !! n = Some a -> stack !! S n = Some b ->
                infix a && infix b = false.
Proof.
  induction stack as [|x stack IH]; intros Hno n a b Ha Hb; [done |].
  destruct stack as [|y stack]; [done |].
  cbn [noAdjacentInfix] in Hno. apply andb_true_iff in Hno as [Hxy Hno].
  destruct n as [|n].
  - injection Ha as <-. injection Hb as <-. by apply negb_true_iff.
  - by apply (IH Hno n).
Qed.

Lemma minusAsOpp_loop_unfold (fuel : nat) (stack : list node) (st : nat * list node) :
  minusAsOpp_loop fuel stack st
  = if (st.1 <=? length stack - 2)%nat then
      match fuel with
      | O => None
      | S fuel' =>
          r ⟵ minusAsOpp_body fuel' stack st;
          match r with
          | Continue st' => minusAsOpp_loop fuel' stack st'
          | Break st' => Some (Ok st'.2)
          end
      end
    else Some (Ok st.2).
Proof. by destruct fuel. Qed.

Lemma minusAsOpp_body_copy (fuel : nat) (stack newStack : list node) (n : nat)
    (eltA eltB : node) :
  stack !! n = Some eltA -> stack !! S n = Some eltB ->
  infix eltA && infix eltB = false ->
  minusAsOpp_body fuel stack (n, newStack)
  = Some (Ok (Continue
                ((n + 1)%nat,
                 if (n =? length stack - 2)%nat then (newStack ++ [eltA]) ++ [eltB]
                 else newStack ++ [eltA]))).
Proof.
  intros HA HB Hinf. unfold minusAsOpp_body. rewrite HA, HB.
  unfold infix in Hinf. rewrite Hinf. by destruct (n =? length stack - 2)%nat.
Qed.

Lemma minusAsOpp_loop_copy (stack : list node) :
  noAdjacentInfix stack = true -> (2 <= length stack)%nat ->
  forall k n fuel, (n + k = length stack - 2)%nat -> (k < fuel)%nat ->
    minusAsOpp_loop fuel stack (n, take n stack) = Some (Ok stack).
Proof.
  intros Hno Hlen. induction k as [|k IH]; intros n [|fuel] Hn Hfuel; try lia;
    rewrite minusAsOpp_loop_unfold; cbn [fst snd];
    (destruct (Nat.leb_spec n (length stack - 2)); [| lia]);
    destruct (lookup_lt_is_Some_2 stack n ltac:(lia)) as [eltA HA];
    destruct (lookup_lt_is_Some_2 stack (S n) ltac:(lia)) as [eltB HB];
    rewrite (minusAsOpp_body_copy _ _ _ _ _ _ HA HB
               (noAdjacentInfix_lookup _ Hno _ _ _ HA HB));
    cbn [fbind].
  - destruct (Nat.eqb_spec n (length stack - 2)); [| lia].
    rewrite minusAsOpp_loop_unfold. cbn [fst snd].
    destruct (Nat.leb_spec (n + 1) (length stack - 2)); [lia |].
    rewrite <- (take_S_r _ _ _ HA), <- (take_S_r _ _ _ HB).
    by rewrite take_ge by lia.
  - destruct (Nat.eqb_spec n (length stack - 2)); [lia |].
    rewrite <- (take_S_r _ _ _ HA). replace (n + 1)%nat with (S n) by lia.
    apply IH; lia.
Qed.

(** X26.  On a stack of four elements or more in which no two infix
    operators stand side by side, [_minusAsOpp] returns, and leaves the stack
    as it is. *)
Theorem minusAsOpp_identity (stack : list node) (fuel : nat) :
  (4 <= length stack)%nat -> noAdjacentInfix stack = true ->
  (length stack <= fuel)%nat ->
  minusAsOpp fuel stack = Some (Ok stack).
Proof.
  intros Hlen Hno Hfuel. destruct fuel as [|fuel]; [lia |].
  cbn [minusAsOpp]. destruct (Nat.leb_spec 4 (length stack)); [| lia].
  apply (minusAsOpp_loop_copy stack Hno ltac:(lia) (length stack - 2) 0); lia.
Qed.

Lemma minusAsOpp_identity_witness :
  minusAsOpp 11 sampleStack = Some (Ok sampleStack).
Proof.
  apply (minusAsOpp_identity sampleStack 11); [simpl; lia | reflexivity | simpl; lia].
Defined.

(** ** nest *)

Lemma nest_check_body_outcome (nInfix n : nat) (elt : node) :
  nest_check_body nInfix n elt
  = if (if (n mod 2 =? 0)%nat then operand elt else infix elt)
    then Ok (if (n mod 2 =? 0)%nat then nInfix else (nInfix + 1)%nat)
    else Raise SystemExit.
Proof.
  unfold nest_check_body, operand, infix.
  destruct (n mod 2 =? 0)%nat; [by case_bool_decide | by destruct (is_type _ _)].
Qed.

Lemma nest_check_exits (stack : list node) :
  forall (nInfix n i : nat) (elt : node),
    stack !! i = Some elt ->
    (if ((n + i) mod 2 =? 0)%nat then operand elt else infix elt) = false ->
    for_enumerate nest_check_body nInfix n stack = Raise SystemExit.
Proof.
  induction stack as [|x stack IH]; intros nInfix n i elt Hi Hbad; [done |].
  rewrite for_enumerate_cons, nest_check_body_outcome.
  destruct i as [|i].
  - injection Hi as ->. rewrite Nat.add_0_r in Hbad. by rewrite Hbad.
  - destruct (if (n mod 2 =? 0)%nat then operand x else infix x); [| done].
    cbn [mbind res_bind]. apply (IH _ (S n) i elt Hi).
    by replace (S n + i)%nat with (n + S i)%nat by lia.
Qed.

(** X27.  [nest] calls [exit()] as soon as the stack holds, at an even place,
    an element that is not a (macro)leaf, or at an odd place an element that
    is not an infix operator. *)
Theorem nest_exits (stack : list node) (i : nat) (elt : node) (fuel : nat) :
  stack !! i = Some elt ->
  (if (i mod 2 =? 0)%nat then operand elt else infix elt) = false ->
  nest (S fuel) stack = Some (Raise SystemExit).
Proof.
  intros Hi Hbad. rewrite nest_unfold. unfold nest_check.
  by rewrite (nest_check_exits stack 0 0 i elt Hi Hbad).
Qed.

Lemma nest_exits_witness :
  nest 1 [NUM "2"; PLUS; TIMES; VAR "x"] = Some (Raise SystemExit).
Proof.
  apply (nest_exits [NUM "2"; PLUS; TIMES; VAR "x"] 2 TIMES 0); reflexivity.
Defined.

Lemma leaf_not_macro (elt : node) :
  isLeaf elt = true -> wellFormedNode elt = true -> is_type elt "MACRO" = false.
Proof.
  destruct elt as [t |]; [| done]. intros _. cbn [wellFormedNode].
  intros [Hty _]%andb_true_iff. unfold is_type. cbn [node_type].
  by destruct (bool_decide (type t = "MACRO")).
Qed.

Lemma for_macros_leaves (pass : list node -> option (res (list node)))
    (stack : list node) :
  forallb isLeaf stack = true -> forallb wellFormedNode stack = true ->
  forall done, ffor (for_macros_body pass) done stack = Some (Ok (done ++ stack)).
Proof.
  induction stack as [|x stack IH]; intros Hleaf Hwf done.
  - by rewrite app_nil_r.
  - cbn [forallb] in Hleaf, Hwf.
    apply andb_true_iff in Hleaf as [Hx Hleaf], Hwf as [Hx' Hwf].
    cbn [ffor]. unfold for_macros_body at 1.
    rewrite (leaf_not_macro x Hx Hx'). cbn [fbind].
    rewrite (IH Hleaf Hwf). by rewrite <- app_assoc.
Qed.

Lemma uniform_range (stack : list node) :
  uniformPriority stack -> bounded (priorities stack) -> priorities stack <> [] ->
  (getPriorityRange stack).2 = (getPriorityRange stack).1.
Proof.
  intros Huni Hb Hne.
  destruct (getPriorityRange_spec stack Hb) as [[Hnil _] | (Hmn & Hmx & _)]; [done |].
  apply priorities_elem in Hmn as (a & Ha & Hia & <-).
  apply priorities_elem in Hmx as (b & Hb' & Hib & <-).
  by apply Huni.
Qed.

(** X28.  [nest] leaves as it is a well-formed stack of tokens whose
    operators all have the same priority. *)
Theorem nest_flat_identity (stack : list node) (fuel : nat) :
  wellFormed stack = true -> forallb isLeaf stack = true ->
  uniformPriority stack ->
  nest (S fuel) stack = Some (Ok stack).
Proof.
  intros [Halt Hwf]%andb_true_iff Hleaf Huni.
  rewrite nest_unfold, (nest_check_alternating _ Halt). cbn [fbind].
  unfold for_macros. rewrite (for_macros_leaves _ _ Hleaf Hwf). cbn [app fbind].
  destruct (Nat.leb_spec 2 (length (priorities stack))) as [Hn | _]; [| done].
  rewrite nest_while_unfold.
  rewrite uniform_range; [| done | by apply wellFormed_bounded |].
  - by rewrite Z.eqb_refl.
  - intros Hnil. rewrite Hnil in Hn. simpl in Hn. lia.
Qed.

Lemma nest_flat_identity_witness :
  nest 1 [VAR "a"; PLUS; VAR "b"; MINUS; VAR "c"]
  = Some (Ok [VAR "a"; PLUS; VAR "b"; MINUS; VAR "c"]).
Proof.
  apply (nest_flat_identity [VAR "a"; PLUS; VAR "b"; MINUS; VAR "c"] 0);
    [reflexivity | reflexivity |].
  apply (uniform_of_range _ 1).
  assert (Hp : priorities [VAR "a"; PLUS; VAR "b"; MINUS; VAR "c"] = [1; 1])
    by (vm_compute; reflexivity).
  rewrite Hp. right. cbn [fst snd].
  split; [repeat constructor |]. split; [repeat constructor |].
  intros q Hq. repeat (apply elem_of_cons in Hq as [-> | Hq]; [lia |]).
  by apply elem_of_nil in Hq.
Defined.

(** ** The constructor *)

Lemma alternating_noAdjacent (stack : list node) :
  alternating stack = true -> noAdjacentInfix stack = true.
Proof.
  destruct stack as [|x rest]; [done |]. revert rest x.
  apply (alternating_rest_ind
           (fun x rest => noAdjacentInfix (x :: rest) = true)); [done |].
  intros x o x' rest Hx Ho Halt IH.
  change (noAdjacentInfix (x :: o :: x' :: rest))
    with (negb (infix x && infix o)
          && (negb (infix o && infix x') && noAdjacentInfix (x' :: rest))).
  rewrite IH, (operand_not_infix x Hx).
  rewrite (operand_not_infix x' (alternating_head _ _ Halt)).
  by rewrite andb_false_r.
Qed.

Lemma explicitZeros_leaves (stack : list node) :
  forallb isLeaf stack = true -> forallb wellFormedNode stack = true ->
  mapM explicitZeros_elt stack = Ok stack.
Proof.
  induction stack as [|x stack IH]; [done |]. cbn [forallb].
  intros [Hx Hleaf]%andb_true_iff [Hx' Hwf]%andb_true_iff.
  cbn [mapM]. fold (mapM explicitZeros_elt). rewrite (IH Hleaf Hwf).
  destruct x as [t |]; [| done]. cbn [explicitZeros_elt].
  cbn [wellFormedNode] in Hx'. apply andb_true_iff in Hx' as [Hty _].
  by destruct (bool_decide (type t = "MACRO")).
Qed.

Lemma implicitZero_operand (x : node) (rest : list node) :
  operand x = true -> implicitZero (x :: rest) = Ok [].
Proof.
  intros Hx%operand_not_infix. unfold implicitZero. cbn [lookup list_lookup].
  unfold infix in Hx. rewrite Hx. by destruct (2 <=? length (x :: rest))%nat.
Qed.

(** X29.  Built from a well-formed list of tokens without brackets, a Binary
    holds that very list as its stack, and no remainder: [_buildStack] copies
    it and [_balanceMinus] finds nothing to change. *)
Theorem Binary_init_stores (tokenList : list node) (fuel : nat) :
  wellFormed tokenList = true -> forallb isLeaf tokenList = true ->
  (length tokenList < fuel)%nat ->
  Binary_init fuel tokenList = Some (Ok (tokenList, [])).
Proof.
  intros [Halt Hwf]%andb_true_iff Hleaf Hfuel.
  destruct tokenList as [|x rest]; [done |].
  unfold Binary_init. change (1 <=? length (x :: rest))%nat with true. cbv iota.
  rewrite (buildStack_alternating rest x Halt fuel [] Hfuel). cbn [fbind app].
  unfold balanceMinus, explicitZeros.
  rewrite (implicitZero_operand x rest (alternating_head _ _ Halt)).
  cbn [mbind res_bind]. rewrite (explicitZeros_leaves _ Hleaf Hwf).
  cbn [mbind res_bind fbind app].
  destruct fuel as [|fuel]; [lia |]. cbn [minusAsOpp].
  destruct (Nat.leb_spec 4 (length (x :: rest))) as [Hlen | Hlen].
  - assert (H := minusAsOpp_loop_copy (x :: rest) (alternating_noAdjacent _ Halt)
                   ltac:(lia) (length (x :: rest) - 2) 0 fuel ltac:(lia) ltac:(lia)).
    change (take 0 (x :: rest)) with (@nil node) in H. by rewrite H.
  - unfold for_macros. by rewrite (for_macros_leaves _ _ Hleaf Hwf).
Qed.

Lemma Binary_init_stores_witness :
  Binary_init 12 sampleStack = Some (Ok (sampleStack, [])).
Proof.
  apply (Binary_init_stores sampleStack 12); [reflexivity | reflexivity | simpl; lia].
Defined.

(** * The exceptions of tokenize *)

Lemma registered_token (nm : string) :
  nm ∈ constantsList ++ functionsList ++ infixOpsList ->
  exists t, Token_init nm = Ok t.
Proof.
  intros Hin. unfold Token_init.
  case_bool_decide as Hc; [by eexists |].
  case_bool_decide as Hf; [by eexists |].
  case_bool_decide as Hi; [by eexists |].
  apply elem_of_app in Hin as [? | [? | ?]%elem_of_app]; done.
Qed.

Lemma number_token (c : ascii) (rest : string) :
  digitChar c = true -> isNumber (String c rest) = true ->
  exists t, Token_init (String c rest) = Ok t.
Proof.
  intros Hd Hnum. set (nm := String c rest) in *.
  assert (Halpha : (alphaChar c || Ascii.eqb c "_") = false).
  { apply orb_false_iff. split.
    - destruct (alphaChar c) eqn:Ha; [| done].
      by rewrite (alpha_digit_disjoint c Ha) in Hd.
    - destruct (Ascii.eqb_spec c "_") as [-> | _]; [by vm_compute in Hd | done]. }
  assert (Hres : nm ∉ constantsList ++ functionsList).
  { intros Hin. destruct (reserved_shape nm Hin) as [(x & r' & [= <- <-] & Hx) _].
    by rewrite Hx in Halpha. }
  assert (Hinf : nm ∉ infixOpsList).
  { intros Hin. cbv in Hin.
    repeat (apply elem_of_cons in Hin as [Hin | Hin];
            [injection Hin as -> _; by vm_compute in Hd |]).
    by apply elem_of_nil in Hin. }
  subst nm. unfold Token_init.
  rewrite (bool_decide_eq_false_2 (String c rest ∈ constantsList))
    by (intros ?; apply Hres, elem_of_app; by left).
  rewrite (bool_decide_eq_false_2 (String c rest ∈ functionsList))
    by (intros ?; apply Hres, elem_of_app; by right).
  rewrite (bool_decide_eq_false_2 (String c rest ∈ infixOpsList)) by done.
  unfold checkVariableSyntax. rewrite (bool_decide_eq_false_2 _ Hres).
  rewrite Halpha. cbn [negb mbind res_bind].
  repeat (case_bool_decide; [by eexists |]).
  rewrite Hnum. by eexists.
Qed.

(** A turn of the loop of [tokenize] that raises has met an input of spaces
    only. *)
Lemma tokenize_body_raises (self : QParser) (inp : string) (toks : list Token)
    (e : exn) :
  (0 < str_len inp)%nat ->
  tokenize_body self (inp, toks) = Raise e ->
  e = TypeError /\ allChars spaceChar inp = true.
Proof.
  intros Hlen. unfold tokenize_body, mbind, res_bind.
  assert (Hsp := consumeSpace_cases self inp).
  rewrite (inputStr_of_nonempty _ _ Hlen) in Hsp.
  destruct (consumeSpace self inp) as [[sp rest]|]; [| by intros [= <-]].
  destruct Hsp as (_ & _ & Hrest). intros H. exfalso. revert H.
  destruct rest as [|c rest']; [done |]. set (rest := String c rest') in *.
  assert (Hlen' : (0 < str_len rest)%nat) by (unfold str_len; simpl; lia).
  destruct (Nat.eqb_spec (str_len rest) 0) as [H0 | _]; [lia |].
  destruct (consumeNumber self rest) as [[number tailNumber]|] eqn:HN.
  2:{ destruct (consumeNumber_returns self rest Hlen') as (? & ? & ?). congruence. }
  destruct (consumeConst self rest) as [[constant tailConstant]|] eqn:HC.
  2:{ destruct (consumeConst_returns self rest Hlen') as (? & ? & ?). congruence. }
  destruct (consumeFunc self rest) as [function tailFunction] eqn:HF.
  destruct (consumeVar_name self rest Hlen') as (var & tailVar & HV & _ & Hvar).
  rewrite HV.
  destruct (consumeInfix self rest) as [infix tailInfix] eqn:HI.
  case_bool_decide as Hnum; simpl negb; cbv iota.
  2:{ destruct (digitChar c) eqn:Hd.
      - destruct (consumeNumber_with_digit self rest Hd)
          as (h & t & HN' & Hcat & Hisnum & _).
        rewrite HN in HN'. injection HN' as <- <-.
        destruct number as [|c' number]; [done |]. injection Hcat as -> _.
        destruct (number_token c number Hd Hisnum) as [t ->]. done.
      - unfold rest in HN. rewrite consumeNumber_without_digit in HN by done.
        by injection HN as <- _. }
  case_bool_decide as Hcst; simpl negb; cbv iota.
  2:{ destruct (consumeConst_accepted _ _ _ _ Hlen' HC Hcst) as (_ & Hin & _).
      destruct (registered_token constant) as [t ->]; [| done].
      apply elem_of_app. by left. }
  case_bool_decide as Hfun; simpl negb; cbv iota.
  2:{ destruct (consumeFunc_concat _ _ _ _ Hlen' HF Hfun) as [Hin _].
      destruct (registered_token function) as [t ->]; [| done].
      apply elem_of_app. right. apply elem_of_app. by left. }
  case_bool_decide as Hv; simpl negb; cbv iota.
  2:{ destruct Hvar as [-> | [_ ->]]; done. }
  case_bool_decide as Hinf; simpl negb; cbv iota.
  2:{ destruct (consumeInfix_registered _ _ _ _ Hlen' HI) as [-> | Hin]; [done |].
      destruct (registered_token infix) as [t ->]; [| done].
      apply elem_of_app. right. apply elem_of_app. by right. }
  destruct (pop rest) as [head tail].
  repeat (case_bool_decide as Hhead; [by subst head | clear Hhead]).
  done.
Qed.

Lemma lastChar_all (P : ascii -> bool) (s : string) :
  allChars P s = true -> s <> "" -> exists c, lastChar s = Some c /\ P c = true.
Proof.
  induction s as [|x s IH]; [done |].
  unfold allChars. cbn [list_ascii_of_string forallb].
  intros [Hx Hs]%andb_true_iff _. destruct s as [|y s]; [by exists x |].
  destruct (IH Hs ltac:(done)) as (c & Hc & HP). by exists c.
Qed.

Lemma tokenize_loop_raises (self : QParser) (fuel : nat) :
  forall (inp : string) (toks : list Token) (e : exn),
    tokenize_loop self fuel (inp, toks) = Some (Raise e) ->
    e = TypeError /\ lastChar inp = Some " "%char.
Proof.
  induction fuel as [|fuel IH]; intros inp toks e;
    rewrite tokenize_loop_unfold; cbn [fst snd];
    (destruct (Nat.ltb_spec 0 (str_len inp)) as [Hlen | H0]; [| done]); [done |].
  destruct (tokenize_body self (inp, toks)) as [r | e'] eqn:Hbody.
  - destruct r as [[tail toks'] | st']; [| done]. intros Hnext.
    apply IH in Hnext as [-> Hlast]. split; [done |].
    assert (Htail : tail <> "") by (by intros ->).
    destruct (tokenize_body_cases _ _ _ _ Hlen Hbody)
      as (sp & rest & <- & _ & _ &
          [(x & tail' & t & [= <- _] & _ & <- & _ & _)
          | [(f & tail' & t & b & [= <- _] & _ & _ & _ & _ & <-) | [= <- _]]]).
    + rewrite (lastChar_app sp) by by apply str_app_nonempty.
      by rewrite (lastChar_app x).
    + rewrite (lastChar_app sp) by by apply str_app_nonempty.
      by rewrite (lastChar_app (f +:+ "(")).
    + by rewrite lastChar_app.
  - intros [= <-]. apply tokenize_body_raises in Hbody as [-> Hblank]; [| done].
    split; [done |].
    destruct (lastChar_all _ _ Hblank) as (c & -> & Hc).
    + intros ->. unfold str_len in Hlen. simpl in Hlen. lia.
    + unfold spaceChar in Hc. by apply Ascii.eqb_eq in Hc as ->.
Qed.

(** X30.  The only exception that [tokenize] raises is the TypeError of
    unpacking None, and it raises it only on an input that ends with a
    space. *)
Theorem tokenize_raises (self : QParser) (fuel : nat) (s : string) (e : exn) :
  tokenize self fuel s = Some (Raise e) ->
  e = TypeError /\ lastChar (inputStr_of self s) = Some " "%char.
Proof. intros H. by apply tokenize_loop_raises in H. Qed.

Lemma tokenize_raises_witness :
  TypeError = TypeError /\ lastChar (inputStr_of parser "2x ") = Some " "%char.
Proof. apply (tokenize_raises parser 10 "2x " TypeError). reflexivity. Defined.
